(** * simple-svg: a verification model of [svg.py]

    [svg.py] defines the attribute normaliser [_fix_attrs], the context
    manager [_SVGGroup] and the class [SVGBuilder], a subclass of
    [xml.etree.ElementTree.TreeBuilder].

    The development has three layers:
    - [Py]: the Python data the module handles (values, insertion-ordered
      dictionaries, exceptions, keyword-argument passing, binary64 floats
      and the [%f] / [%d] conversions of the [%] operator);
    - [ET]: the element store and the [TreeBuilder] of
      [xml.etree.ElementTree], on which [SVGBuilder] is built;
    - the functions and methods of [svg.py] themselves, followed by the
      properties proved about them. *)

From Stdlib Require Import ZArith Lia Ascii String DecimalString DecimalPos.
From Stdlib Require Import Floats.SpecFloat.
From stdpp Require Import base list strings.

Local Open Scope string_scope.
Local Open Scope list_scope.

(** ** Python data *)

Module Py.

(** Binary64 floats, as [spec_float] with 53 bits of precision. *)
Definition float := spec_float.
Definition prec : Z := 53.
Definition emax : Z := 1024.

(** The values callers pass as attribute values and geometry. *)
Inductive value :=
  | VNone
  | VInt (z : Z)
  | VFloat (f : float)
  | VStr (s : string).

(** Insertion-ordered dictionaries with string keys. *)
Definition dict (V : Type) := list (string * V).

Fixpoint dict_get {V} (k : string) (d : dict V) : option V :=
  match d with
  | [] => None
  | (k', v) :: d' => if String.eqb k k' then Some v else dict_get k d'
  end.

(** [d[k] = v]: an existing key keeps its position, a new key goes last. *)
Fixpoint dict_set {V} (k : string) (v : V) (d : dict V) : dict V :=
  match d with
  | [] => [(k, v)]
  | (k', v') :: d' =>
      if String.eqb k k' then (k', v) :: d' else (k', v') :: dict_set k v d'
  end.

Definition keys {V} (d : dict V) : list string := map fst d.

Definition has_key {V} (k : string) (d : dict V) : bool :=
  match dict_get k d with Some _ => true | None => false end.

(** Exceptions.  A [TypeError] raised by argument passing records which
    rule was broken rather than the interpreter's message text. *)
Inductive arg_error :=
  | MultipleValues (name : string)
  | MissingArgument (name : string)
  | BadOperand
  | FormatArguments.

Inductive exn :=
  | TypeError (why : arg_error)
  | ValueError (msg : string)
  | OverflowError (msg : string)
  | IndexError (msg : string)
  | AttributeError (msg : string)
  | ParseError (msg : string).

Definition result (A : Type) : Type := exn + A.

Definition rbind {A B} (r : result A) (k : A -> result B) : result B :=
  match r with
  | inl e => inl e
  | inr a => k a
  end.

(** [f(k1=v1, ..., **star)]: the keywords written at a call followed by
    the unpacked dictionary; a repeated name is a [TypeError]. *)
Fixpoint call_kw (explicit star : dict value) : result (dict value) :=
  match star with
  | [] => inr explicit
  | (k, v) :: star' =>
      if has_key k explicit then inl (TypeError (MultipleValues k))
      else call_kw (explicit ++ [(k, v)]) star'
  end.

(** Binding of the keywords of a call whose parameters [bound] were all
    given positionally: a keyword naming one of them is a [TypeError], the
    others are collected into the callee's [**kwargs]. *)
Fixpoint bind_kwargs (bound : list string) (kw : dict value)
  : result (dict value) :=
  match kw with
  | [] => inr []
  | (k, v) :: kw' =>
      if bool_decide (k ∈ bound) then inl (TypeError (MultipleValues k))
      else rbind (bind_kwargs bound kw') (fun rest => inr ((k, v) :: rest))
  end.

(** [str.replace('_', '-')]. *)
Fixpoint replace_underscores (s : string) : string :=
  match s with
  | EmptyString => EmptyString
  | String c s' =>
      String (if Ascii.eqb c "_"%char then "-"%char else c)
             (replace_underscores s')
  end.

(** *** Numbers

    Geometry arguments are Python ints or floats.  Arithmetic between two
    ints is exact; an int meeting a float is first converted, correctly
    rounded, and is rejected when it does not fit. *)

Definition float_of_int (z : Z) : result float :=
  match binary_normalize prec emax z 0 false with
  | S754_infinity _ => inl (OverflowError "int too large to convert to float")
  | f => inr f
  end.

Definition as_float (v : value) : result float :=
  match v with
  | VInt z => float_of_int z
  | VFloat f => inr f
  | _ => inl (TypeError BadOperand)
  end.

Definition py_add (a b : value) : result value :=
  match a, b with
  | VInt x, VInt y => inr (VInt (x + y))
  | VStr x, VStr y => inr (VStr (x +:+ y))
  | _, _ =>
      rbind (as_float a) (fun x =>
      rbind (as_float b) (fun y => inr (VFloat (SFadd prec emax x y))))
  end.

(** [a * c] for a float [c]: where [svg.py] multiplies, the right operand
    is the float returned by [math.cos] or [math.sin]. *)
Definition py_mul_float (a : value) (c : float) : result value :=
  rbind (as_float a) (fun x => inr (VFloat (SFmul prec emax x c))).

Definition py_abs (a : value) : result value :=
  match a with
  | VInt x => inr (VInt (Z.abs x))
  | VFloat f => inr (VFloat (SFabs f))
  | _ => inl (TypeError BadOperand)
  end.

(** Exact comparison of an int with a float: [None] when the float is a
    NaN, which compares false with everything. *)
Definition compare_int_float (x : Z) (f : float) : option comparison :=
  match f with
  | S754_nan => None
  | S754_infinity s => Some (if s then Gt else Lt)
  | S754_zero _ => Some (x ?= 0)%Z
  | S754_finite s m e =>
      let v := if s then Z.neg m else Z.pos m in
      Some (if (0 <=? e)%Z then (x ?= v * 2 ^ e)%Z
            else (x * 2 ^ (- e) ?= v)%Z)
  end.

(** [a > b] between numbers, an int and a float being compared exactly.
    Where [svg.py] compares, the right operand is [math.pi] or [0]. *)
Definition py_gt (a b : value) : result bool :=
  match a, b with
  | VInt x, VInt y => inr (y <? x)%Z
  | VFloat x, VFloat y => inr (SFltb y x)
  | VInt x, VFloat y =>
      inr (match compare_int_float x y with Some Gt => true | _ => false end)
  | VFloat x, VInt y =>
      inr (match compare_int_float y x with Some Lt => true | _ => false end)
  | _, _ => inl (TypeError BadOperand)
  end.

(** [math.pi], 0x1.921fb54442d18p+1. *)
Definition pi : float := S754_finite false 7074237752028440 (-51).

(** *** The [%] operator on strings *)

(** An int in decimal, as [str] and [%d] print it. *)
Definition decimal (z : Z) : string := NilEmpty.string_of_int (Z.to_int z).

Definition digit (d : Z) : ascii :=
  match d with
  | 0 => "0" | 1 => "1" | 2 => "2" | 3 => "3" | 4 => "4"
  | 5 => "5" | 6 => "6" | 7 => "7" | 8 => "8" | _ => "9"
  end%Z%char.

(** The six digits of [n], for [0 <= n < 10^6]. *)
Definition six_digits (n : Z) : string :=
  String (digit (n / 100000 mod 10))
  (String (digit (n / 10000 mod 10))
  (String (digit (n / 1000 mod 10))
  (String (digit (n / 100 mod 10))
  (String (digit (n / 10 mod 10))
  (String (digit (n mod 10)) EmptyString))))).

(** [m * 2^e * 10^6] rounded to the nearest integer, ties to even. *)
Definition scaled_micro (m : positive) (e : Z) : Z :=
  if (0 <=? e)%Z then Z.pos m * 2 ^ e * 1000000
  else
    let n := (Z.pos m * 1000000)%Z in
    let d := (2 ^ (- e))%Z in
    let q := (n / d)%Z in
    let r := (n mod d)%Z in
    match (2 * r ?= d)%Z with
    | Lt => q
    | Gt => (q + 1)%Z
    | Eq => if Z.even q then q else (q + 1)%Z
    end.

Definition fixed6 (s : bool) (q : Z) : string :=
  (if s then "-" else "") +:+ decimal (q / 1000000) +:+ "."
  +:+ six_digits (q mod 1000000).

(** [%f] applied to a float: fixed-point, precision 6. *)
Definition format_float (f : float) : string :=
  match f with
  | S754_nan => "nan"
  | S754_infinity s => if s then "-inf" else "inf"
  | S754_zero s => fixed6 s 0
  | S754_finite s m e => fixed6 s (scaled_micro m e)
  end.

Definition percent_f (v : value) : result string :=
  rbind (as_float v) (fun f => inr (format_float f)).

(** [%d]: an int as it is, a float truncated towards zero. *)
Definition percent_d (v : value) : result string :=
  match v with
  | VInt z => inr (decimal z)
  | VFloat S754_nan => inl (ValueError "cannot convert float NaN to integer")
  | VFloat (S754_infinity _) =>
      inl (OverflowError "cannot convert float infinity to integer")
  | VFloat (S754_zero _) => inr "0"
  | VFloat (S754_finite s m e) =>
      let n := if (0 <=? e)%Z then (Z.pos m * 2 ^ e)%Z
               else (Z.pos m / 2 ^ (- e))%Z in
      inr (decimal (if s then (- n)%Z else n))
  | _ => inl (TypeError BadOperand)
  end.

Definition convert (c : ascii) (v : value) : result string :=
  if Ascii.eqb c "f" then percent_f v
  else if Ascii.eqb c "d" then percent_d v
  else inl (ValueError "unsupported format character").

(** [fmt % args] for a tuple [args], with the conversions [%f] and [%d]. *)
Fixpoint format (fmt : string) (args : list value) : result string :=
  match fmt with
  | EmptyString =>
      match args with
      | [] => inr EmptyString
      | _ :: _ => inl (TypeError FormatArguments)
      end
  | String c rest =>
      if Ascii.eqb c "%" then
        match rest with
        | EmptyString => inl (ValueError "incomplete format")
        | String k rest' =>
            match args with
            | [] => inl (TypeError FormatArguments)
            | a :: args' =>
                rbind (convert k a) (fun s =>
                rbind (format rest' args') (fun r => inr (s +:+ r)))
            end
        end
      else rbind (format rest args) (fun r => inr (String c r))
  end.

End Py.

(** ** The element store and [TreeBuilder]

    [SVGBuilder] inherits [start], [end], [data] and [close] from
    [xml.etree.ElementTree.TreeBuilder].  That name is bound to the class
    of the accelerator module [_elementtree] whenever it can be imported,
    also for a subclass, and it is this class that is modelled here:
    - pending character data is added to the text or tail of the last
      element, after what is there already, and this cannot fail;
    - [start] refuses to open a second top-level element
      ([ParseError]), and only that;
    - [end] closes the innermost open element without looking at the tag
      it is given, and raises [IndexError] when nothing is open;
    - [close] returns the root, whatever is still open.
    The class written in Python in [xml/etree/ElementTree.py], which is
    used only where the accelerator is missing, differs in each of these
    points: it asserts that the slot for pending data is empty, that the
    tag given to [end] is the tag of the element closed and that nothing
    is open at [close], and lets a second top-level element be opened. *)

Module ET.
Import Py.

(** [Element.tag]: a name, or the [Comment] factory itself, which marks a
    comment node. *)
Inductive tag :=
  | Name (s : string)
  | CommentTag.

(** Elements ([tag], [attrib], [text], [tail] and the children) are
    mutable objects shared between the builder's stack and
    their parent's child list, so they live in a store and are referred
    to by address. *)
Record element := Element {
  e_tag : tag;
  e_attrib : dict string;
  e_text : option string;
  e_tail : option string;
  e_children : list nat
}.

#[export] Instance element_inhabited : Inhabited element :=
  populate (Element CommentTag [] None None []).

(** Character data added to a text or a tail: it follows what is there. *)
Definition added (old : option string) (s : string) : option string :=
  match old with
  | Some t => Some (t +:+ s)
  | None => Some s
  end.
Definition add_text (s : string) (e : element) : element :=
  Element (e_tag e) (e_attrib e) (added (e_text e) s) (e_tail e)
          (e_children e).
Definition add_tail (s : string) (e : element) : element :=
  Element (e_tag e) (e_attrib e) (e_text e) (added (e_tail e) s)
          (e_children e).
(** [Element.append]. *)
Definition append (child : nat) (e : element) : element :=
  Element (e_tag e) (e_attrib e) (e_text e) (e_tail e) (e_children e ++ [child]).

(** A call of one of the builder's [TreeBuilder] methods. *)
Inductive call :=
  | CStart (t : string) (attrs : dict string)
  | CEnd (t : string)
  | CData (s : string)
  | CClose.

(** The state of an [SVGBuilder]: that of [TreeBuilder], and [svg].  The
    state of the builder is private to it; the fields are named after the
    attributes of the class written in Python, of which they are the
    counterparts: [_data] is the pending character data, [_elem] the open
    elements, innermost first (the current element followed by the stack
    of its ancestors), [_last] the element opened or closed last, [_tail]
    whether pending data is for the tail of [_last] (it was closed) or
    for its text, [_root] the first element opened.  [calls] is ghost: the
    history of [TreeBuilder] method calls, oldest first, which no
    operation reads. *)
Record builder := Builder {
  heap : list element;
  _data : list string;
  _elem : list nat;
  _last : option nat;
  _root : option nat;
  _tail : bool;
  svg : option nat;
  calls : list call
}.

(** [TreeBuilder.__init__]. *)
Definition fresh : builder := Builder [] [] [] None None false None [].

Definition deref (b : builder) (i : nat) : element := heap b !!! i.

(** Computations on a builder: an exception leaves the changes made
    before it was raised. *)
Definition M (A : Type) : Type := builder -> result A * builder.

Definition ret {A} (a : A) : M A := fun b => (inr a, b).
Definition raise {A} (e : exn) : M A := fun b => (inl e, b).
Definition bind {A B} (m : M A) (k : A -> M B) : M B :=
  fun b => match m b with
           | (inl e, b') => (inl e, b')
           | (inr a, b') => k a b'
           end.
Definition lift {A} (r : result A) : M A := fun b => (r, b).
Definition modify (f : builder -> builder) : M unit := fun b => (inr tt, f b).

Definition log (c : call) (b : builder) : builder :=
  Builder (heap b) (_data b) (_elem b) (_last b) (_root b) (_tail b) (svg b)
          (calls b ++ [c]).
Definition with_heap (h : list element) (b : builder) : builder :=
  Builder h (_data b) (_elem b) (_last b) (_root b) (_tail b) (svg b)
          (calls b).
Definition with_data (d : list string) (b : builder) : builder :=
  Builder (heap b) d (_elem b) (_last b) (_root b) (_tail b) (svg b)
          (calls b).
Definition with_elem (s : list nat) (b : builder) : builder :=
  Builder (heap b) (_data b) s (_last b) (_root b) (_tail b) (svg b)
          (calls b).
Definition with_last (l : option nat) (b : builder) : builder :=
  Builder (heap b) (_data b) (_elem b) l (_root b) (_tail b) (svg b)
          (calls b).
Definition with_root (r : option nat) (b : builder) : builder :=
  Builder (heap b) (_data b) (_elem b) (_last b) r (_tail b) (svg b)
          (calls b).
Definition with_tail (t : bool) (b : builder) : builder :=
  Builder (heap b) (_data b) (_elem b) (_last b) (_root b) t (svg b)
          (calls b).
Definition with_svg (s : option nat) (b : builder) : builder :=
  Builder (heap b) (_data b) (_elem b) (_last b) (_root b) (_tail b) s
          (calls b).
Definition update (i : nat) (f : element -> element) (b : builder) : builder :=
  with_heap (alter f i (heap b)) b.

(** [''.join(parts)]. *)
Definition join (parts : list string) : string :=
  fold_right (fun s acc => s +:+ acc) "" parts.

Module TreeBuilder.

(** Pending data goes to the text of the last element, or to its tail
    when that element was closed.  Data is never pending when there is no
    last element, since [data] drops it then. *)
Definition _flush : M unit := fun b =>
  match _data b with
  | [] => (inr tt, b)
  | _ :: _ =>
      match _last b with
      | Some l =>
          let t := join (_data b) in
          (inr tt,
           with_data [] (update l (if _tail b then add_tail t
                                   else add_text t) b))
      | None => (inr tt, with_data [] b)
      end
  end.

(** [data]: collected until the next [start] or [end]; ignored before
    the first [start]. *)
Definition data (s : string) : M unit :=
  modify (fun b =>
    match _data b, _last b with
    | [], None => log (CData s) b
    | _, _ => with_data (_data b ++ [s]) (log (CData s) b)
    end).

(** The new element is made a child of the innermost open element, or
    the root when there is none yet; a second top-level element is
    refused, and the element made for it is dropped.  Either way pending
    data is from now on for the text of the last element. *)
Definition open_element (t : string) (attrs : dict string) : M nat := fun b =>
  let n := length (heap b) in
  let b1 := with_heap (heap b ++ [Element (Name t) attrs None None []]) b in
  match _elem b, _root b with
  | [], Some _ =>
      (inl (ParseError "multiple elements on top level"), with_tail false b)
  | [], None =>
      (inr n, with_tail false
                (with_elem [n] (with_last (Some n) (with_root (Some n) b1))))
  | p :: _, _ =>
      (inr n, with_tail false
                (with_elem (n :: _elem b)
                   (with_last (Some n) (update p (append n) b1))))
  end.

Definition start (t : string) (attrs : dict string) : M nat :=
  bind (modify (log (CStart t attrs))) (fun _ =>
  bind _flush (fun _ => open_element t attrs)).

(** [start(tag)] with the [attrs] argument left out: the method takes
    two arguments. *)
Definition start_without_attrs (t : string) : M nat :=
  raise (TypeError (MissingArgument "attrs")).

(** The innermost open element is closed and returned. *)
Definition pop : M nat := fun b =>
  match _elem b with
  | [] => (inl (IndexError "pop from empty stack"), b)
  | l :: rest => (inr l, with_tail true (with_last (Some l) (with_elem rest b)))
  end.

(** [end(tag)]: the tag is not looked at. *)
Definition end_ (t : string) : M nat :=
  bind (modify (log (CEnd t))) (fun _ =>
  bind _flush (fun _ => pop)).

(** [close()]: the root, or [None] when no element was ever opened. *)
Definition close : M (option nat) := fun b => (inr (_root b), log CClose b).

End TreeBuilder.

(** [ET.Comment(text)]: a fresh element tagged with the factory. *)
Definition Comment (s : string) : M nat := fun b =>
  (inr (length (heap b)),
   with_heap (heap b ++ [Element CommentTag [] (Some s) None []]) b).

End ET.

(** ** [svg.py] *)

Import Py ET.

Notation "x <- c ;; k" := (bind c (fun x => k))
  (at level 100, c at next level, right associativity).
Notation "c ;;; k" := (bind c (fun _ => k))
  (at level 100, right associativity).

(** [class _SVGGroup].  Its [builder] attribute refers to the one builder
    that [M] threads, so an instance is determined by its [tag]. *)
Module _SVGGroup.

Record t := __init__ { tag : string }.

Definition __enter__ (self : t) : M t := ret self.

(** The three arguments describing a pending exception are not used; the
    method returns [None], so that exception, if any, propagates. *)
Definition __exit__ (self : t) : M unit :=
  TreeBuilder.end_ (tag self) ;;; ret tt.

End _SVGGroup.

(** The [with] statement, [with mgr as h: body]: [__exit__] runs however
    the body finishes; an exception it raises replaces the body's
    outcome.  An early exit from the body ([return], [break]) is a body
    that finishes with the value standing for it. *)
Definition with_ {A} (mgr : _SVGGroup.t) (body : _SVGGroup.t -> M A) : M A :=
  fun b =>
    match _SVGGroup.__enter__ mgr b with
    | (inl e, b1) => (inl e, b1)
    | (inr h, b1) =>
        let (outcome, b2) := body h b1 in
        match _SVGGroup.__exit__ mgr b2 with
        | (inl e, b3) => (inl e, b3)
        | (inr _, b3) => (outcome, b3)
        end
    end.

(** What [ElementTree.write] is called with. *)
Record tree_write := TreeWrite {
  tw_root : nat;
  tw_file : string;
  tw_encoding : string;
  tw_xml_declaration : bool
}.

(** ** Vocabulary of the properties *)

(** The pending character data, if there is any, goes to a slot that is
    still empty ([tail] of the last element after an end tag, [text]
    after a start tag): flushing it sets that text or tail rather than
    adds to it. *)
Definition flushable (b : builder) : bool :=
  match _data b, _last b with
  | [], _ => true
  | _ :: _, None => true
  | _ :: _, Some l =>
      if _tail b then bool_decide (e_tail (deref b l) = None)
      else bool_decide (e_text (deref b l) = None)
  end.

(** Every open element is allocated. *)
Definition well_formed (b : builder) : Prop :=
  Forall (fun i => i < length (heap b)) (_elem b).

(** [start] will not refuse: an element is open, or none was opened yet. *)
Definition can_open (b : builder) : bool :=
  match _elem b, _root b with
  | [], Some _ => false
  | _, _ => true
  end.

(** The builder once [_flush] has run, and what [_flush] leaves alone:
    everything but the pending data and the text and tail of stored
    elements. *)
Definition flushed (b : builder) : builder := (TreeBuilder._flush b).2.

Definition same_structure (b b' : builder) : Prop :=
  _elem b' = _elem b /\ _last b' = _last b /\ _root b' = _root b
  /\ _tail b' = _tail b /\ svg b' = svg b /\ calls b' = calls b
  /\ length (heap b') = length (heap b)
  /\ forall i, e_tag (deref b' i) = e_tag (deref b i)
             /\ e_attrib (deref b' i) = e_attrib (deref b i)
             /\ e_children (deref b' i) = e_children (deref b i).

(** [b'] is [b] after one element was opened, given the character data
    [body] if any, and closed again: the new element sits at the next free
    address, is a child of the innermost open element and is not open
    itself; the open elements are the same. *)
Record emitted (b b' : builder) (t : string) (attrs : dict string)
    (body : option string) : Prop := {
  em_elem : _elem b' = _elem b;
  em_new : heap b' !! length (heap b)
           = Some (Element (Name t) attrs body None []);
  em_length : length (heap b') = S (length (heap b));
  em_parent : forall p rest, _elem b = p :: rest ->
      e_children (deref b' p) = e_children (deref b p) ++ [length (heap b)];
  em_calls : calls b'
             = calls b ++ CStart t attrs
                 :: match body with
                    | Some s => [CData s; CEnd t]
                    | None => [CEnd t]
                    end;
  em_closed : length (heap b) ∉ _elem b'
}.

Definition hyphenate (c : ascii) : ascii :=
  if Ascii.eqb c "_" then "-"%char else c.

(** No key of [kw] is one of [names]. *)
Definition avoids (names : list string) (kw : dict value) : bool :=
  forallb (fun k => negb (bool_decide (k ∈ names))) (keys kw).

Definition no_hyphen (s : string) : bool :=
  forallb (fun c => negb (Ascii.eqb c "-")) (list_ascii_of_string s).

(** ASCII identifiers: a letter or underscore, then letters, digits and
    underscores. *)
Definition is_letter (c : ascii) : bool :=
  let n := nat_of_ascii c in
  ((65 <=? n) && (n <=? 90) || (97 <=? n) && (n <=? 122) || (n =? 95))%nat.
Definition is_digit (c : ascii) : bool :=
  let n := nat_of_ascii c in ((48 <=? n) && (n <=? 57))%nat.
Definition is_identifier (s : string) : bool :=
  match s with
  | EmptyString => false
  | String c s' =>
      is_letter c
      && forallb (fun c => is_letter c || is_digit c) (list_ascii_of_string s')
  end.

(** A number in fixed-point notation with six digits after the point:
    an optional minus sign, one or more digits, a point, six digits. *)
Definition fixed_point6 (s : string) : Prop :=
  exists sign int frac,
    s = sign +:+ int +:+ "." +:+ frac
    /\ (sign = "" \/ sign = "-")
    /\ int <> ""
    /\ forallb is_digit (list_ascii_of_string int) = true
    /\ String.length frac = 6
    /\ forallb is_digit (list_ascii_of_string frac) = true.

Definition is_infinite (f : float) : bool :=
  match f with S754_infinity _ => true | _ => false end.
Definition is_finite (f : float) : bool :=
  match f with S754_zero _ | S754_finite _ _ _ => true | _ => false end.

(** SVG path data, as the specification of the sector describes it. *)
Inductive path_command :=
  | MoveTo (x y : float)
  | LineTo (x y : float)
  | Arc (rx ry : float) (x_axis_rotation : Z) (large_arc sweep : bool)
        (x y : float)
  | ClosePath.

Definition flag (b : bool) : string := if b then "1" else "0".

Definition render_command (c : path_command) : string :=
  match c with
  | MoveTo x y => "M" +:+ format_float x +:+ "," +:+ format_float y
  | LineTo x y => "L" +:+ format_float x +:+ "," +:+ format_float y
  | Arc rx ry rot large sweep x y =>
      "A" +:+ format_float rx +:+ "," +:+ format_float ry +:+ " "
      +:+ decimal rot +:+ " " +:+ flag large +:+ "," +:+ flag sweep +:+ " "
      +:+ format_float x +:+ "," +:+ format_float y
  | ClosePath => "Z"
  end.

(** The commands separated by single spaces. *)
Fixpoint render (cs : list path_command) : string :=
  match cs with
  | [] => ""
  | [c] => render_command c
  | c :: cs' => render_command c +:+ " " +:+ render cs'
  end.

(** A stand-in platform for the examples: cosine and sine are given at
    zero, where they are exact, and at [4.0], correctly rounded
    ([-0x1.4eaa606db24c1p-1] and [-0x1.837b9dddc1eaep-1]), and floats
    print as a fixed marker. *)
Definition sample_cos (x : float) : float :=
  match x with
  | S754_zero _ => S754_finite false 4503599627370496 (-52)
  | S754_finite false 4503599627370496 (-50) =>
      S754_finite true 5887498334708929 (-53)
  | _ => S754_nan
  end.
Definition sample_sin (x : float) : float :=
  match x with
  | S754_zero _ => S754_zero false
  | S754_finite false 4503599627370496 (-50) =>
      S754_finite true 6816670871723694 (-53)
  | _ => S754_nan
  end.
Definition sample_repr (x : float) : string := "<float>".

(** The builder that [SVGBuilder(100, 50)] constructs, and the same with
    one group left open, and after [write]. *)
Definition sample_root : element :=
  Element (Name "svg")
    [("xmlns", "http://www.w3.org/2000/svg"); ("version", "1.1");
     ("width", "100"); ("height", "50")]
    None None [1].
Definition sample_comment : element :=
  Element CommentTag [] (Some "vbl-stats svg generated at 2014-05-01T12:00:00")
    None [].
Definition sample_builder : builder :=
  Builder [sample_root; sample_comment] [] [0] (Some 0) (Some 0) false (Some 0)
    [CStart "svg" (e_attrib sample_root)].
Definition sample_open_group : builder :=
  Builder [append 2 sample_root; sample_comment; Element (Name "g") [] None None []]
    [] [2; 0] (Some 2) (Some 0) false (Some 0)
    [CStart "svg" (e_attrib sample_root); CStart "g" []].
Definition sample_written : builder :=
  Builder [sample_root; sample_comment] [] [] (Some 0) (Some 0) true (Some 0)
    [CStart "svg" (e_attrib sample_root); CEnd "svg"; CClose].

(** No underscore in a name. *)
Definition no_underscore (s : string) : bool :=
  forallb (fun c => negb (Ascii.eqb c "_")) (list_ascii_of_string s).

(** Membership of a literal in a literal list, and the cases of a
    membership hypothesis. *)
Ltac member :=
  match goal with
  | |- ?P => apply (proj1 (bool_decide_eq_true P)); reflexivity
  end.
Ltac split_members H :=
  repeat (apply elem_of_cons in H as [H | H]);
  try (by apply elem_of_nil in H).

Section Svg.

(** Taken from the platform: the C library's cosine and sine, and the
    shortest-round-trip [repr] of a float. *)
Variables libm_cos libm_sin : float -> float.
Variable float_repr : float -> string.

Definition py_str (v : value) : string :=
  match v with
  | VNone => "None"
  | VInt z => decimal z
  | VFloat f => float_repr f
  | VStr s => s
  end.

(** [math.cos] and [math.sin]: an infinite argument is a domain error. *)
Definition math_cos (v : value) : result float :=
  rbind (as_float v) (fun x =>
    match x with
    | S754_infinity _ => inl (ValueError "math domain error")
    | _ => inr (libm_cos x)
    end).

Definition math_sin (v : value) : result float :=
  rbind (as_float v) (fun x =>
    match x with
    | S754_infinity _ => inl (ValueError "math domain error")
    | _ => inr (libm_sin x)
    end).

(** [_fix_attrs]: the keyword arguments of the call arrive as [kwargs]. *)
Definition _fix_attrs (kwargs : dict value) : dict string :=
  fold_left
    (fun attrs kv => dict_set (replace_underscores kv.1) (py_str kv.2) attrs)
    kwargs [].

(** *** [class SVGBuilder]

    A method takes its named parameters, bound positionally, and the
    keyword arguments [kw] of the call. *)

Definition item (tag : string) (kw : dict value) : M unit :=
  kwargs <- lift (bind_kwargs ["self"; "tag"] kw) ;;
  _ <- TreeBuilder.start tag (_fix_attrs kwargs) ;;
  _ <- TreeBuilder.end_ tag ;;
  ret tt.

Definition __init__ (width height : value) (kw : dict value) (now : string)
  : M unit :=
  kwargs <- lift (bind_kwargs ["self"; "width"; "height"] kw) ;;
  modify (fun _ => fresh) ;;;
  args <- lift (call_kw [("xmlns", VStr "http://www.w3.org/2000/svg");
                         ("version", VStr "1.1")] kwargs) ;;
  let attrs := _fix_attrs args in
  let attrs := match width with
               | VNone => attrs
               | _ => dict_set "width" (py_str width) attrs
               end in
  let attrs := match height with
               | VNone => attrs
               | _ => dict_set "height" (py_str height) attrs
               end in
  root <- TreeBuilder.start "svg" attrs ;;
  modify (with_svg (Some root)) ;;;
  c <- Comment ("vbl-stats svg generated at " +:+ now) ;;
  modify (update root (append c)).

Definition circle (cx cy r : value) (kw : dict value) : M unit :=
  kwargs <- lift (bind_kwargs ["self"; "cx"; "cy"; "r"] kw) ;;
  args <- lift (call_kw [("cx", cx); ("cy", cy); ("r", r)] kwargs) ;;
  item "circle" args.

(** The tuple of line 64 to 71, its elements evaluated left to right. *)
Definition sector_args (cx cy r alpha theta : value) : result (list value) :=
  rbind (math_cos alpha) (fun c1 =>
  rbind (py_mul_float r c1) (fun m1 =>
  rbind (py_add cx m1) (fun x1 =>
  rbind (math_sin alpha) (fun s1 =>
  rbind (py_mul_float r s1) (fun m2 =>
  rbind (py_add cy m2) (fun y1 =>
  rbind (py_abs theta) (fun a =>
  rbind (py_gt a (VFloat pi)) (fun large =>
  rbind (py_gt theta (VInt 0)) (fun sweep =>
  rbind (py_add alpha theta) (fun at1 =>
  rbind (math_cos at1) (fun c2 =>
  rbind (py_mul_float r c2) (fun m3 =>
  rbind (py_add cx m3) (fun x2 =>
  rbind (py_add alpha theta) (fun at2 =>
  rbind (math_sin at2) (fun s2 =>
  rbind (py_mul_float r s2) (fun m4 =>
  rbind (py_add cy m4) (fun y2 =>
  inr [cx; cy; x1; y1; r; r;
       VInt (if large then 1 else 0); VInt (if sweep then 1 else 0);
       x2; y2]))))))))))))))))).

Definition sector_d (cx cy r alpha theta : value) : result string :=
  rbind (sector_args cx cy r alpha theta)
        (format "M%f,%f L%f,%f A%f,%f 0 %d,%d %f,%f Z").

Definition circle_sector (cx cy r alpha theta : value) (kw : dict value)
  : M unit :=
  kwargs <- lift (bind_kwargs ["self"; "cx"; "cy"; "r"; "alpha"; "theta"] kw) ;;
  d <- lift (sector_d cx cy r alpha theta) ;;
  args <- lift (call_kw [("d", VStr d)] kwargs) ;;
  item "path" args.

Definition defs : M _SVGGroup.t :=
  _ <- TreeBuilder.start_without_attrs "defs" ;;
  ret (_SVGGroup.__init__ "defs").

Definition g (kw : dict value) : M _SVGGroup.t :=
  kwargs <- lift (bind_kwargs ["self"] kw) ;;
  _ <- TreeBuilder.start "g" (_fix_attrs kwargs) ;;
  ret (_SVGGroup.__init__ "g").

Definition line (x1 y1 x2 y2 : value) (kw : dict value) : M unit :=
  kwargs <- lift (bind_kwargs ["self"; "x1"; "y1"; "x2"; "y2"] kw) ;;
  args <- lift (call_kw [("x1", x1); ("y1", y1); ("x2", x2); ("y2", y2)]
                        kwargs) ;;
  item "line" args.

Definition rect (x y w h : value) (kw : dict value) : M unit :=
  kwargs <- lift (bind_kwargs ["self"; "x"; "y"; "w"; "h"] kw) ;;
  args <- lift (call_kw [("x", x); ("y", y); ("width", w); ("height", h)]
                        kwargs) ;;
  item "rect" args.

Definition text (body : string) (x y : value) (kw : dict value) : M unit :=
  kwargs <- lift (bind_kwargs ["self"; "text"; "x"; "y"] kw) ;;
  args <- lift (call_kw [("x", x); ("y", y)] kwargs) ;;
  _ <- TreeBuilder.start "text" (_fix_attrs args) ;;
  TreeBuilder.data body ;;;
  _ <- TreeBuilder.end_ "text" ;;
  ret tt.

Definition text_group (x y : value) (kw : dict value) : M _SVGGroup.t :=
  kwargs <- lift (bind_kwargs ["self"; "x"; "y"] kw) ;;
  args <- lift (call_kw [("x", x); ("y", y)] kwargs) ;;
  _ <- TreeBuilder.start "text" (_fix_attrs args) ;;
  ret (_SVGGroup.__init__ "text").

(** [write]; the progress message it prints first is not modelled.  A
    tree without a root, which [close] returns only when no element was
    ever opened, makes the serialiser fail. *)
Definition write (file_or_name encoding : string) (xml_decl : bool)
  : M tree_write :=
  _ <- TreeBuilder.end_ "svg" ;;
  data <- TreeBuilder.close ;;
  match data with
  | Some root => ret (TreeWrite root file_or_name encoding xml_decl)
  | None => raise (AttributeError "'NoneType' object has no attribute 'iter'")
  end.

(** What [_fix_attrs] does to one entry. *)
Definition normalise (kv : string * value) : string * string :=
  (replace_underscores kv.1, py_str kv.2).

(** The five shape operations, to state properties of all of them. *)
Inductive shape :=
  | Circle (cx cy r : value)
  | Line (x1 y1 x2 y2 : value)
  | Rect (x y w h : value)
  | Text (body : string) (x y : value)
  | CircleSector (cx cy r alpha theta : value).

Definition draw (s : shape) (kw : dict value) : M unit :=
  match s with
  | Circle cx cy r => circle cx cy r kw
  | Line x1 y1 x2 y2 => line x1 y1 x2 y2 kw
  | Rect x y w h => rect x y w h kw
  | Text body x y => text body x y kw
  | CircleSector cx cy r alpha theta => circle_sector cx cy r alpha theta kw
  end.

(** The element a shape emits and the attributes its geometry sets. *)
Definition shape_tag (s : shape) : string :=
  match s with
  | Circle _ _ _ => "circle"
  | Line _ _ _ _ => "line"
  | Rect _ _ _ _ => "rect"
  | Text _ _ _ => "text"
  | CircleSector _ _ _ _ _ => "path"
  end.

Definition geometry_names (s : shape) : list string :=
  match s with
  | Circle _ _ _ => ["cx"; "cy"; "r"]
  | Line _ _ _ _ => ["x1"; "y1"; "x2"; "y2"]
  | Rect _ _ _ _ => ["x"; "y"; "width"; "height"]
  | Text _ _ _ => ["x"; "y"]
  | CircleSector _ _ _ _ _ => ["d"]
  end.

(** The names a keyword argument of the call must not use: the method's
    own parameters, [item]'s, and the geometry attributes. *)
Definition reserved_names (s : shape) : list string :=
  match s with
  | Circle _ _ _ => ["self"; "tag"; "cx"; "cy"; "r"]
  | Line _ _ _ _ => ["self"; "tag"; "x1"; "y1"; "x2"; "y2"]
  | Rect _ _ _ _ => ["self"; "tag"; "x"; "y"; "w"; "h"; "width"; "height"]
  | Text _ _ _ => ["self"; "text"; "x"; "y"]
  | CircleSector _ _ _ _ _ =>
      ["self"; "tag"; "cx"; "cy"; "r"; "alpha"; "theta"; "d"]
  end.

(** The character data a shape sends, and the keywords it passes on for
    its geometry (for the sector, once its path data is computed). *)
Definition shape_body (s : shape) : option string :=
  match s with
  | Text body _ _ => Some body
  | _ => None
  end.

Definition explicit_keywords (s : shape) : result (dict value) :=
  match s with
  | Circle cx cy r => inr [("cx", cx); ("cy", cy); ("r", r)]
  | Line x1 y1 x2 y2 => inr [("x1", x1); ("y1", y1); ("x2", x2); ("y2", y2)]
  | Rect x y w h => inr [("x", x); ("y", y); ("width", w); ("height", h)]
  | Text _ x y => inr [("x", x); ("y", y)]
  | CircleSector cx cy r alpha theta =>
      rbind (sector_d cx cy r alpha theta) (fun d => inr [("d", VStr d)])
  end.

Definition is_number (v : value) : bool :=
  match v with
  | VInt _ | VFloat _ => true
  | _ => false
  end.

(** [|theta| > pi] and [theta > 0], with Python's [abs] and [>]. *)
Definition exceeds_pi (theta : value) : bool :=
  match rbind (py_abs theta) (fun a => py_gt a (VFloat pi)) with
  | inr true => true
  | _ => false
  end.
Definition is_positive (theta : value) : bool :=
  match py_gt theta (VInt 0) with
  | inr true => true
  | _ => false
  end.

(** The path of a sector as the specification words it, from the
    center, the radius, the two edge points and the two flags. *)
Definition spec_sector_path (cx cy r x1 y1 x2 y2 : float) (large sweep : bool)
  : list path_command :=
  [MoveTo cx cy; LineTo x1 y1; Arc r r 0 large sweep x2 y2; ClosePath].

(** One call on a constructed builder, by the methods of the class or
    those it inherits, and the builders a program can reach: from a
    constructor that returned, by any calls, whatever their outcome. *)
Inductive operation :=
  | OpStart (t : string) (attrs : dict string)
  | OpEnd (t : string)
  | OpData (s : string)
  | OpClose
  | OpItem (t : string) (kw : dict value)
  | OpDraw (s : shape) (kw : dict value)
  | OpG (kw : dict value)
  | OpDefs
  | OpTextGroup (x y : value) (kw : dict value)
  | OpRelease (h : _SVGGroup.t)
  | OpWrite (file enc : string) (decl : bool).

Definition run (op : operation) : M unit :=
  match op with
  | OpStart t attrs => TreeBuilder.start t attrs ;;; ret tt
  | OpEnd t => TreeBuilder.end_ t ;;; ret tt
  | OpData s => TreeBuilder.data s
  | OpClose => TreeBuilder.close ;;; ret tt
  | OpItem t kw => item t kw
  | OpDraw s kw => draw s kw
  | OpG kw => g kw ;;; ret tt
  | OpDefs => defs ;;; ret tt
  | OpTextGroup x y kw => text_group x y kw ;;; ret tt
  | OpRelease h => _SVGGroup.__exit__ h
  | OpWrite file enc decl => write file enc decl ;;; ret tt
  end.

Inductive reachable : builder -> Prop :=
  | reach_new width height kw now b0 b :
      __init__ width height kw now b0 = (inr tt, b) -> reachable b
  | reach_call op b : reachable b -> reachable (run op b).2.

(** A computation keeps the open elements allocated. *)
Definition preserves {A} (m : M A) : Prop :=
  forall b, well_formed b -> well_formed (m b).2.

(** The calls of the class's own methods, leaving the inherited [start],
    [end], [data] and [close] to the class, with the handles the class
    hands out; and the builders a program reaches with them. *)
Definition own (op : operation) : bool :=
  match op with
  | OpItem _ _ | OpDraw _ _ | OpG _ | OpDefs | OpTextGroup _ _ _
  | OpWrite _ _ _ => true
  | OpRelease h =>
      bool_decide (_SVGGroup.tag h ∈ ["g"; "defs"; "text"])
  | OpStart _ _ | OpEnd _ | OpData _ | OpClose => false
  end.

Inductive reachable_own : builder -> Prop :=
  | reach_own_new width height kw now b0 b :
      __init__ width height kw now b0 = (inr tt, b) -> reachable_own b
  | reach_own_call op b :
      own op = true -> reachable_own b -> reachable_own (run op b).2.

(** What no operation undoes: elements stay allocated and keep their
    tag, and a root once set stays. *)
Definition frame (b b' : builder) : Prop :=
  length (heap b) <= length (heap b')
  /\ (forall i, i < length (heap b) ->
        e_tag (deref b' i) = e_tag (deref b i))
  /\ (forall r, _root b = Some r -> _root b' = Some r).

Definition framing {A} (m : M A) : Prop := forall b, frame b (m b).2.

(** The root is an allocated [svg] element, and every open element is
    allocated and is the root, a [g] or a [text]. *)
Definition rooted (b : builder) : Prop :=
  exists r,
    _root b = Some r /\ r < length (heap b)
    /\ e_tag (deref b r) = Name "svg"
    /\ forall i, i ∈ _elem b ->
         i < length (heap b)
         /\ (i = r \/ e_tag (deref b i) = Name "g"
             \/ e_tag (deref b i) = Name "text").

(** The parameters a shape method binds positionally, and what it does
    with the keywords it has assembled: [item], or for [text] the three
    calls of its body. *)
Definition parameters (s : shape) : list string :=
  match s with
  | Circle _ _ _ => ["self"; "cx"; "cy"; "r"]
  | Line _ _ _ _ => ["self"; "x1"; "y1"; "x2"; "y2"]
  | Rect _ _ _ _ => ["self"; "x"; "y"; "w"; "h"]
  | Text _ _ _ => ["self"; "text"; "x"; "y"]
  | CircleSector _ _ _ _ _ => ["self"; "cx"; "cy"; "r"; "alpha"; "theta"]
  end.

Definition emit (s : shape) (args : dict value) : M unit :=
  match s with
  | Text body _ _ =>
      _ <- TreeBuilder.start "text" (_fix_attrs args) ;;
      TreeBuilder.data body ;;;
      _ <- TreeBuilder.end_ "text" ;;
      ret tt
  | _ => item (shape_tag s) args
  end.

(** The store once the innermost open element, if there is one, has been
    given the child [n]. *)
Definition attach (n : nat) (st : list nat) (h : list element) : list element :=
  match st with
  | p :: _ => alter (append n) p h
  | [] => h
  end.

(** The root after an element was opened at address [n]: the element
    itself when nothing was open and there was no root yet. *)
Definition root_after (n : nat) (b : builder) : option nat :=
  match _elem b, _root b with
  | [], None => Some n
  | _, r => r
  end.

(** The [TreeBuilder] calls of one shape. *)
Definition shape_calls (t : string) (attrs : dict string)
    (body : option string) : list call :=
  CStart t attrs :: match body with
                    | Some s => [CData s; CEnd t]
                    | None => [CEnd t]
                    end.

(** A caller that draws shapes one after the other, and a call of a shape
    method that is well formed: no keyword twice, none named like a
    parameter or a geometry attribute, and a sector whose path data can be
    computed. *)
Fixpoint draw_all (cs : list (shape * dict value)) : M unit :=
  match cs with
  | [] => ret tt
  | (s, kw) :: cs' => draw s kw ;;; draw_all cs'
  end.

Definition drawable (c : shape * dict value) : Prop :=
  NoDup (keys c.2)
  /\ avoids (reserved_names c.1) c.2 = true
  /\ exists ex, explicit_keywords c.1 = inr ex.

(** [b'] is [b] after an element was opened and left open: it sits at the
    next free address, on top of the stack, without text or children, as
    the last child of the element that was innermost. *)
Record opened (b b' : builder) (t : string) (attrs : dict string) : Prop := {
  op_elem : _elem b' = length (heap b) :: _elem b;
  op_new : heap b' !! length (heap b)
           = Some (Element (Name t) attrs None None []);
  op_length : length (heap b') = S (length (heap b));
  op_parent : forall p rest, _elem b = p :: rest ->
      e_children (deref b' p) = e_children (deref b p) ++ [length (heap b)];
  op_calls : calls b' = calls b ++ [CStart t attrs];
  op_data : _data b' = []
}.

(** What every operation keeps of a stored element and of the builder:
    the element stays, with its tag and attributes; its children are only
    added to, at the end; a text or tail that is set is only added to, at
    its end; the root once set and the [svg] attribute stay. *)
Definition grows (b b' : builder) : Prop :=
  length (heap b) <= length (heap b')
  /\ svg b' = svg b
  /\ (forall r, _root b = Some r -> _root b' = Some r)
  /\ forall i, i < length (heap b) ->
       e_tag (deref b' i) = e_tag (deref b i)
       /\ e_attrib (deref b' i) = e_attrib (deref b i)
       /\ e_children (deref b i) `prefix_of` e_children (deref b' i)
       /\ (forall s, e_text (deref b i) = Some s ->
             exists s', e_text (deref b' i) = Some (s +:+ s'))
       /\ (forall s, e_tail (deref b i) = Some s ->
             exists s', e_tail (deref b' i) = Some (s +:+ s')).

Definition growing {A} (m : M A) : Prop := forall b, grows b (m b).2.

(** The element at [c] is stored and is out of the builder's reach: it is
    not open and is not the element opened or closed last, which is where
    character data goes.  A computation is sparing of [c] when it leaves
    such an element as it is, and out of reach. *)
Definition aside (c : nat) (b : builder) : Prop :=
  c < length (heap b) /\ _last b <> Some c /\ c ∉ _elem b.

Definition sparing (c : nat) {A} (m : M A) : Prop :=
  forall b, aside c b -> aside c (m b).2 /\ deref (m b).2 c = deref b c.

(** An attribute set in the constructor when its argument is given. *)
Definition optional_attr (name : string) (v : value) : dict string :=
  match v with
  | VNone => []
  | _ => [(name, py_str v)]
  end.

(** The two grouping methods that hand out a handle ([defs] raises before
    it could), with the tag of the element they open, their parameters
    and the keywords they pass on for their arguments. *)
Inductive group :=
  | Group
  | TextGroup (x y : value).

Definition open_group (gr : group) (kw : dict value) : M _SVGGroup.t :=
  match gr with
  | Group => g kw
  | TextGroup x y => text_group x y kw
  end.

Definition group_tag (gr : group) : string :=
  match gr with
  | Group => "g"
  | TextGroup _ _ => "text"
  end.

Definition group_parameters (gr : group) : list string :=
  match gr with
  | Group => ["self"]
  | TextGroup _ _ => ["self"; "x"; "y"]
  end.

Definition group_keywords (gr : group) : dict value :=
  match gr with
  | Group => []
  | TextGroup x y => [("x", x); ("y", y)]
  end.

(** An element with more children at the end. *)
Definition extend (cs : list nat) (e : element) : element :=
  Element (e_tag e) (e_attrib e) (e_text e) (e_tail e) (e_children e ++ cs).

(** A program's calls on a builder, one after the other, whatever each
    one's outcome. *)
Definition run_all (ops : list operation) (b : builder) : builder :=
  fold_left (fun b op => (run op b).2) ops b.

(** The attributes of the root as the constructor's arguments give them:
    the two fixed ones, the normalised extras, then the width and the
    height that are given. *)
Definition root_attributes (width height : value) (kw : dict value)
  : dict string :=
  [("xmlns", "http://www.w3.org/2000/svg"); ("version", "1.1")]
  ++ _fix_attrs kw
  ++ optional_attr "width" width ++ optional_attr "height" height.

(** ** Properties *)

(** *** Dictionaries and keyword arguments *)

Lemma dict_get_None {V} k (d : dict V) : dict_get k d = None <-> k ∉ keys d.
Proof.
  induction d as [|[k' v] d IH]; simpl.
  - split; [intros _ H; inversion H | done].
  - destruct (String.eqb_spec k k') as [->|Hne].
    + split; [done | intros H; destruct H; left].
    + rewrite IH. split.
      * intros H Hin. apply elem_of_cons in Hin as [?|?]; [done | by apply H].
      * intros H Hin. apply H. by right.
Qed.

Lemma has_key_true {V} k (d : dict V) : has_key k d = true <-> k ∈ keys d.
Proof.
  unfold has_key. destruct (dict_get k d) eqn:E.
  - split; [intros _ | done].
    destruct (decide (k ∈ keys d)) as [?|Hn]; [done |].
    apply dict_get_None in Hn. congruence.
  - split; [done | intros Hin]. apply dict_get_None in E. done.
Qed.

Lemma dict_set_fresh {V} k (v : V) d :
  k ∉ keys d -> dict_set k v d = d ++ [(k, v)].
Proof.
  induction d as [|[k' v'] d IH]; simpl; [done |].
  intros Hn. destruct (String.eqb_spec k k') as [->|Hne].
  - destruct Hn. left.
  - rewrite IH; [done |]. intros Hin. apply Hn. by right.
Qed.

Lemma dict_get_set_eq {V} k (v : V) d : dict_get k (dict_set k v d) = Some v.
Proof.
  induction d as [|[k' v'] d IH]; simpl.
  - by rewrite String.eqb_refl.
  - destruct (String.eqb_spec k k') as [->|Hne]; simpl.
    + by rewrite String.eqb_refl.
    + destruct (String.eqb_spec k k'); [done | apply IH].
Qed.

Lemma dict_get_set_ne {V} k k' (v : V) d :
  k <> k' -> dict_get k (dict_set k' v d) = dict_get k d.
Proof.
  intros Hne. induction d as [|[k0 v0] d IH]; simpl.
  - destruct (String.eqb_spec k k'); [done | done].
  - destruct (String.eqb_spec k' k0) as [->|Hne0]; simpl.
    + destruct (String.eqb_spec k k0); [done | done].
    + destruct (String.eqb_spec k k0); [done | apply IH].
Qed.

Lemma dict_get_app_fresh {V} k (v : V) d :
  k ∉ keys d -> dict_get k (d ++ [(k, v)]) = Some v.
Proof.
  intros Hn. rewrite <- (dict_set_fresh k v d Hn). apply dict_get_set_eq.
Qed.

Lemma dict_get_map {V W} (f : string -> string) (g : V -> W) k v (d : dict V) :
  NoDup (map f (keys d)) ->
  dict_get k d = Some v ->
  dict_get (f k) (map (fun kv => (f kv.1, g kv.2)) d) = Some (g v).
Proof.
  induction d as [|[k' v'] d IH]; simpl; [done |].
  intros Hnd Hget. apply NoDup_cons in Hnd as [Hnotin Hnd].
  destruct (String.eqb_spec k k') as [->|Hne].
  - injection Hget as ->. by rewrite String.eqb_refl.
  - destruct (String.eqb_spec (f k) (f k')) as [Heq|_]; [| by apply IH].
    destruct Hnotin. rewrite <- Heq.
    assert (k ∈ keys d) as Hin.
    { apply has_key_true. unfold has_key. by rewrite Hget. }
    apply list_elem_of_In, in_map, list_elem_of_In, Hin.
Qed.

(** [bind_kwargs] accepts exactly the keywords that avoid the bound names,
    and passes them on unchanged. *)
Lemma bind_kwargs_avoids bound kw :
  avoids bound kw = true -> bind_kwargs bound kw = inr kw.
Proof.
  unfold avoids. induction kw as [|[k v] kw IH]; simpl; [done |].
  intros H. apply andb_true_iff in H as [Hk Hrest].
  destruct (bool_decide (k ∈ bound)); [done |].
  by rewrite (IH Hrest).
Qed.

Lemma bind_kwargs_collision bound kw k :
  k ∈ keys kw -> k ∈ bound ->
  exists k', bind_kwargs bound kw = inl (TypeError (MultipleValues k')).
Proof.
  induction kw as [|[k0 v] kw IH]; simpl; intros Hin Hb.
  - inversion Hin.
  - destruct (bool_decide (k0 ∈ bound)) eqn:E; [by eexists |].
    apply elem_of_cons in Hin as [->|Hin].
    + apply bool_decide_eq_false in E. done.
    + destruct (IH Hin Hb) as [k' ->]. by eexists.
Qed.

Lemma bind_kwargs_result bound kw :
  bind_kwargs bound kw = inr kw
  \/ exists k', bind_kwargs bound kw = inl (TypeError (MultipleValues k')).
Proof.
  induction kw as [|[k v] kw IH]; simpl; [by left |].
  destruct (bool_decide (k ∈ bound)); [right; by eexists |].
  destruct IH as [-> | [k' ->]]; [by left | right; by eexists].
Qed.

Lemma call_kw_avoids explicit star :
  avoids (keys explicit) star = true ->
  NoDup (keys star) ->
  call_kw explicit star = inr (explicit ++ star).
Proof.
  unfold avoids. revert explicit.
  induction star as [|[k v] star IH]; simpl; intros explicit H Hnd.
  - by rewrite app_nil_r.
  - apply andb_true_iff in H as [Hk Hrest].
    apply NoDup_cons in Hnd as [Hnotin Hnd].
    apply negb_true_iff, bool_decide_eq_false in Hk.
    destruct (has_key k explicit) eqn:E.
    { apply has_key_true in E. done. }
    rewrite IH; [by rewrite <- app_assoc | | done].
    apply forallb_forall. intros k' Hin.
    rewrite forallb_forall in Hrest. specialize (Hrest k' Hin).
    apply negb_true_iff, bool_decide_eq_false in Hrest.
    apply negb_true_iff, bool_decide_eq_false.
    unfold keys. rewrite map_app. simpl. intros Hk'.
    apply elem_of_app in Hk' as [?|Hk']; [done |].
    apply list_elem_of_singleton in Hk' as ->.
    apply Hnotin, list_elem_of_In, Hin.
Qed.

Lemma call_kw_collision explicit star k :
  k ∈ keys star -> k ∈ keys explicit ->
  exists k', call_kw explicit star = inl (TypeError (MultipleValues k')).
Proof.
  revert explicit. induction star as [|[k0 v] star IH]; simpl;
    intros explicit Hin He.
  - inversion Hin.
  - destruct (has_key k0 explicit) eqn:E; [by eexists |].
    apply elem_of_cons in Hin as [->|Hin].
    + apply has_key_true in He. congruence.
    + apply IH; [done |]. unfold keys. rewrite map_app.
      apply elem_of_app. by left.
Qed.

(** *** C3: attribute normalisation *)

Lemma replace_underscores_get k i :
  String.get i (replace_underscores k) = hyphenate <$> String.get i k.
Proof.
  revert i. induction k as [|c k IH]; intros i; simpl; [done |].
  destruct i; [done | apply IH].
Qed.

Lemma replace_underscores_length k :
  String.length (replace_underscores k) = String.length k.
Proof. induction k as [|c k IH]; simpl; [done | by rewrite IH]. Qed.

Lemma replace_underscores_inj a b :
  no_hyphen a = true -> no_hyphen b = true ->
  replace_underscores a = replace_underscores b -> a = b.
Proof.
  unfold no_hyphen. revert b.
  induction a as [|c a IH]; intros [|d b]; simpl; try done.
  intros Ha Hb Heq.
  apply andb_true_iff in Ha as [Hc Ha]. apply andb_true_iff in Hb as [Hd Hb].
  injection Heq as Hcd Hab.
  f_equal; [| by apply IH].
  apply negb_true_iff in Hc, Hd.
  destruct (Ascii.eqb_spec c "_") as [->|?], (Ascii.eqb_spec d "_") as [->|?];
    try done.
  - subst d. by rewrite Ascii.eqb_refl in Hd.
  - subst c. by rewrite Ascii.eqb_refl in Hc.
Qed.

Lemma is_identifier_no_hyphen s : is_identifier s = true -> no_hyphen s = true.
Proof.
  unfold is_identifier, no_hyphen. destruct s as [|c s]; [done |].
  intros H. apply andb_true_iff in H as [Hc Hs]. simpl.
  apply andb_true_iff. split.
  - destruct (Ascii.eqb_spec c "-") as [->|?]; [done | done].
  - apply forallb_forall. intros x Hx.
    rewrite forallb_forall in Hs. specialize (Hs x Hx).
    destruct (Ascii.eqb_spec x "-") as [->|?]; [done | done].
Qed.

Lemma NoDup_replace_underscores (l : list string) :
  NoDup l -> Forall (fun k => no_hyphen k = true) l ->
  NoDup (map replace_underscores l).
Proof.
  induction 1 as [|k l Hnotin Hnd IH]; simpl; intros Hall; [constructor |].
  apply Forall_cons in Hall as [Hk Hall].
  constructor; [| by apply IH].
  intros Hin. apply list_elem_of_In, in_map_iff in Hin as (k' & Heq & Hin').
  apply list_elem_of_In in Hin'.
  assert (k' = k) as ->; [| done].
  apply replace_underscores_inj; [| done | done].
  rewrite Forall_forall in Hall. by apply Hall.
Qed.

Lemma fix_attrs_fold (kwargs : dict value) (acc : dict string) :
  NoDup (keys acc ++ map replace_underscores (keys kwargs)) ->
  fold_left
    (fun attrs kv => dict_set (replace_underscores kv.1) (py_str kv.2) attrs)
    kwargs acc
  = acc ++ map normalise kwargs.
Proof.
  revert acc. induction kwargs as [|[k v] kwargs IH]; simpl; intros acc Hnd.
  - by rewrite app_nil_r.
  - assert (replace_underscores k ∉ keys acc) as Hfresh.
    { apply NoDup_app in Hnd as (_ & Hdisj & _). intros Hin.
      apply (Hdisj _ Hin). left. }
    rewrite dict_set_fresh by done. rewrite IH.
    + by rewrite <- app_assoc.
    + unfold keys at 1. rewrite map_app. simpl. rewrite <- app_assoc. done.
Qed.

Lemma fix_attrs_map (kwargs : dict value) :
  NoDup (map replace_underscores (keys kwargs)) ->
  _fix_attrs kwargs = map normalise kwargs.
Proof. intros Hnd. unfold _fix_attrs. by rewrite fix_attrs_fold. Qed.

(** C3.  For a dictionary whose keys are free of hyphens, as identifiers
    are, [_fix_attrs] returns the entries in the same order, each key with
    every underscore replaced by a hyphen and nothing else changed, each
    value converted by [str]; looking up a rewritten key gives the
    converted value. *)
Theorem fix_attrs_normalises (kwargs : dict value) :
  NoDup (keys kwargs) ->
  Forall (fun k => no_hyphen k = true) (keys kwargs) ->
  _fix_attrs kwargs
  = map (fun kv => (replace_underscores kv.1, py_str kv.2)) kwargs
  /\ (forall k v, dict_get k kwargs = Some v ->
        dict_get (replace_underscores k) (_fix_attrs kwargs) = Some (py_str v))
  /\ (forall k i, String.get i (replace_underscores k)
                  = (fun c => if Ascii.eqb c "_" then "-"%char else c)
                      <$> String.get i k).
Proof.
  intros Hnd Hall.
  pose proof (NoDup_replace_underscores _ Hnd Hall) as Hnd'.
  split; [by apply fix_attrs_map |].
  split; [| apply replace_underscores_get].
  intros k v Hget. rewrite fix_attrs_map by done.
  by apply (dict_get_map replace_underscores py_str).
Qed.

(** *** The tree builder *)

Lemma deref_update_proj {A} (P : element -> A) f l b i :
  (forall e, P (f e) = P e) -> P (deref (update l f b) i) = P (deref b i).
Proof.
  intros Hf. unfold deref, update. simpl.
  rewrite !list_lookup_total_alt, list_lookup_alter.
  case_decide as E; [| done].
  subst. destruct (heap b !! i); simpl; auto.
Qed.

Lemma same_structure_refl b : same_structure b b.
Proof. repeat split. Qed.

Lemma same_structure_update l f b :
  (forall e, e_tag (f e) = e_tag e) ->
  (forall e, e_attrib (f e) = e_attrib e) ->
  (forall e, e_children (f e) = e_children e) ->
  same_structure b (with_data [] (update l f b)).
Proof.
  intros Ht Ha Hc. unfold same_structure. simpl.
  repeat split; try apply length_alter.
  - by apply (deref_update_proj e_tag f l b i).
  - by apply (deref_update_proj e_attrib f l b i).
  - by apply (deref_update_proj e_children f l b i).
Qed.

(** [_flush] always returns. *)
Lemma flush_run b : TreeBuilder._flush b = (inr tt, flushed b).
Proof.
  unfold flushed, TreeBuilder._flush.
  destruct (_data b) as [|d ds]; [done |]. by destruct (_last b).
Qed.

Lemma flush_idle b : _data b = [] -> TreeBuilder._flush b = (inr tt, b).
Proof. unfold TreeBuilder._flush. by intros ->. Qed.

Lemma flushed_idle b : _data b = [] -> flushed b = b.
Proof. intros Hd. unfold flushed. by rewrite flush_idle. Qed.

Lemma flushed_structure b : same_structure b (flushed b).
Proof.
  unfold flushed, TreeBuilder._flush.
  destruct (_data b) as [|d ds]; [apply same_structure_refl |].
  destruct (_last b) as [l|]; [| repeat split].
  destruct (_tail b); by apply same_structure_update.
Qed.

Lemma flushed_data b : _data (flushed b) = [].
Proof.
  unfold flushed, TreeBuilder._flush.
  destruct (_data b) as [|d ds] eqn:Ed; [done |]. by destruct (_last b).
Qed.

Lemma flushed_can_open b : can_open (flushed b) = can_open b.
Proof.
  destruct (flushed_structure b) as (He & _ & Hr & _).
  unfold can_open. by rewrite He, Hr.
Qed.

Lemma start_run t attrs b :
  TreeBuilder.start t attrs b
  = TreeBuilder.open_element t attrs (flushed (log (CStart t attrs) b)).
Proof. unfold TreeBuilder.start, bind, modify. by rewrite flush_run. Qed.

Lemma end_run t b :
  TreeBuilder.end_ t b = TreeBuilder.pop (flushed (log (CEnd t) b)).
Proof. unfold TreeBuilder.end_, bind, modify. by rewrite flush_run. Qed.

Lemma append_empty_r s : s +:+ "" = s.
Proof.
  induction s as [|c s IH]; [done |].
  change (String c (s +:+ "") = String c s). by rewrite IH.
Qed.

Lemma open_can_open b : _elem b <> [] -> can_open b = true.
Proof. unfold can_open. by destruct (_elem b). Qed.

(** What [open_element] does to a builder whose open elements are
    allocated, when it does not refuse. *)
Lemma open_element_spec t attrs b :
  well_formed b -> can_open b = true ->
  exists b1,
    TreeBuilder.open_element t attrs b = (inr (length (heap b)), b1)
    /\ _elem b1 = length (heap b) :: _elem b
    /\ _data b1 = _data b
    /\ _last b1 = Some (length (heap b))
    /\ _tail b1 = false
    /\ calls b1 = calls b
    /\ length (heap b1) = S (length (heap b))
    /\ heap b1 !! length (heap b) = Some (Element (Name t) attrs None None [])
    /\ (forall p rest, _elem b = p :: rest ->
          e_children (deref b1 p) = e_children (deref b p) ++ [length (heap b)]).
Proof.
  intros Hwf Hopen. unfold well_formed, can_open in *.
  destruct b as [h d e l r tl sv cs]. simpl in *.
  unfold TreeBuilder.open_element. simpl.
  destruct e as [|p rest]; simpl.
  - destruct r; [done |]. eexists. split; [reflexivity |]. simpl.
    repeat split; try (rewrite length_app; simpl; lia);
      try (by apply list_lookup_middle); done.
  - apply Forall_cons in Hwf as [Hp _].
    eexists. split; [reflexivity |]. simpl.
    repeat split.
    + rewrite length_alter, length_app. simpl. lia.
    + rewrite list_lookup_alter_ne by lia. by apply list_lookup_middle.
    + intros p' rest' [= <- <-]. unfold deref. simpl.
      rewrite list_lookup_total_alter_eq by (rewrite length_app; simpl; lia).
      by rewrite lookup_total_app_l.
Qed.

(** A second top-level element is refused, and nothing is stored. *)
Lemma open_element_refused t attrs b :
  can_open b = false ->
  TreeBuilder.open_element t attrs b
  = (inl (ParseError "multiple elements on top level"), with_tail false b).
Proof.
  unfold can_open, TreeBuilder.open_element.
  destruct (_elem b); [| done]. by destruct (_root b).
Qed.

(** Closing the element that was just opened, after the character data
    [pending] was sent for it. *)
Lemma close_new t pending b n rest e :
  _elem b = n :: rest ->
  heap b !! n = Some e -> e_text e = None ->
  _last b = Some n -> _tail b = false -> _data b = pending ->
  exists b2,
    TreeBuilder.end_ t b = (inr n, b2)
    /\ _elem b2 = rest
    /\ _data b2 = []
    /\ calls b2 = calls b ++ [CEnd t]
    /\ length (heap b2) = length (heap b)
    /\ heap b2 !! n
       = Some (match pending with
               | [] => e
               | _ => Element (e_tag e) (e_attrib e) (Some (join pending))
                        (e_tail e) (e_children e)
               end)
    /\ (forall i, e_children (deref b2 i) = e_children (deref b i)).
Proof.
  intros He Hn Htext Hl Ht Hd.
  destruct b as [h d st l r tl sv cs]. simpl in *. subst d st l tl.
  unfold TreeBuilder.end_, bind, modify, TreeBuilder._flush. simpl.
  destruct pending as [|s pending]; simpl.
  - unfold TreeBuilder.pop. simpl.
    eexists. split; [reflexivity |]. simpl. repeat split; done.
  - unfold TreeBuilder.pop. simpl.
    eexists. split; [reflexivity |]. simpl.
    repeat split.
    + apply length_alter.
    + rewrite list_lookup_alter_eq, Hn. simpl. unfold add_text.
      by rewrite Htext.
    + intros i.
      apply (deref_update_proj e_children (add_text (s +:+ join pending)) n
               (Builder h [] rest (Some n) r false sv (cs ++ [CEnd t])) i).
      done.
Qed.

(** [start] on a builder whose open elements are allocated, when it does
    not refuse. *)
Lemma start_spec t attrs b :
  well_formed b -> can_open b = true ->
  exists b1,
    TreeBuilder.start t attrs b = (inr (length (heap b)), b1)
    /\ _elem b1 = length (heap b) :: _elem b
    /\ _data b1 = []
    /\ _last b1 = Some (length (heap b))
    /\ _tail b1 = false
    /\ calls b1 = calls b ++ [CStart t attrs]
    /\ length (heap b1) = S (length (heap b))
    /\ heap b1 !! length (heap b) = Some (Element (Name t) attrs None None [])
    /\ (forall p rest, _elem b = p :: rest ->
          e_children (deref b1 p) = e_children (deref b p) ++ [length (heap b)]).
Proof.
  intros Hwf Hopen. rewrite start_run.
  pose proof (flushed_structure (log (CStart t attrs) b)) as Hs.
  pose proof (flushed_data (log (CStart t attrs) b)) as Hd.
  destruct Hs as (He & Hl & Hr & Ht & Hsv & Hc & Hlen & Hframe).
  simpl in He, Hc, Hlen, Hr.
  set (b0 := flushed (log (CStart t attrs) b)) in *.
  assert (well_formed b0) as Hwf0.
  { unfold well_formed. rewrite He, Hlen. exact Hwf. }
  assert (can_open b0 = true) as Hopen0.
  { unfold can_open in *. by rewrite He, Hr. }
  destruct (open_element_spec t attrs b0 Hwf0 Hopen0)
    as (b1 & Hrun & He1 & Hd1 & Hl1 & Ht1 & Hc1 & Hlen1 & Hnew & Hpar).
  rewrite Hlen in *. exists b1.
  repeat split; try done.
  - by rewrite He1, He.
  - by rewrite Hd1.
  - by rewrite Hc1, Hc.
  - intros p rest Hp. rewrite (Hpar p rest) by (by rewrite He).
    f_equal. apply (Hframe p).
Qed.

(** [start] with nothing open on a builder that has its root: the
    pending data is flushed, nothing is stored and nothing is opened. *)
Lemma start_refused t attrs b :
  can_open b = false ->
  TreeBuilder.start t attrs b
  = (inl (ParseError "multiple elements on top level"),
     with_tail false (flushed (log (CStart t attrs) b))).
Proof.
  intros Hopen. rewrite start_run. apply open_element_refused.
  by rewrite flushed_can_open.
Qed.

Lemma emit_element t attrs b :
  well_formed b -> can_open b = true ->
  exists b',
    (_ <- TreeBuilder.start t attrs ;; _ <- TreeBuilder.end_ t ;; ret tt) b
    = (inr tt, b')
    /\ emitted b b' t attrs None.
Proof.
  intros Hwf Hopen.
  destruct (start_spec t attrs b Hwf Hopen)
    as (b1 & Hrun & He1 & Hd1 & Hl1 & Ht1 & Hc1 & Hlen1 & Hnew & Hpar).
  destruct (close_new t [] b1 _ _ _ He1 Hnew eq_refl Hl1 Ht1 Hd1)
    as (b2 & Hrun2 & He2 & _ & Hc2 & Hlen2 & Hnew2 & Hch2).
  exists b2. split.
  - unfold bind at 1. rewrite Hrun. unfold bind at 1. rewrite Hrun2. done.
  - split; try done.
    + congruence.
    + intros p rest Hp. rewrite Hch2. by apply (Hpar p rest).
    + rewrite Hc2, Hc1, <- app_assoc. done.
    + rewrite He2. intros Hin. unfold well_formed in Hwf.
      rewrite Forall_forall in Hwf. specialize (Hwf _ Hin). lia.
Qed.

Lemma data_after_start s b n :
  _last b = Some n ->
  TreeBuilder.data s b
  = (inr tt, with_data (_data b ++ [s]) (log (CData s) b)).
Proof.
  intros Hl. unfold TreeBuilder.data, modify. rewrite Hl.
  by destruct (_data b).
Qed.

Lemma emit_text t attrs body b :
  well_formed b -> can_open b = true ->
  exists b',
    (_ <- TreeBuilder.start t attrs ;;
     TreeBuilder.data body ;;;
     _ <- TreeBuilder.end_ t ;; ret tt) b
    = (inr tt, b')
    /\ emitted b b' t attrs (Some body).
Proof.
  intros Hwf Hopen.
  destruct (start_spec t attrs b Hwf Hopen)
    as (b1 & Hrun & He1 & Hd1 & Hl1 & Ht1 & Hc1 & Hlen1 & Hnew & Hpar).
  set (b1' := with_data (_data b1 ++ [body]) (log (CData body) b1)).
  assert (_data b1' = [body]) as Hd1' by (simpl; by rewrite Hd1).
  destruct (close_new t [body] b1' _ _ _ He1 Hnew eq_refl Hl1 Ht1 Hd1')
    as (b2 & Hrun2 & He2 & _ & Hc2 & Hlen2 & Hnew2 & Hch2).
  exists b2. split.
  - unfold bind at 1. rewrite Hrun. unfold bind at 1.
    rewrite (data_after_start body b1 _ Hl1). fold b1'.
    unfold bind at 1. rewrite Hrun2. done.
  - simpl in Hnew2. rewrite append_empty_r in Hnew2.
    split; try done.
    + simpl in Hlen2. congruence.
    + intros p rest Hp. rewrite Hch2. by apply (Hpar p rest).
    + rewrite Hc2. simpl. rewrite Hc1, <- !app_assoc. done.
    + rewrite He2. intros Hin. unfold well_formed in Hwf.
      rewrite Forall_forall in Hwf. specialize (Hwf _ Hin). lia.
Qed.

(** The stack after [start], [data] and [end], on any builder. *)
Lemma start_elem t attrs b :
  _elem (TreeBuilder.start t attrs b).2
  = if can_open b then length (heap b) :: _elem b else _elem b.
Proof.
  rewrite start_run.
  destruct (flushed_structure (log (CStart t attrs) b))
    as (He & _ & Hr & _ & _ & _ & Hlen & _).
  simpl in He, Hr, Hlen.
  unfold TreeBuilder.open_element, can_open. rewrite He, Hr, Hlen.
  destruct (_elem b); [| done]. by destruct (_root b).
Qed.

Lemma start_returns t attrs b :
  (TreeBuilder.start t attrs b).1
  = if can_open b then inr (length (heap b))
    else inl (ParseError "multiple elements on top level").
Proof.
  rewrite start_run.
  destruct (flushed_structure (log (CStart t attrs) b))
    as (He & _ & Hr & _ & _ & _ & Hlen & _).
  simpl in He, Hr, Hlen.
  unfold TreeBuilder.open_element, can_open. rewrite He, Hr, Hlen.
  destruct (_elem b); [| done]. by destruct (_root b).
Qed.

Lemma data_elem s b : _elem (TreeBuilder.data s b).2 = _elem b.
Proof.
  unfold TreeBuilder.data, modify. simpl.
  destruct (_data b); [| done]. by destruct (_last b).
Qed.

Lemma end_elem t b : _elem (TreeBuilder.end_ t b).2 = tail (_elem b).
Proof.
  rewrite end_run.
  destruct (flushed_structure (log (CEnd t) b)) as (He & _).
  simpl in He. unfold TreeBuilder.pop. rewrite He.
  by destruct (_elem b).
Qed.

(** The open elements after an open-and-close are those before, whatever
    the builder and whether or not an exception was raised. *)
Lemma emit_element_stack t attrs b :
  _elem ((_ <- TreeBuilder.start t attrs ;;
          _ <- TreeBuilder.end_ t ;; ret tt) b).2 = _elem b.
Proof.
  unfold bind at 1.
  pose proof (start_elem t attrs b) as He.
  pose proof (start_returns t attrs b) as Hr.
  destruct (TreeBuilder.start t attrs b) as [[e|n] b1]; simpl in *.
  - destruct (can_open b); done.
  - destruct (can_open b); [| done].
    pose proof (end_elem t b1) as He2. rewrite He in He2. unfold bind, ret.
    by destruct (TreeBuilder.end_ t b1) as [[e|m] b2].
Qed.

Lemma emit_text_stack t attrs body b :
  _elem ((_ <- TreeBuilder.start t attrs ;;
          TreeBuilder.data body ;;;
          _ <- TreeBuilder.end_ t ;; ret tt) b).2 = _elem b.
Proof.
  unfold bind at 1.
  pose proof (start_elem t attrs b) as He.
  pose proof (start_returns t attrs b) as Hr.
  destruct (TreeBuilder.start t attrs b) as [[e|n] b1]; simpl in *.
  - destruct (can_open b); done.
  - destruct (can_open b); [| done].
    unfold bind at 1.
    pose proof (data_elem body b1) as Hd.
    destruct (TreeBuilder.data body b1) as [[e|[]] b1'] eqn:E; simpl in *.
    + by unfold TreeBuilder.data, modify in E.
    + pose proof (end_elem t b1') as He2. rewrite Hd, He in He2.
      unfold bind, ret.
      by destruct (TreeBuilder.end_ t b1') as [[e|m] b2].
Qed.

Lemma lift_bind_stack {A B} (r : result A) (k : A -> M B) b :
  (forall a, _elem (k a b).2 = _elem b) ->
  _elem ((a <- lift r ;; k a) b).2 = _elem b.
Proof. intros H. unfold bind, lift. destruct r; [done | apply H]. Qed.

Lemma item_stack t kw b : _elem (item t kw b).2 = _elem b.
Proof.
  unfold item. apply lift_bind_stack. intros kwargs.
  apply emit_element_stack.
Qed.

Lemma draw_stack s kw b : _elem (draw s kw b).2 = _elem b.
Proof.
  destruct s; simpl;
    unfold circle, line, rect, text, circle_sector;
    repeat (apply lift_bind_stack; intros ?);
    first [apply item_stack | apply emit_element_stack
          | apply emit_text_stack].
Qed.

(** [item] emits an element when the keywords avoid its parameters. *)
Lemma item_emits t kw b :
  avoids ["self"; "tag"] kw = true ->
  well_formed b -> can_open b = true ->
  exists b', item t kw b = (inr tt, b')
             /\ emitted b b' t (_fix_attrs kw) None.
Proof.
  intros Hkw Hwf Hopen. unfold item, bind at 1, lift.
  rewrite bind_kwargs_avoids by done.
  by apply emit_element.
Qed.

Lemma avoids_weaken names names' kw :
  forallb (fun n => bool_decide (n ∈ names)) names' = true ->
  avoids names kw = true -> avoids names' kw = true.
Proof.
  unfold avoids. rewrite !forallb_forall. intros Hsub H k Hk.
  specialize (H k Hk). apply negb_true_iff, bool_decide_eq_false in H.
  apply negb_true_iff, bool_decide_eq_false. intros Hin. apply H.
  specialize (Hsub k (proj1 (list_elem_of_In _ _) Hin)).
  by apply bool_decide_eq_true in Hsub.
Qed.

Lemma avoids_app names (ex kw : dict value) :
  avoids names ex = true -> avoids names kw = true ->
  avoids names (ex ++ kw) = true.
Proof.
  unfold avoids, keys. rewrite map_app, forallb_app. by intros -> ->.
Qed.

Lemma call_kw_inr explicit star args :
  call_kw explicit star = inr args -> args = explicit ++ star.
Proof.
  revert explicit. induction star as [|[k v] star IH]; simpl; intros explicit.
  - intros [= <-]. by rewrite app_nil_r.
  - destruct (has_key k explicit); [done |].
    intros H. apply IH in H. by rewrite <- app_assoc in H.
Qed.

Lemma bind_kwargs_inr bound kw kwargs :
  bind_kwargs bound kw = inr kwargs -> kwargs = kw.
Proof.
  destruct (bind_kwargs_result bound kw) as [-> | [k' ->]]; [| done].
  by intros [= <-].
Qed.

(** An open-and-close that returned had not been refused. *)
Lemma emit_element_returns t attrs b b' :
  (_ <- TreeBuilder.start t attrs ;; _ <- TreeBuilder.end_ t ;; ret tt) b
  = (inr tt, b') ->
  can_open b = true.
Proof.
  unfold bind at 1. pose proof (start_returns t attrs b) as Hr.
  destruct (TreeBuilder.start t attrs b) as [[e|n] b1]; [done |].
  simpl in Hr. by destruct (can_open b).
Qed.

Lemma emit_text_returns t attrs body b b' :
  (_ <- TreeBuilder.start t attrs ;;
   TreeBuilder.data body ;;;
   _ <- TreeBuilder.end_ t ;; ret tt) b = (inr tt, b') ->
  can_open b = true.
Proof.
  unfold bind at 1. pose proof (start_returns t attrs b) as Hr.
  destruct (TreeBuilder.start t attrs b) as [[e|n] b1]; [done |].
  simpl in Hr. by destruct (can_open b).
Qed.

(** A shape that hands its geometry to [item]. *)
Lemma via_item_emits bound ex t kw b :
  avoids bound kw = true -> avoids (keys ex) kw = true ->
  avoids ["self"; "tag"] kw = true -> avoids ["self"; "tag"] ex = true ->
  NoDup (keys kw) -> well_formed b -> can_open b = true ->
  exists b',
    (kwargs <- lift (bind_kwargs bound kw) ;;
     args <- lift (call_kw ex kwargs) ;;
     item t args) b = (inr tt, b')
    /\ emitted b b' t (_fix_attrs (ex ++ kw)) None.
Proof.
  intros Hb Hex Hkw Hst Hnd Hwf Hopen. unfold bind at 1, lift at 1.
  rewrite bind_kwargs_avoids by done.
  unfold bind at 1, lift at 1. rewrite call_kw_avoids by done.
  apply item_emits; [by apply avoids_app | done | done].
Qed.

Lemma via_item_returns bound ex t kw b b' :
  (kwargs <- lift (bind_kwargs bound kw) ;;
   args <- lift (call_kw ex kwargs) ;;
   item t args) b = (inr tt, b') ->
  well_formed b ->
  emitted b b' t (_fix_attrs (ex ++ kw)) None.
Proof.
  unfold bind at 1, lift at 1.
  destruct (bind_kwargs bound kw) as [e|kwargs] eqn:E1; [done |].
  apply bind_kwargs_inr in E1 as ->.
  unfold bind at 1, lift at 1.
  destruct (call_kw ex kw) as [e|args] eqn:E2; [done |].
  apply call_kw_inr in E2 as ->.
  unfold item, bind at 1, lift at 1.
  destruct (bind_kwargs ["self"; "tag"] (ex ++ kw)) as [e|kwargs] eqn:E3;
    [done |].
  apply bind_kwargs_inr in E3 as ->.
  intros Hrun Hwf.
  pose proof (emit_element_returns _ _ _ _ Hrun) as Hopen.
  destruct (emit_element t (_fix_attrs (ex ++ kw)) b Hwf Hopen)
    as (b2 & Hrun2 & Hem).
  rewrite Hrun2 in Hrun. by injection Hrun as <-.
Qed.

Lemma draw_emits s kw b ex :
  well_formed b -> can_open b = true -> NoDup (keys kw) ->
  avoids (reserved_names s) kw = true ->
  explicit_keywords s = inr ex ->
  exists b',
    draw s kw b = (inr tt, b')
    /\ emitted b b' (shape_tag s) (_fix_attrs (ex ++ kw)) (shape_body s).
Proof.
  intros Hwf Hopen Hnd Hav Hex.
  destruct s as [cx cy r|x1 y1 x2 y2|x y w h|body x y|cx cy r alpha theta];
    simpl in *.
  - injection Hex as <-. unfold circle.
    apply via_item_emits; try done;
      by (eapply avoids_weaken; [| exact Hav]).
  - injection Hex as <-. unfold line.
    apply via_item_emits; try done;
      by (eapply avoids_weaken; [| exact Hav]).
  - injection Hex as <-. unfold rect.
    apply via_item_emits; try done;
      by (eapply avoids_weaken; [| exact Hav]).
  - injection Hex as <-. unfold text, bind at 1, lift at 1.
    rewrite bind_kwargs_avoids by done.
    unfold bind at 1, lift at 1.
    rewrite call_kw_avoids;
      [| by (eapply avoids_weaken; [| exact Hav]) | done].
    by apply emit_text.
  - destruct (sector_d cx cy r alpha theta) as [e|d] eqn:Ed; [done |].
    injection Hex as <-. unfold circle_sector, bind at 1, lift at 1.
    rewrite bind_kwargs_avoids
      by (by (eapply avoids_weaken; [| exact Hav])).
    unfold bind at 1, lift at 1. rewrite Ed.
    unfold bind at 1, lift at 1.
    rewrite call_kw_avoids;
      [| by (eapply avoids_weaken; [| exact Hav]) | done].
    apply item_emits; [| done | done].
    apply avoids_app; [done |].
    by (eapply avoids_weaken; [| exact Hav]).
Qed.

Lemma draw_returns s kw b b' :
  draw s kw b = (inr tt, b') -> well_formed b ->
  exists ex,
    explicit_keywords s = inr ex
    /\ emitted b b' (shape_tag s) (_fix_attrs (ex ++ kw)) (shape_body s).
Proof.
  intros Hrun Hwf.
  destruct s as [cx cy r|x1 y1 x2 y2|x y w h|body x y|cx cy r alpha theta];
    simpl in *.
  - eexists. split; [reflexivity |]. by eapply via_item_returns.
  - eexists. split; [reflexivity |]. by eapply via_item_returns.
  - eexists. split; [reflexivity |]. by eapply via_item_returns.
  - eexists. split; [reflexivity |]. revert Hrun.
    unfold text, bind at 1, lift at 1.
    destruct (bind_kwargs _ kw) as [e|kwargs] eqn:E1; [done |].
    apply bind_kwargs_inr in E1 as ->.
    unfold bind at 1, lift at 1.
    destruct (call_kw _ kw) as [e|args] eqn:E2; [done |].
    apply call_kw_inr in E2 as ->.
    intros Hrun.
    pose proof (emit_text_returns _ _ _ _ _ Hrun) as Hopen.
    destruct (emit_text "text" (_fix_attrs ([("x", x); ("y", y)] ++ kw))
                body b Hwf Hopen) as (b2 & Hrun2 & Hem).
    rewrite Hrun2 in Hrun. by injection Hrun as <-.
  - revert Hrun. unfold circle_sector, bind at 1, lift at 1.
    destruct (bind_kwargs _ kw) as [e|kwargs] eqn:E1; [done |].
    apply bind_kwargs_inr in E1 as ->.
    unfold bind at 1, lift at 1.
    destruct (sector_d cx cy r alpha theta) as [e|d]; [done |].
    unfold bind at 1, lift at 1.
    destruct (call_kw _ kw) as [e|args] eqn:E2; [done |].
    apply call_kw_inr in E2 as ->.
    unfold item, bind at 1, lift at 1.
    destruct (bind_kwargs _ (_ ++ kw)) as [e|kwargs] eqn:E3; [done |].
    apply bind_kwargs_inr in E3 as ->.
    intros Hrun. eexists. split; [reflexivity |]. simpl.
    pose proof (emit_element_returns _ _ _ _ Hrun) as Hopen.
    destruct (emit_element "path" (_fix_attrs ([("d", VStr d)] ++ kw))
                b Hwf Hopen) as (b2 & Hrun2 & Hem).
    rewrite Hrun2 in Hrun. by injection Hrun as <-.
Qed.

(** *** Reachable builders *)

Lemma preserves_ret {A} (a : A) : preserves (ret a).
Proof. by intros b. Qed.

Lemma preserves_lift {A} (r : result A) : preserves (lift r).
Proof. by intros b. Qed.

Lemma preserves_bind {A B} (m : M A) (k : A -> M B) :
  preserves m -> (forall a, preserves (k a)) -> preserves (bind m k).
Proof.
  intros Hm Hk b Hwf. unfold bind. specialize (Hm b Hwf).
  destruct (m b) as [[e|a] b1]; [done |]. by apply Hk.
Qed.

Lemma well_formed_same_structure b b' :
  same_structure b b' -> well_formed b -> well_formed b'.
Proof.
  intros (He & _ & _ & _ & _ & _ & Hlen & _). unfold well_formed.
  by rewrite He, Hlen.
Qed.

Lemma preserves_flush : preserves TreeBuilder._flush.
Proof.
  intros b. apply well_formed_same_structure, flushed_structure.
Qed.

Lemma preserves_log c : preserves (modify (log c)).
Proof. by intros b. Qed.

Lemma preserves_raise {A} (e : exn) : preserves (@raise A e).
Proof. by intros b. Qed.

Lemma preserves_open_element t attrs : preserves (TreeBuilder.open_element t attrs).
Proof.
  intros b Hwf. destruct (can_open b) eqn:Hopen.
  - destruct (open_element_spec t attrs b Hwf Hopen)
      as (b1 & Hrun & He & _ & _ & _ & _ & Hlen & _).
    rewrite Hrun. unfold well_formed in *. simpl. rewrite He, Hlen.
    constructor; [lia |]. eapply Forall_impl; [exact Hwf |]. simpl. lia.
  - by rewrite open_element_refused.
Qed.

Lemma preserves_start t attrs : preserves (TreeBuilder.start t attrs).
Proof.
  unfold TreeBuilder.start.
  apply preserves_bind; [apply preserves_log |]. intros _.
  apply preserves_bind; [apply preserves_flush |]. intros _.
  apply preserves_open_element.
Qed.

Lemma preserves_pop : preserves TreeBuilder.pop.
Proof.
  intros b Hwf. unfold TreeBuilder.pop, well_formed in *.
  destruct (_elem b) as [|l rest] eqn:He; simpl; [by rewrite He |].
  by apply Forall_cons in Hwf as [_ Hrest].
Qed.

Lemma preserves_end t : preserves (TreeBuilder.end_ t).
Proof.
  unfold TreeBuilder.end_.
  apply preserves_bind; [apply preserves_log |]. intros _.
  apply preserves_bind; [apply preserves_flush |]. intros _.
  apply preserves_pop.
Qed.

Lemma preserves_data s : preserves (TreeBuilder.data s).
Proof.
  intros b Hwf. unfold TreeBuilder.data, modify. simpl.
  destruct (_data b); [| done]. by destruct (_last b).
Qed.

Lemma preserves_close : preserves TreeBuilder.close.
Proof. by intros b. Qed.

Lemma preserves_item t kw : preserves (item t kw).
Proof.
  unfold item.
  repeat first
    [ apply preserves_lift | apply preserves_start | apply preserves_end
    | apply preserves_ret
    | apply preserves_bind; [| intros ?; cbv beta] ].
Qed.

Lemma preserves_run op : preserves (run op).
Proof.
  destruct op as [t attrs|t|s| |t kw|s kw|kw| |x y kw|h|file enc decl];
    simpl; try destruct s;
    unfold draw, circle, line, rect, text, circle_sector, g, defs,
      text_group, write, _SVGGroup.__exit__,
      TreeBuilder.start_without_attrs;
    repeat first
      [ apply preserves_item
      | apply preserves_lift | apply preserves_start | apply preserves_end
      | apply preserves_data | apply preserves_close | apply preserves_ret
      | apply preserves_raise
      | match goal with
        | |- preserves (match ?x with _ => _ end) => destruct x
        end
      | by intros ?
      | apply preserves_bind; [| intros ?; cbv beta] ].
Qed.

Lemma init_well_formed width height kw now b0 b :
  __init__ width height kw now b0 = (inr tt, b) -> well_formed b.
Proof.
  unfold __init__, bind at 1, lift at 1.
  destruct (bind_kwargs _ kw) as [e|kwargs]; [done |].
  unfold bind at 1, modify at 1. unfold bind at 1, lift at 1.
  destruct (call_kw _ kwargs) as [e|args]; [done |].
  cbv zeta. set (attrs := match height with VNone => _ | _ => _ end).
  intros [= <-]. unfold well_formed. simpl. repeat constructor.
Qed.

(** In every builder a program can reach, the elements on the stack are
    allocated. *)
Lemma reachable_well_formed b : reachable b -> well_formed b.
Proof.
  induction 1 as [width height kw now b0 b Hnew | op b _ IH].
  - by eapply init_well_formed.
  - by apply preserves_run.
Qed.

Lemma frame_refl b : frame b b.
Proof. repeat split; done. Qed.

Lemma frame_trans b1 b2 b3 : frame b1 b2 -> frame b2 b3 -> frame b1 b3.
Proof.
  intros (Hl1 & Ht1 & Hr1) (Hl2 & Ht2 & Hr2). repeat split.
  - lia.
  - intros i Hi. rewrite Ht2 by lia. by apply Ht1.
  - intros r Hr. by apply Hr2, Hr1.
Qed.

Lemma framing_ret {A} (a : A) : framing (ret a).
Proof. intros b. apply frame_refl. Qed.

Lemma framing_lift {A} (r : result A) : framing (lift r).
Proof. intros b. apply frame_refl. Qed.

Lemma framing_bind {A B} (m : M A) (k : A -> M B) :
  framing m -> (forall a, framing (k a)) -> framing (bind m k).
Proof.
  intros Hm Hk b. unfold bind. specialize (Hm b).
  destruct (m b) as [[e|a] b1]; [done |].
  eapply frame_trans; [exact Hm | apply Hk].
Qed.

Lemma frame_same_structure b b' : same_structure b b' -> frame b b'.
Proof.
  intros (_ & _ & Hr & _ & _ & _ & Hlen & Hframe). repeat split.
  - lia.
  - intros i _. apply (Hframe i).
  - intros r. by rewrite Hr.
Qed.

Lemma framing_flush : framing TreeBuilder._flush.
Proof. intros b. apply frame_same_structure, flushed_structure. Qed.

Lemma framing_log c : framing (modify (log c)).
Proof. intros b. repeat split; done. Qed.

Lemma framing_data s : framing (TreeBuilder.data s).
Proof.
  intros b. unfold TreeBuilder.data, modify. simpl.
  destruct (_data b); [| by repeat split].
  destruct (_last b); by repeat split.
Qed.

Lemma framing_raise {A} (e : exn) : framing (@raise A e).
Proof. intros b. apply frame_refl. Qed.

Lemma framing_open_element t attrs : framing (TreeBuilder.open_element t attrs).
Proof.
  intros [h d st l r tl sv cs]. unfold TreeBuilder.open_element, frame. simpl.
  destruct st as [|p rest]; simpl.
  - destruct r; simpl; repeat split; try done;
      try (rewrite length_app; simpl; lia);
      intros i Hi; unfold deref; simpl; by rewrite lookup_total_app_l.
  - repeat split; try done.
    + rewrite length_alter, length_app. simpl. lia.
    + intros i Hi. unfold deref. simpl.
      rewrite !list_lookup_total_alt, list_lookup_alter.
      case_decide as E; [subst p |]; rewrite lookup_app_l by done;
        [| done]. by destruct (h !! i).
Qed.

Lemma framing_start t attrs : framing (TreeBuilder.start t attrs).
Proof.
  unfold TreeBuilder.start.
  apply framing_bind; [apply framing_log |]. intros _.
  apply framing_bind; [apply framing_flush |]. intros _.
  apply framing_open_element.
Qed.

Lemma framing_pop : framing TreeBuilder.pop.
Proof.
  intros b. unfold TreeBuilder.pop.
  destruct (_elem b) as [|l rest]; [apply frame_refl |].
  repeat split; done.
Qed.

Lemma framing_end t : framing (TreeBuilder.end_ t).
Proof.
  unfold TreeBuilder.end_.
  apply framing_bind; [apply framing_log |]. intros _.
  apply framing_bind; [apply framing_flush |]. intros _.
  apply framing_pop.
Qed.

Lemma framing_close : framing TreeBuilder.close.
Proof. intros b. by repeat split. Qed.

Lemma framing_run op : framing (run op).
Proof.
  destruct op as [t attrs|t|s| |t kw|s kw|kw| |x y kw|h|file enc decl];
    simpl; try destruct s;
    unfold draw, circle, line, rect, text, circle_sector, item, g, defs,
      text_group, write, _SVGGroup.__exit__,
      TreeBuilder.start_without_attrs;
    repeat first
      [ apply framing_lift | apply framing_start | apply framing_end
      | apply framing_data | apply framing_close | apply framing_ret
      | apply framing_raise
      | match goal with
        | |- framing (match ?x with _ => _ end) => destruct x
        end
      | (intros ?; apply frame_refl)
      | apply framing_bind; [| intros ?; cbv beta] ].
Qed.

(** Where [start] does not refuse, the new element is stored with the
    tag, whatever the builder. *)
Lemma start_tag t attrs b :
  can_open b = true ->
  length (heap b) < length (heap (TreeBuilder.start t attrs b).2)
  /\ e_tag (deref (TreeBuilder.start t attrs b).2 (length (heap b))) = Name t.
Proof.
  intros Hopen. rewrite start_run.
  destruct (flushed_structure (log (CStart t attrs) b))
    as (He & _ & Hr & _ & _ & _ & Hlen & _).
  simpl in He, Hr, Hlen. unfold can_open in Hopen.
  rewrite <- He, <- Hr, <- Hlen in *.
  destruct (flushed (log (CStart t attrs) b)) as [h d st l r tl sv cs].
  unfold TreeBuilder.open_element, deref. simpl in *.
  destruct st as [|p rest]; simpl.
  - destruct r; [done |]. simpl. rewrite length_app. simpl.
    split; [lia |]. by rewrite list_lookup_total_middle.
  - rewrite length_alter, length_app. simpl. split; [lia |].
    rewrite !list_lookup_total_alt, list_lookup_alter.
    case_decide as E; [subst p |]; by rewrite list_lookup_middle.
Qed.

(** The stack after [start]: as before when it refused, else with the
    new element, which carries the tag, on top. *)
Lemma start_stack t attrs b :
  let b' := (TreeBuilder.start t attrs b).2 in
  _elem b' = _elem b
  \/ (_elem b' = length (heap b) :: _elem b
      /\ length (heap b) < length (heap b')
      /\ e_tag (deref b' (length (heap b))) = Name t).
Proof.
  simpl. rewrite start_elem. destruct (can_open b) eqn:Hopen; [| by left].
  right. split; [done |]. by apply start_tag.
Qed.

(** The stack after [end]: as before, or without its top. *)
Lemma end_stack t b :
  _elem (TreeBuilder.end_ t b).2 = _elem b
  \/ exists x, _elem b = x :: _elem (TreeBuilder.end_ t b).2.
Proof.
  rewrite end_elem. destruct (_elem b) as [|x rest]; [by left |].
  right. by exists x.
Qed.

Lemma rooted_frame b b' :
  rooted b -> frame b b' ->
  (forall i, i ∈ _elem b' ->
     i ∈ _elem b
     \/ (i < length (heap b')
         /\ (e_tag (deref b' i) = Name "g"
             \/ e_tag (deref b' i) = Name "text"))) ->
  rooted b'.
Proof.
  intros (r & Hr & Hlt & Htag & Hst) (Hlen & Htags & Hroot) Hnew.
  exists r. split; [by apply Hroot |]. split; [lia |].
  split; [by rewrite Htags |].
  intros i Hi. destruct (Hnew i Hi) as [Hold | [Hi' Hgt]].
  - destruct (Hst i Hold) as [Hilt Hcase]. split; [lia |].
    by rewrite Htags.
  - split; [done |]. by right.
Qed.

Lemma bind_ret_state {A B} (m : M A) (f : A -> B) b :
  (bind m (fun a => ret (f a)) b).2 = (m b).2.
Proof. unfold bind, ret. by destruct (m b) as [[e|a] b1]. Qed.

Lemma lift_bind_state {A B} (r : result A) (k : A -> M B) b :
  (bind (lift r) k b).2 = match r with inl _ => b | inr a => (k a b).2 end.
Proof. unfold bind, lift. by destruct r. Qed.

Lemma rooted_run op b : own op = true -> rooted b -> rooted (run op b).2.
Proof.
  intros Hown Hb. apply (rooted_frame b); [done | apply framing_run |].
  destruct op as [t attrs|t|s| |t kw|s kw|kw| |x y kw|h|file enc decl];
    try done; simpl; intros i Hi.
  - left. by rewrite item_stack in Hi.
  - left. by rewrite draw_stack in Hi.
  - rewrite bind_ret_state in Hi |- *. unfold g in *.
    rewrite lift_bind_state in Hi |- *.
    destruct (bind_kwargs _ kw) as [e|kwargs]; [by left |].
    rewrite (bind_ret_state _ (fun _ => _SVGGroup.__init__ "g")) in Hi |- *.
    pose proof (framing_start "g" (_fix_attrs kwargs) b) as (Hlen & _).
    destruct (start_stack "g" (_fix_attrs kwargs) b) as [He | (He & Hlt & Htag)];
      rewrite He in Hi; [by left |].
    apply elem_of_cons in Hi as [-> | Hi]; [right | by left].
    split; [lia | by left].
  - by left.
  - rewrite bind_ret_state in Hi |- *. unfold text_group in *.
    rewrite lift_bind_state in Hi |- *.
    destruct (bind_kwargs _ kw) as [e|kwargs]; [by left |].
    rewrite lift_bind_state in Hi |- *.
    destruct (call_kw _ kwargs) as [e|args]; [by left |].
    rewrite (bind_ret_state _ (fun _ => _SVGGroup.__init__ "text")) in Hi |- *.
    destruct (start_stack "text" (_fix_attrs args) b) as [He | (He & Hlt & Htag)];
      rewrite He in Hi; [by left |].
    apply elem_of_cons in Hi as [-> | Hi]; [right | by left].
    split; [lia | by right].
  - left. unfold _SVGGroup.__exit__ in Hi.
    rewrite (bind_ret_state _ (fun _ => tt)) in Hi.
    destruct (end_stack (_SVGGroup.tag h) b) as [He | [x He]];
      [by rewrite He in Hi | rewrite He; by right].
  - left. rewrite bind_ret_state in Hi. unfold write in Hi.
    assert (i ∈ _elem (TreeBuilder.end_ "svg" b).2) as Hi'.
    { revert Hi. unfold bind at 1.
      destruct (TreeBuilder.end_ "svg" b) as [[e|n] b1]; [done |].
      simpl. unfold bind, TreeBuilder.close. simpl.
      by destruct (_root b1). }
    destruct (end_stack "svg" b) as [He | [x He]];
      [by rewrite He in Hi' | rewrite He; by right].
Qed.

Lemma init_rooted width height kw now b0 b :
  __init__ width height kw now b0 = (inr tt, b) -> rooted b.
Proof.
  unfold __init__, bind at 1, lift at 1.
  destruct (bind_kwargs _ kw) as [e|kwargs]; [done |].
  unfold bind at 1, modify at 1. unfold bind at 1, lift at 1.
  destruct (call_kw _ kwargs) as [e|args]; [done |].
  cbv zeta. set (attrs := match height with VNone => _ | _ => _ end).
  intros [= <-]. exists 0. simpl.
  split; [done |]. split; [lia |]. split; [done |].
  intros i Hi. apply list_elem_of_singleton in Hi as ->.
  split; [lia | by left].
Qed.

(** Reached with the class's own methods, a builder has the [svg]
    element as its root, and only it, groups and texts open. *)
Lemma reachable_own_rooted b : reachable_own b -> rooted b.
Proof.
  induction 1 as [width height kw now b0 b Hnew | op b Hown _ IH].
  - by eapply init_rooted.
  - by apply rooted_run.
Qed.

(** *** C7: a shape is opened and closed at once *)

(** With nothing open on a builder that has its root, an open-and-close
    raises at [start]: nothing is stored and nothing is opened. *)
Lemma emit_element_refused t attrs b :
  can_open b = false ->
  exists b',
    (_ <- TreeBuilder.start t attrs ;; _ <- TreeBuilder.end_ t ;; ret tt) b
    = (inl (ParseError "multiple elements on top level"), b')
    /\ heap b' = heap (flushed b).
Proof.
  intros Hopen. unfold bind at 1. rewrite start_refused by done.
  eexists. split; [reflexivity |]. simpl. unfold flushed, TreeBuilder._flush.
  simpl. destruct (_data b); [done |]. by destruct (_last b).
Qed.

Lemma emit_text_refused t attrs body b :
  can_open b = false ->
  exists b',
    (_ <- TreeBuilder.start t attrs ;;
     TreeBuilder.data body ;;;
     _ <- TreeBuilder.end_ t ;; ret tt) b
    = (inl (ParseError "multiple elements on top level"), b')
    /\ heap b' = heap (flushed b).
Proof.
  intros Hopen. unfold bind at 1. rewrite start_refused by done.
  eexists. split; [reflexivity |]. simpl. unfold flushed, TreeBuilder._flush.
  simpl. destruct (_data b); [done |]. by destruct (_last b).
Qed.

Lemma length_heap_flushed b : length (heap (flushed b)) = length (heap b).
Proof. by destruct (flushed_structure b) as (_ & _ & _ & _ & _ & _ & Hlen & _). Qed.

Lemma lift_bind_refused {A} (r : result A) (k : A -> M unit) b :
  (forall a, exists e b',
     k a b = (inl e, b') /\ length (heap b') = length (heap b)) ->
  exists e b',
    (a <- lift r ;; k a) b = (inl e, b')
    /\ length (heap b') = length (heap b).
Proof.
  intros H. unfold bind, lift. destruct r; [by do 2 eexists | apply H].
Qed.

Lemma draw_refused s kw b :
  can_open b = false ->
  exists e b',
    draw s kw b = (inl e, b') /\ length (heap b') = length (heap b).
Proof.
  intros Hopen.
  destruct s as [cx cy r|x1 y1 x2 y2|x y w h|body x y|cx cy r alpha theta];
    simpl;
    unfold circle, line, rect, text, circle_sector, item;
    repeat (apply lift_bind_refused; intros ?);
    match goal with
    | |- context [TreeBuilder.data ?body] =>
        destruct (emit_text_refused "text" (_fix_attrs a0) body b Hopen)
          as (b' & Hrun & Hh)
    | |- context [TreeBuilder.start ?t ?attrs] =>
        destruct (emit_element_refused t attrs b Hopen) as (b' & Hrun & Hh)
    end;
    do 2 eexists; (split; [exact Hrun |]);
    by rewrite Hh, length_heap_flushed.
Qed.

(** C7.  Whatever the builder and the call, a shape operation leaves the
    stack of open elements as it found it, also when it raises.  When the
    call returns on a builder whose open elements are allocated (as they
    are in every reachable builder, [reachable_well_formed]), one
    element with the shape's tag was started and ended (with the character
    data in between for [text]), it is closed, and it is the last child of
    the innermost open element.  The call does return when an element is
    open, no keyword uses a reserved name and, for the sector, the path
    data can be computed.  With nothing open on a builder that has its
    root, as after [write], the call raises and no element is stored. *)
Theorem shape_opens_then_closes (s : shape) (kw : dict value) (b : builder) :
  _elem (draw s kw b).2 = _elem b
  /\ (forall b', draw s kw b = (inr tt, b') -> well_formed b ->
        exists ex,
          explicit_keywords s = inr ex
          /\ emitted b b' (shape_tag s) (_fix_attrs (ex ++ kw))
                     (shape_body s))
  /\ (forall ex, _elem b <> [] -> well_formed b -> NoDup (keys kw) ->
        avoids (reserved_names s) kw = true ->
        explicit_keywords s = inr ex ->
        exists b', draw s kw b = (inr tt, b'))
  /\ (forall r, _elem b = [] -> _root b = Some r ->
        exists e b',
          draw s kw b = (inl e, b')
          /\ length (heap b') = length (heap b)).
Proof.
  split; [apply draw_stack |].
  split; [intros b'; apply draw_returns |].
  split.
  - intros ex Hopen Hwf Hnd Hav Hex. apply open_can_open in Hopen.
    destruct (draw_emits s kw b ex Hwf Hopen Hnd Hav Hex) as (b' & Hrun & _).
    by exists b'.
  - intros r He Hr. apply draw_refused. unfold can_open. by rewrite He, Hr.
Qed.

(** *** C2: an extra named like a geometry attribute *)

Lemma replace_underscores_fixed k :
  no_hyphen (replace_underscores k) = true -> replace_underscores k = k.
Proof.
  unfold no_hyphen. induction k as [|c k IH]; simpl; [done |].
  intros H. apply andb_true_iff in H as [Hc Hk].
  rewrite IH by done. f_equal.
  destruct (Ascii.eqb_spec c "_") as [->|?]; [done | done].
Qed.

Lemma lift_raises {A B} (r : result A) (k : A -> M B) b :
  (forall a, r = inr a -> exists e, k a b = (inl e, b)) ->
  exists e, (a <- lift r ;; k a) b = (inl e, b).
Proof.
  intros H. unfold bind, lift. destruct r as [e|a]; [by exists e |].
  by apply H.
Qed.

Lemma bind_kwargs_raises {B} bound kw (k : dict value -> M B) b key :
  key ∈ keys kw -> key ∈ bound ->
  exists e, (kwargs <- lift (bind_kwargs bound kw) ;; k kwargs) b = (inl e, b).
Proof.
  intros Hin Hb. destruct (bind_kwargs_collision bound kw key Hin Hb) as [k' E].
  unfold bind, lift. rewrite E. by eexists.
Qed.

Lemma call_kw_raises {B} bound ex kw (k : dict value -> M B) b key :
  key ∈ keys kw -> key ∈ keys ex ->
  exists e, (kwargs <- lift (bind_kwargs bound kw) ;;
             args <- lift (call_kw ex kwargs) ;; k args) b = (inl e, b).
Proof.
  intros Hin Hex. apply lift_raises. intros kwargs E.
  apply bind_kwargs_inr in E as ->.
  destruct (call_kw_collision ex kw key Hin Hex) as [k' E].
  unfold bind, lift. rewrite E. by eexists.
Qed.

(** C2, as the code has it.  When a keyword argument of a shape call has
    the post-normalisation name of one of the shape's geometry attributes,
    the call raises and the builder is unchanged: no element is emitted,
    and neither value reaches an attribute. *)
Theorem colliding_extra_raises (s : shape) (kw : dict value) (b : builder)
    (k : string) :
  k ∈ keys kw ->
  replace_underscores k ∈ geometry_names s ->
  exists e, draw s kw b = (inl e, b).
Proof.
  intros Hin Hgeo.
  assert (replace_underscores k = k) as Hk.
  { apply replace_underscores_fixed.
    destruct s; simpl in Hgeo; split_members Hgeo; by rewrite Hgeo. }
  rewrite Hk in Hgeo. clear Hk.
  destruct s as [cx cy r|x1 y1 x2 y2|x y w h|body x y|cx cy r alpha theta];
    simpl in Hgeo; split_members Hgeo; subst k; simpl.
  all: try (eapply bind_kwargs_raises; [exact Hin | member]).
  - eapply call_kw_raises; [exact Hin | member].
  - eapply call_kw_raises; [exact Hin | member].
  - unfold circle_sector. apply lift_raises. intros kwargs E.
    apply bind_kwargs_inr in E as ->.
    apply lift_raises. intros d _.
    destruct (call_kw_collision [("d", VStr d)] kw "d" Hin) as [k' E];
      [member |].
    unfold bind, lift. rewrite E. by eexists.
Qed.

(** *** C10 and C6: construction *)

Lemma fix_attrs_fold_get n (kwargs : dict value) (acc : dict string) :
  (forall k, k ∈ keys kwargs -> replace_underscores k <> n) ->
  dict_get n
    (fold_left
       (fun attrs kv => dict_set (replace_underscores kv.1) (py_str kv.2) attrs)
       kwargs acc)
  = dict_get n acc.
Proof.
  revert acc. induction kwargs as [|[k v] kwargs IH]; simpl; intros acc H;
    [done |].
  rewrite IH.
  - apply dict_get_set_ne. intros Heq. apply (H k); [| done].
    apply elem_of_cons. by left.
  - intros k' Hk'. apply H. apply elem_of_cons. by right.
Qed.

Lemma avoids_not_in names kw k :
  avoids names kw = true -> k ∈ keys kw -> k ∉ names.
Proof.
  unfold avoids. rewrite forallb_forall. intros H Hin.
  specialize (H k (proj1 (list_elem_of_In _ _) Hin)).
  by apply negb_true_iff, bool_decide_eq_false in H.
Qed.

(** A keyword that avoids a name without hyphen does not normalise to it. *)
Lemma avoided_after_normalisation names kw k n :
  avoids names kw = true -> k ∈ keys kw -> n ∈ names ->
  no_hyphen n = true -> replace_underscores k <> n.
Proof.
  intros Hav Hin Hn Hh Heq.
  assert (replace_underscores k = k) as Hk.
  { apply replace_underscores_fixed. by rewrite Heq. }
  rewrite Hk in Heq. subst n.
  by apply (avoids_not_in names kw k).
Qed.

(** C10.  A keyword argument named [version] or [xmlns] makes the
    constructor raise a [TypeError] for a duplicate keyword.  With
    keywords that avoid the constructor's parameters and these two names
    the constructor returns, the root has the fixed [xmlns] and [version],
    and a [width] or [height] other than [None] appears on it with the
    [str] of the value given. *)
Theorem init_fixed_and_explicit_attributes (width height : value)
    (kw : dict value) (now : string) (b : builder) :
  ("version" ∈ keys kw \/ "xmlns" ∈ keys kw ->
     exists k b', __init__ width height kw now b
                  = (inl (TypeError (MultipleValues k)), b'))
  /\ (NoDup (keys kw) ->
      avoids ["self"; "width"; "height"; "xmlns"; "version"] kw = true ->
      exists b' root,
        __init__ width height kw now b = (inr tt, b')
        /\ svg b' = Some root /\ _root b' = Some root /\ _elem b' = [root]
        /\ e_tag (deref b' root) = Name "svg"
        /\ dict_get "xmlns" (e_attrib (deref b' root))
           = Some "http://www.w3.org/2000/svg"
        /\ dict_get "version" (e_attrib (deref b' root)) = Some "1.1"
        /\ (width <> VNone ->
            dict_get "width" (e_attrib (deref b' root)) = Some (py_str width))
        /\ (height <> VNone ->
            dict_get "height" (e_attrib (deref b' root))
            = Some (py_str height))).
Proof.
  split.
  - intros Hin. unfold __init__, bind at 1, lift at 1.
    destruct (bind_kwargs_result ["self"; "width"; "height"] kw)
      as [-> | [k' ->]]; [| by do 2 eexists].
    unfold bind at 1, modify at 1. unfold bind at 1, lift at 1.
    assert (exists k, k ∈ keys kw
                      /\ k ∈ keys [("xmlns", VStr "http://www.w3.org/2000/svg");
                                   ("version", VStr "1.1")])
      as (k & Hk & Hex).
    { destruct Hin; [exists "version" | exists "xmlns"];
        (split; [done | member]). }
    destruct (call_kw_collision _ kw k Hk Hex) as [k' ->]. by do 2 eexists.
  - intros Hnd Hav. unfold __init__, bind at 1, lift at 1.
    rewrite bind_kwargs_avoids by (by (eapply avoids_weaken; [| exact Hav])).
    unfold bind at 1, modify at 1. unfold bind at 1, lift at 1.
    rewrite call_kw_avoids;
      [| by (eapply avoids_weaken; [| exact Hav]) | done].
    set (base := _fix_attrs _).
    assert (dict_get "xmlns" base = Some "http://www.w3.org/2000/svg"
            /\ dict_get "version" base = Some "1.1") as [Hx Hv].
    { unfold base, _fix_attrs. rewrite fold_left_app.
      split; (rewrite fix_attrs_fold_get; [reflexivity |]);
        intros k Hk;
        (eapply avoided_after_normalisation; [exact Hav | exact Hk | member | done]). }
    set (a1 := match width with VNone => base | _ => _ end).
    set (a2 := match height with VNone => a1 | _ => _ end).
    assert (dict_get "xmlns" a2 = Some "http://www.w3.org/2000/svg"
            /\ dict_get "version" a2 = Some "1.1"
            /\ (width <> VNone -> dict_get "width" a2 = Some (py_str width))
            /\ (height <> VNone -> dict_get "height" a2 = Some (py_str height)))
      as (Hx2 & Hv2 & Hw2 & Hh2).
    { unfold a2, a1.
      destruct width, height;
        rewrite ?dict_get_set_eq, ?dict_get_set_ne, ?dict_get_set_eq by done;
        repeat split; try done. }
    clearbody a2. clear a1 base Hx Hv.
    exists (Builder [Element (Name "svg") a2 None None [1];
                     Element CommentTag []
                       (Some ("vbl-stats svg generated at " +:+ now)) None []]
                    [] [0] (Some 0) (Some 0) false (Some 0) [CStart "svg" a2]).
    exists 0. split; [reflexivity |]. simpl. repeat split; done.
Qed.

(** C6.  [SVGBuilder(width=100, height=50)] followed at once by [write]
    hands the serialiser the root element [svg] with the four attributes,
    no text, and a single child: the comment with the generation stamp. *)
Theorem new_document_root (now file enc : string) (decl : bool) (b : builder) :
  exists b',
    (__init__ (VInt 100) (VInt 50) [] now ;;; write file enc decl) b
    = (inr (TreeWrite 0 file enc decl), b')
    /\ _root b' = Some 0
    /\ _elem b' = []
    /\ heap b'
       = [Element (Name "svg")
            [("xmlns", "http://www.w3.org/2000/svg"); ("version", "1.1");
             ("width", "100"); ("height", "50")]
            None None [1];
          Element CommentTag []
            (Some ("vbl-stats svg generated at " +:+ now)) None []].
Proof.
  eexists. split; [vm_compute; reflexivity |].
  vm_compute. repeat split.
Qed.

(** *** C4 and C5: closing *)

(** [end] never looks at its tag: its outcome is decided by whether an
    element is open, and it closes the innermost open element. *)
Lemma end_outcome t b :
  match _elem b with
  | [] =>
      exists b', TreeBuilder.end_ t b
                 = (inl (IndexError "pop from empty stack"), b')
                 /\ _elem b' = []
                 /\ calls b' = calls b ++ [CEnd t]
                 /\ heap b' = heap (flushed b)
  | l :: rest =>
      exists b', TreeBuilder.end_ t b = (inr l, b')
                 /\ _elem b' = rest
                 /\ calls b' = calls b ++ [CEnd t]
                 /\ _root b' = _root b
                 /\ _last b' = Some l
                 /\ heap b' = heap (flushed b)
  end.
Proof.
  rewrite end_run.
  pose proof (flushed_structure (log (CEnd t) b))
    as (He & Hl & Hr & Ht & Hsv & Hc & Hlen & Hframe).
  simpl in He, Hr, Hc.
  assert (heap (flushed (log (CEnd t) b)) = heap (flushed b)) as Hh.
  { unfold flushed, TreeBuilder._flush. simpl.
    destruct (_data b); [done |]. by destruct (_last b). }
  set (b0 := flushed (log (CEnd t) b)) in *.
  unfold TreeBuilder.pop. rewrite He.
  destruct (_elem b) as [|l rest]; eexists;
    (split; [reflexivity |]); simpl; repeat split; done.
Qed.

(** C4.  [end(tag)] does not compare [tag] with anything.  With no
    element open it raises [IndexError('pop from empty stack')], which
    names no tag.  With an element open it returns: it closes the
    innermost open element, whatever its tag, and returns that element;
    the elements that were open around it stay open.  Releasing a group
    handle is that [end] for the handle's tag, so a release, the second
    of a handle as much as the first, returns exactly when an element is
    open. *)
Theorem end_ignores_tag (t : string) (b : builder) :
  (_elem b = [] ->
     exists b', TreeBuilder.end_ t b
                = (inl (IndexError "pop from empty stack"), b')
                /\ _elem b' = [] /\ heap b' = heap (flushed b))
  /\ (forall l rest, _elem b = l :: rest ->
        exists b', TreeBuilder.end_ t b = (inr l, b')
                   /\ _elem b' = rest /\ _last b' = Some l
                   /\ _root b' = _root b
                   /\ heap b' = heap (flushed b)
                   /\ calls b' = calls b ++ [CEnd t])
  /\ (forall h, (_SVGGroup.__exit__ h b).1 = inr tt <-> _elem b <> []).
Proof.
  split; [| split].
  - intros He. pose proof (end_outcome t b) as Hout. rewrite He in Hout.
    destruct Hout as (b' & Hrun & He' & _ & Hh). by exists b'.
  - intros l rest He. pose proof (end_outcome t b) as Hout.
    rewrite He in Hout.
    destruct Hout as (b' & Hrun & He' & Hc & Hr & Hl & Hh). by exists b'.
  - intros h. pose proof (end_outcome (_SVGGroup.tag h) b) as Hout.
    unfold _SVGGroup.__exit__, bind.
    destruct (_elem b) as [|l rest];
      destruct Hout as (b' & -> & _); simpl; by split.
Qed.

(** What [write] does when an element is open and a root is set. *)
Lemma write_run file enc decl b x rest r :
  _elem b = x :: rest -> _root b = Some r ->
  exists b',
    write file enc decl b = (inr (TreeWrite r file enc decl), b')
    /\ _elem b' = rest /\ _root b' = Some r /\ _last b' = Some x
    /\ heap b' = heap (flushed b)
    /\ calls b' = calls b ++ [CEnd "svg"; CClose].
Proof.
  intros He Hr. pose proof (end_outcome "svg" b) as Hout.
  rewrite He in Hout.
  destruct Hout as (b1 & Hrun & He1 & Hc1 & Hr1 & Hl1 & Hh1).
  unfold write, bind at 1. rewrite Hrun.
  unfold bind at 1, TreeBuilder.close. simpl. rewrite Hr1, Hr. simpl.
  eexists. split; [reflexivity |]. simpl.
  rewrite Hc1, <- app_assoc. simpl. repeat split; congruence.
Qed.

(** C5.  [write] ends the innermost open element, whichever it is, and
    then calls the serialiser with the root, the destination, the
    encoding and the declaration flag it was given: with the [svg] root
    the only open element, that closes the root and leaves nothing open.
    It checks nothing about what is open: with further elements open it
    returns and serialises all the same, and the elements around the
    innermost stay open.  It raises only when no element is open, an
    [IndexError], and then the serialiser is not called.  In a builder
    reached with the class's own methods the root is set and is the [svg]
    element, so [write] returns there whenever an element is open. *)
Theorem write_ends_innermost (file enc : string) (decl : bool)
    (b : builder) :
  (forall x rest r, _elem b = x :: rest -> _root b = Some r ->
     exists b',
       write file enc decl b = (inr (TreeWrite r file enc decl), b')
       /\ _elem b' = rest /\ _root b' = Some r
       /\ heap b' = heap (flushed b)
       /\ calls b' = calls b ++ [CEnd "svg"; CClose])
  /\ (_elem b = [] ->
        exists b',
          write file enc decl b
          = (inl (IndexError "pop from empty stack"), b')
          /\ calls b' = calls b ++ [CEnd "svg"])
  /\ (reachable_own b ->
        exists r,
          _root b = Some r /\ e_tag (deref b r) = Name "svg"
          /\ ((write file enc decl b).1 = inr (TreeWrite r file enc decl)
              <-> _elem b <> [])).
Proof.
  split; [| split].
  - intros x rest r He Hr.
    destruct (write_run file enc decl b x rest r He Hr)
      as (b' & Hrun & He' & Hr' & _ & Hh & Hc).
    by exists b'.
  - intros He. pose proof (end_outcome "svg" b) as Hout.
    rewrite He in Hout. destruct Hout as (b1 & Hrun & _ & Hc & _).
    unfold write, bind at 1. rewrite Hrun. by eexists.
  - intros Hreach.
    destruct (reachable_own_rooted b Hreach) as (r & Hr & _ & Htag & _).
    exists r. split; [done |]. split; [done |].
    destruct (_elem b) as [|x rest] eqn:He.
    + pose proof (end_outcome "svg" b) as Hout.
      rewrite He in Hout. destruct Hout as (b1 & Hrun & _).
      unfold write, bind at 1. rewrite Hrun. simpl. by split.
    + destruct (write_run file enc decl b x rest r He Hr) as (b' & -> & _).
      simpl. by split.
Qed.

(** *** C8: the scope of a group handle *)

Lemma end_calls t b : calls (TreeBuilder.end_ t b).2 = calls b ++ [CEnd t].
Proof.
  pose proof (end_outcome t b) as Hout.
  destruct (_elem b); by destruct Hout as (b' & -> & _ & Hc & _).
Qed.

Lemma start_pushes t attrs b :
  can_open b = true ->
  exists b', TreeBuilder.start t attrs b = (inr (length (heap b)), b')
             /\ _elem b' = length (heap b) :: _elem b.
Proof.
  intros Hopen.
  pose proof (start_returns t attrs b) as Hret.
  pose proof (start_elem t attrs b) as Hel.
  rewrite Hopen in Hret, Hel.
  destruct (TreeBuilder.start t attrs b) as [o b']. simpl in *. subst o.
  by exists b'.
Qed.

(** What leaving the scope of a handle does to the builder: one [end]
    with the handle's tag, on the builder the body left. *)
Lemma with_state {A} (h : _SVGGroup.t) (body : _SVGGroup.t -> M A) b :
  (with_ h body b).2 = (TreeBuilder.end_ (_SVGGroup.tag h) (body h b).2).2.
Proof.
  unfold with_, _SVGGroup.__enter__, ret.
  destruct (body h b) as [outcome b2]. simpl.
  unfold _SVGGroup.__exit__, bind, ret.
  by destruct (TreeBuilder.end_ (_SVGGroup.tag h) b2) as [[e|n] b3].
Qed.

(** C8.  [g] and [text_group] return a handle bound to ['g'] and to
    ['text'], and do return one when an element is open and no keyword
    uses a parameter's name; [defs] returns no handle, it raises before
    it opens anything, whatever the builder.  Leaving the scope of any
    handle, one for ['defs'] included, whether the body returned (early
    or not) or raised, leaves the builder as exactly one [end] with the
    handle's tag leaves the builder the body ended in: the innermost
    element then open is closed and no other, and the history gains that
    one call after the body's own.  If an element was open then, the
    outcome of the body stands, its exception included; if none was, the
    [IndexError] of [end] replaces it. *)
Theorem scope_exit_ends_once :
  (forall kw b h b', g kw b = (inr h, b') -> _SVGGroup.tag h = "g")
  /\ (forall x y kw b h b',
        text_group x y kw b = (inr h, b') -> _SVGGroup.tag h = "text")
  /\ (forall b, defs b = (inl (TypeError (MissingArgument "attrs")), b))
  /\ (forall kw b, _elem b <> [] -> avoids ["self"] kw = true ->
        exists h b', g kw b = (inr h, b')
                     /\ _elem b' = length (heap b) :: _elem b)
  /\ (forall x y kw b, _elem b <> [] -> NoDup (keys kw) ->
        avoids ["self"; "x"; "y"] kw = true ->
        exists h b', text_group x y kw b = (inr h, b')
                     /\ _elem b' = length (heap b) :: _elem b)
  /\ (forall A (h : _SVGGroup.t) (body : _SVGGroup.t -> M A) b,
        (with_ h body b).2
        = (TreeBuilder.end_ (_SVGGroup.tag h) (body h b).2).2
        /\ _elem (with_ h body b).2 = tail (_elem (body h b).2)
        /\ calls (with_ h body b).2
           = calls (body h b).2 ++ [CEnd (_SVGGroup.tag h)]
        /\ (_elem (body h b).2 <> [] ->
            (with_ h body b).1 = (body h b).1)
        /\ (_elem (body h b).2 = [] ->
            (with_ h body b).1 = inl (IndexError "pop from empty stack"))).
Proof.
  split; [| split; [| split; [| split; [| split]]]].
  - intros kw b h b'. unfold g, bind at 1, lift at 1.
    destruct (bind_kwargs _ kw); [done |]. unfold bind, ret.
    destruct (TreeBuilder.start _ _ b) as [[e|n] b1]; [done |].
    by intros [= <- _].
  - intros x y kw b h b'. unfold text_group, bind at 1, lift at 1.
    destruct (bind_kwargs _ kw); [done |]. unfold bind at 1, lift at 1.
    destruct (call_kw _ _); [done |]. unfold bind, ret.
    destruct (TreeBuilder.start _ _ b) as [[e|n] b1]; [done |].
    by intros [= <- _].
  - done.
  - intros kw b Hopen Hav. unfold g, bind at 1, lift at 1.
    rewrite bind_kwargs_avoids by done.
    destruct (start_pushes "g" (_fix_attrs kw) b (open_can_open b Hopen))
      as (b' & Hrun & He).
    unfold bind, ret. rewrite Hrun. by do 2 eexists.
  - intros x y kw b Hopen Hnd Hav. unfold text_group, bind at 1, lift at 1.
    rewrite bind_kwargs_avoids by done. unfold bind at 1, lift at 1.
    rewrite call_kw_avoids;
      [| by (eapply avoids_weaken; [| exact Hav]) | done].
    destruct (start_pushes "text" (_fix_attrs ([("x", x); ("y", y)] ++ kw))
                b (open_can_open b Hopen)) as (b' & Hrun & He).
    unfold bind, ret. rewrite Hrun. by do 2 eexists.
  - intros A h body b.
    split; [apply with_state |].
    split; [by rewrite with_state, end_elem |].
    split; [by rewrite with_state, end_calls |].
    unfold with_, _SVGGroup.__enter__, ret.
    destruct (body h b) as [outcome b2]. simpl.
    pose proof (end_outcome (_SVGGroup.tag h) b2) as Hout.
    unfold _SVGGroup.__exit__, bind, ret.
    destruct (_elem b2) as [|l rest];
      destruct Hout as (b3 & -> & _); by split.
Qed.

(** *** C1 and C9: the path of a sector *)

Lemma append_assoc (a b c : string) : (a +:+ b) +:+ c = a +:+ (b +:+ c).
Proof.
  induction a as [|x a IH]; [done |].
  change (String x ((a +:+ b) +:+ c) = String x (a +:+ (b +:+ c))).
  by rewrite IH.
Qed.

Lemma py_add_float a x y :
  as_float a = inr x -> py_add a (VFloat y) = inr (VFloat (SFadd prec emax x y)).
Proof.
  destruct a; simpl; try done; intros H; [by rewrite H | by injection H as ->].
Qed.

Lemma py_mul_float_spec a x c :
  as_float a = inr x -> py_mul_float a c = inr (VFloat (SFmul prec emax x c)).
Proof. unfold py_mul_float. by intros ->. Qed.

Lemma math_cos_spec a x :
  as_float a = inr x -> is_infinite x = false -> math_cos a = inr (libm_cos x).
Proof. unfold math_cos. intros -> H. simpl. by destruct x. Qed.

Lemma math_sin_spec a x :
  as_float a = inr x -> is_infinite x = false -> math_sin a = inr (libm_sin x).
Proof. unfold math_sin. intros -> H. simpl. by destruct x. Qed.

(** The two flags are always computed for an int or a float. *)
Lemma flags_spec theta :
  is_number theta = true ->
  rbind (py_abs theta) (fun a => py_gt a (VFloat pi)) = inr (exceeds_pi theta)
  /\ py_gt theta (VInt 0) = inr (is_positive theta).
Proof.
  unfold exceeds_pi, is_positive.
  destruct theta as [|z|f|s]; simpl; try done; intros _; split;
    repeat case_match; congruence.
Qed.

Lemma py_add_number alpha theta x s :
  as_float alpha = inr x -> py_add alpha theta = inr s ->
  is_number theta = true.
Proof.
  intros Ha Hadd.
  destruct alpha as [|a|a|a], theta as [|t|t|t]; simpl in *;
    rewrite ?Ha in Hadd; simpl in Hadd; done.
Qed.

Lemma sector_args_spec cx cy r alpha theta fcx fcy fr fa s fs :
  as_float cx = inr fcx -> as_float cy = inr fcy -> as_float r = inr fr ->
  as_float alpha = inr fa -> is_infinite fa = false ->
  py_add alpha theta = inr s -> as_float s = inr fs ->
  is_infinite fs = false ->
  sector_args cx cy r alpha theta
  = inr [cx; cy;
         VFloat (SFadd prec emax fcx (SFmul prec emax fr (libm_cos fa)));
         VFloat (SFadd prec emax fcy (SFmul prec emax fr (libm_sin fa)));
         r; r;
         VInt (if exceeds_pi theta then 1 else 0);
         VInt (if is_positive theta then 1 else 0);
         VFloat (SFadd prec emax fcx (SFmul prec emax fr (libm_cos fs)));
         VFloat (SFadd prec emax fcy (SFmul prec emax fr (libm_sin fs)))].
Proof.
  intros Hcx Hcy Hr Ha Hfa Hs Hfs Hfs'.
  pose proof (py_add_number alpha theta fa s Ha Hs) as Ht.
  destruct (flags_spec theta Ht) as [Hlarge Hsweep].
  unfold sector_args.
  rewrite (math_cos_spec alpha fa) by done. cbn [rbind].
  rewrite (py_mul_float_spec r fr) by done. cbn [rbind].
  rewrite (py_add_float cx fcx) by done. cbn [rbind].
  rewrite (math_sin_spec alpha fa) by done. cbn [rbind].
  rewrite (py_mul_float_spec r fr) by done. cbn [rbind].
  rewrite (py_add_float cy fcy) by done. cbn [rbind].
  unfold rbind at 1 in Hlarge.
  destruct (py_abs theta) as [e|a]; [done |]. cbn [rbind].
  rewrite Hlarge. cbn [rbind]. rewrite Hsweep. cbn [rbind].
  rewrite Hs. cbn [rbind].
  rewrite (math_cos_spec s fs) by done. cbn [rbind].
  rewrite (py_mul_float_spec r fr) by done. cbn [rbind].
  rewrite (py_add_float cx fcx) by done. cbn [rbind].
  rewrite (math_sin_spec s fs) by done. cbn [rbind].
  rewrite (py_mul_float_spec r fr) by done. cbn [rbind].
  rewrite (py_add_float cy fcy) by done. cbn [rbind].
  reflexivity.
Qed.

(** [format] one step at a time. *)
Lemma format_literal c rest args :
  Ascii.eqb c "%" = false ->
  format (String c rest) args
  = rbind (format rest args) (fun r => inr (String c r)).
Proof. intros H. cbn [format]. by rewrite H. Qed.

Lemma format_percent_f rest a args x :
  as_float a = inr x ->
  format (String "%" (String "f" rest)) (a :: args)
  = rbind (format rest args) (fun r => inr (format_float x +:+ r)).
Proof.
  intros H. cbn [format Ascii.eqb Bool.eqb]. unfold convert, percent_f.
  cbn [Ascii.eqb Bool.eqb]. by rewrite H.
Qed.

Lemma format_percent_d rest z args :
  format (String "%" (String "d" rest)) (VInt z :: args)
  = rbind (format rest args) (fun r => inr (decimal z +:+ r)).
Proof. reflexivity. Qed.

(** The path data, for numbers that convert to floats and angles that are
    not infinite. *)
Lemma sector_d_spec cx cy r alpha theta fcx fcy fr fa s fs :
  as_float cx = inr fcx -> as_float cy = inr fcy -> as_float r = inr fr ->
  as_float alpha = inr fa -> is_infinite fa = false ->
  py_add alpha theta = inr s -> as_float s = inr fs ->
  is_infinite fs = false ->
  sector_d cx cy r alpha theta
  = inr (render
           (spec_sector_path fcx fcy fr
              (SFadd prec emax fcx (SFmul prec emax fr (libm_cos fa)))
              (SFadd prec emax fcy (SFmul prec emax fr (libm_sin fa)))
              (SFadd prec emax fcx (SFmul prec emax fr (libm_cos fs)))
              (SFadd prec emax fcy (SFmul prec emax fr (libm_sin fs)))
              (exceeds_pi theta) (is_positive theta))).
Proof.
  intros Hcx Hcy Hr Ha Hfa Hs Hfs Hfs'.
  unfold sector_d.
  rewrite (sector_args_spec cx cy r alpha theta fcx fcy fr fa s fs) by done.
  cbn [rbind].
  repeat first
    [ rewrite format_literal by reflexivity
    | rewrite (format_percent_f _ cx _ fcx) by done
    | rewrite (format_percent_f _ cy _ fcy) by done
    | rewrite (format_percent_f _ r _ fr) by done
    | rewrite (format_percent_f _ (VFloat _) _ _) by reflexivity
    | rewrite format_percent_d ].
  cbn [rbind format]. f_equal.
  unfold spec_sector_path, render, render_command.
  rewrite !append_assoc.
  by destruct (exceeds_pi theta), (is_positive theta).
Qed.

Lemma is_digit_digit d : is_digit (digit d) = true.
Proof. unfold digit. repeat case_match; reflexivity. Qed.

Lemma string_of_uint_digits u :
  forallb is_digit (list_ascii_of_string (NilEmpty.string_of_uint u)) = true.
Proof. induction u; simpl; done. Qed.

Lemma decimal_nonneg z :
  (0 <= z)%Z ->
  decimal z <> ""
  /\ forallb is_digit (list_ascii_of_string (decimal z)) = true.
Proof.
  intros Hz. unfold decimal. destruct z as [|p|p]; [done | | lia].
  simpl. split; [| apply string_of_uint_digits].
  pose proof (DecimalPos.Unsigned.to_uint_nonnil p) as Hn.
  by destruct (Pos.to_uint p).
Qed.

Lemma scaled_micro_nonneg m e : (0 <= scaled_micro m e)%Z.
Proof.
  unfold scaled_micro. destruct (0 <=? e)%Z eqn:He.
  - apply Z.leb_le in He.
    pose proof (Z.pow_nonneg 2 e ltac:(lia)). nia.
  - apply Z.leb_gt in He.
    assert (0 < 2 ^ (- e))%Z as Hd by (apply Z.pow_pos_nonneg; lia).
    pose proof (Z.div_pos (Z.pos m * 1000000) (2 ^ (- e)) ltac:(lia) Hd).
    repeat case_match; lia.
Qed.

Lemma fixed6_fixed_point s q : (0 <= q)%Z -> fixed_point6 (fixed6 s q).
Proof.
  intros Hq. unfold fixed6, fixed_point6.
  exists (if s then "-" else ""), (decimal (q / 1000000)),
         (six_digits (q mod 1000000)).
  assert (0 <= q / 1000000)%Z as Hdiv by (apply Z.div_pos; lia).
  destruct (decimal_nonneg _ Hdiv) as [Hne Hdig].
  split; [done |]. split; [by destruct s; auto |].
  split; [done |]. split; [done |]. split; [reflexivity |].
  unfold six_digits. simpl. by rewrite !is_digit_digit.
Qed.

(** [%f] writes a finite float in fixed-point notation with six digits
    after the point. *)
Lemma format_float_finite f :
  is_finite f = true -> fixed_point6 (format_float f).
Proof.
  destruct f as [s|s| |s m e]; simpl; try done; intros _.
  - by apply fixed6_fixed_point.
  - apply fixed6_fixed_point, scaled_micro_nonneg.
Qed.

Lemma exceeds_pi_float f : exceeds_pi (VFloat f) = SFltb pi (SFabs f).
Proof. unfold exceeds_pi. simpl. by destruct (SFltb pi (SFabs f)). Qed.

Lemma is_positive_float f : is_positive (VFloat f) = SFltb (S754_zero false) f.
Proof.
  unfold is_positive, SFltb. destruct f as [s|s| |s m e]; simpl; try done.
  - by destruct s.
  - destruct s, (0 <=? e)%Z eqn:He; simpl; try done;
      apply Z.leb_le in He;
      pose proof (Z.pow_pos_nonneg 2 e ltac:(lia) He).
    + destruct (Z.neg m * 2 ^ e)%Z eqn:E; [nia | nia | done].
    + destruct (Z.pos m * 2 ^ e)%Z eqn:E; [nia | done | nia].
Qed.

Lemma exceeds_pi_int z : exceeds_pi (VInt z) = (3 <? Z.abs z)%Z.
Proof.
  unfold exceeds_pi. cbn [py_abs rbind py_gt pi compare_int_float].
  change (0 <=? -51)%Z with false. cbv iota.
  change (2 ^ (- -51))%Z with 2251799813685248%Z.
  destruct (Z.compare_spec (Z.abs z * 2251799813685248)
              (Z.pos 7074237752028440)),
    (Z.ltb_spec 3 (Z.abs z)); try done; lia.
Qed.

Lemma is_positive_int z : is_positive (VInt z) = (0 <? z)%Z.
Proof. unfold is_positive. simpl. by destruct (0 <? z)%Z. Qed.

Lemma fix_attrs_d d kw :
  avoids ["d"] kw = true ->
  dict_get "d" (_fix_attrs ([("d", VStr d)] ++ kw)) = Some d.
Proof.
  intros Hav. unfold _fix_attrs. rewrite fold_left_app.
  rewrite fix_attrs_fold_get; [reflexivity |].
  intros k Hk.
  eapply avoided_after_normalisation; [exact Hav | exact Hk | member | done].
Qed.

(** With an infinite start or end angle there is no path data. *)
Lemma sector_d_infinite cx cy r alpha theta fcx fcy fr fa s fs :
  as_float cx = inr fcx -> as_float cy = inr fcy -> as_float r = inr fr ->
  as_float alpha = inr fa ->
  py_add alpha theta = inr s -> as_float s = inr fs ->
  is_infinite fa = true \/ is_infinite fs = true ->
  sector_d cx cy r alpha theta = inl (ValueError "math domain error").
Proof.
  intros Hcx Hcy Hr Ha Hs Hfs Hinf.
  pose proof (py_add_number alpha theta fa s Ha Hs) as Ht.
  destruct (flags_spec theta Ht) as [Hlarge Hsweep].
  unfold sector_d, sector_args.
  destruct (is_infinite fa) eqn:Hfa.
  { unfold math_cos at 1. rewrite Ha. cbn [rbind]. by destruct fa. }
  destruct Hinf as [Hinf | Hinf]; [done |].
  rewrite (math_cos_spec alpha fa) by done. cbn [rbind].
  rewrite (py_mul_float_spec r fr) by done. cbn [rbind].
  rewrite (py_add_float cx fcx) by done. cbn [rbind].
  rewrite (math_sin_spec alpha fa) by done. cbn [rbind].
  rewrite (py_mul_float_spec r fr) by done. cbn [rbind].
  rewrite (py_add_float cy fcy) by done. cbn [rbind].
  unfold rbind at 1 in Hlarge.
  destruct (py_abs theta) as [e|a]; [done |]. cbn [rbind].
  rewrite Hlarge. cbn [rbind]. rewrite Hsweep. cbn [rbind].
  rewrite Hs. cbn [rbind].
  unfold math_cos at 1. rewrite Hfs. cbn [rbind]. by destruct fs.
Qed.

(** C1, as the code has it.  Take a center, radius, start angle and sweep
    that are ints or floats, with those entering float arithmetic
    convertible.  If neither the start angle nor the end angle
    [alpha + theta] is infinite, the path data is: move to the center,
    line to [(cx + r cos alpha, cy + r sin alpha)], arc with radii
    [(r, r)] and rotation 0 to [(cx + r cos (alpha+theta),
    cy + r sin (alpha+theta))], close; the large-arc flag is 1 exactly
    when [abs(theta) > math.pi], the sweep flag exactly when [theta > 0]
    (for a float sweep: [pi < |theta|] and [0 < theta] in binary64; for
    an int sweep: [3 < |theta|], which is [|theta| > pi] for an integer,
    and [0 < theta]); and on a builder with an element open, with
    keywords avoiding the reserved names, [circle_sector] emits one
    [path] element whose [d] is that string.  If one of the two angles is
    infinite, [circle_sector] raises and leaves the builder as it was. *)
Theorem circle_sector_path (cx cy r alpha theta : value)
    (fcx fcy fr fa fs : float) (s : value) :
  as_float cx = inr fcx -> as_float cy = inr fcy -> as_float r = inr fr ->
  as_float alpha = inr fa ->
  py_add alpha theta = inr s -> as_float s = inr fs ->
  let d :=
    render
      (spec_sector_path fcx fcy fr
         (SFadd prec emax fcx (SFmul prec emax fr (libm_cos fa)))
         (SFadd prec emax fcy (SFmul prec emax fr (libm_sin fa)))
         (SFadd prec emax fcx (SFmul prec emax fr (libm_cos fs)))
         (SFadd prec emax fcy (SFmul prec emax fr (libm_sin fs)))
         (exceeds_pi theta) (is_positive theta)) in
  (is_infinite fa = false -> is_infinite fs = false ->
     sector_d cx cy r alpha theta = inr d
     /\ (forall kw b,
          _elem b <> [] -> well_formed b -> NoDup (keys kw) ->
          avoids (reserved_names (CircleSector cx cy r alpha theta)) kw
          = true ->
          exists b',
            circle_sector cx cy r alpha theta kw b = (inr tt, b')
            /\ emitted b b' "path" (_fix_attrs ([("d", VStr d)] ++ kw)) None
            /\ dict_get "d" (_fix_attrs ([("d", VStr d)] ++ kw)) = Some d))
  /\ (forall f, theta = VFloat f ->
        exceeds_pi theta = SFltb pi (SFabs f)
        /\ is_positive theta = SFltb (S754_zero false) f)
  /\ (forall z, theta = VInt z ->
        exceeds_pi theta = (3 <? Z.abs z)%Z
        /\ is_positive theta = (0 <? z)%Z)
  /\ (is_infinite fa = true \/ is_infinite fs = true ->
      forall kw b, exists e,
        circle_sector cx cy r alpha theta kw b = (inl e, b)).
Proof.
  intros Hcx Hcy Hr Ha Hs Hfs d.
  split; [| split; [| split]].
  - intros Hfa Hfs'.
    pose proof (sector_d_spec cx cy r alpha theta fcx fcy fr fa s fs
                  Hcx Hcy Hr Ha Hfa Hs Hfs Hfs') as Hd.
    fold d in Hd. split; [exact Hd |].
    intros kw b Hopen Hwf Hnd Hav.
    destruct (draw_emits (CircleSector cx cy r alpha theta) kw b
                [("d", VStr d)] Hwf (open_can_open b Hopen) Hnd Hav)
      as (b' & Hrun & Hem).
    { simpl. by rewrite Hd. }
    exists b'. split; [exact Hrun |]. split; [exact Hem |].
    apply fix_attrs_d. by (eapply avoids_weaken; [| exact Hav]).
  - intros f ->. split; [apply exceeds_pi_float | apply is_positive_float].
  - intros z ->. split; [apply exceeds_pi_int | apply is_positive_int].
  - intros Hinf kw b. unfold circle_sector.
    apply lift_raises. intros kwargs _.
    rewrite (sector_d_infinite cx cy r alpha theta fcx fcy fr fa s fs)
      by done.
    by eexists.
Qed.

(** C9, as the code has it.  [%f] writes a float that is zero or finite
    in fixed-point notation with exactly six digits after the point, so
    [1.0] as [1.000000]; it writes a NaN as [nan] and the infinities as
    [inf] and [-inf].  Every coordinate and radius of the path data is
    written by [%f].  The other shapes pass their geometry through
    [_fix_attrs], which converts each value with [str]. *)
Theorem sector_numbers_fixed_point :
  (forall f, is_finite f = true -> fixed_point6 (format_float f))
  /\ format_float (S754_finite false 4503599627370496 (-52)) = "1.000000"
  /\ format_float S754_nan = "nan"
  /\ format_float (S754_infinity false) = "inf"
  /\ format_float (S754_infinity true) = "-inf"
  /\ (forall cx cy r alpha theta fcx fcy fr fa s fs,
        as_float cx = inr fcx -> as_float cy = inr fcy ->
        as_float r = inr fr ->
        as_float alpha = inr fa -> is_infinite fa = false ->
        py_add alpha theta = inr s -> as_float s = inr fs ->
        is_infinite fs = false ->
        exists x1 y1 x2 y2 large sweep,
          sector_d cx cy r alpha theta
          = inr ("M" +:+ format_float fcx +:+ "," +:+ format_float fcy
                 +:+ " L" +:+ format_float x1 +:+ "," +:+ format_float y1
                 +:+ " A" +:+ format_float fr +:+ "," +:+ format_float fr
                 +:+ " 0 " +:+ flag large +:+ "," +:+ flag sweep +:+ " "
                 +:+ format_float x2 +:+ "," +:+ format_float y2 +:+ " Z"))
  /\ (forall s ex, explicit_keywords s = inr ex ->
        (forall cx cy r alpha theta, s <> CircleSector cx cy r alpha theta) ->
        _fix_attrs ex = map (fun kv => (kv.1, py_str kv.2)) ex).
Proof.
  split; [apply format_float_finite |].
  split; [by vm_compute |].
  split; [done |]. split; [done |]. split; [done |]. split.
  - intros cx cy r alpha theta fcx fcy fr fa s fs
      Hcx Hcy Hr Ha Hfa Hs Hfs Hfs'.
    do 6 eexists.
    rewrite (sector_d_spec cx cy r alpha theta fcx fcy fr fa s fs) by done.
    f_equal. unfold spec_sector_path, render, render_command.
    rewrite !append_assoc. reflexivity.
  - intros s ex Hex Hns.
    destruct s; simpl in Hex; try (by injection Hex as <-).
    by destruct (Hns cx cy r alpha theta).
Qed.

(** ** Further properties *)

(** *** [_fix_attrs] on arbitrary keyword dictionaries *)

Lemma keys_dict_set {V} k (v : V) d :
  keys (dict_set k v d)
  = if bool_decide (k ∈ keys d) then keys d else keys d ++ [k].
Proof.
  induction d as [|[k' v'] d IH]; simpl; [done |].
  destruct (String.eqb_spec k k') as [->|Hne].
  - rewrite bool_decide_eq_true_2 by apply list_elem_of_here. done.
  - simpl. fold (keys (dict_set k v d)). fold (keys d). rewrite IH.
    destruct (decide (k ∈ keys d)) as [Hin|Hnin].
    + rewrite !bool_decide_eq_true_2; [done | by apply list_elem_of_further | done].
    + rewrite !bool_decide_eq_false_2; [done | | done].
      intros [?|?]%elem_of_cons; done.
Qed.

Lemma elem_of_keys_dict_set {V} k (v : V) d k' :
  k' ∈ keys (dict_set k v d) <-> k' ∈ keys d \/ k' = k.
Proof.
  rewrite keys_dict_set. case_bool_decide as Hin.
  - split; [by left | by intros [? | ->]].
  - rewrite elem_of_app, list_elem_of_singleton. done.
Qed.

Lemma NoDup_keys_dict_set {V} k (v : V) d :
  NoDup (keys d) -> NoDup (keys (dict_set k v d)).
Proof.
  intros Hnd. rewrite keys_dict_set. case_bool_decide as Hin; [done |].
  apply NoDup_app. split; [done |]. split.
  - by intros x Hx ->%list_elem_of_singleton.
  - apply NoDup_singleton.
Qed.

Lemma length_dict_set {V} k (v : V) d : length (dict_set k v d) <= S (length d).
Proof.
  induction d as [|[k' v'] d IH]; simpl; [lia |].
  destruct (String.eqb k k'); simpl; lia.
Qed.

Lemma fix_attrs_fold_keys (kwargs : dict value) (acc : dict string) k' :
  k' ∈ keys (fold_left
               (fun attrs kv =>
                  dict_set (replace_underscores kv.1) (py_str kv.2) attrs)
               kwargs acc)
  <-> k' ∈ keys acc
      \/ exists k, k ∈ keys kwargs /\ replace_underscores k = k'.
Proof.
  revert acc. induction kwargs as [|[k v] kw IH]; intros acc; simpl.
  - split; [by left |]. intros [? | (k & Hk & _)]; [done |].
    by apply elem_of_nil in Hk.
  - rewrite IH, elem_of_keys_dict_set. split.
    + intros [[? | ->] | (k0 & Hk0 & <-)].
      * by left.
      * right. exists k. split; [apply list_elem_of_here | done].
      * right. exists k0. split; [by apply list_elem_of_further | done].
    + intros [? | (k0 & [-> | Hk0]%elem_of_cons & <-)].
      * left. by left.
      * left. by right.
      * right. by exists k0.
Qed.

Lemma fix_attrs_fold_NoDup (kwargs : dict value) (acc : dict string) :
  NoDup (keys acc) ->
  NoDup (keys (fold_left
                 (fun attrs kv =>
                    dict_set (replace_underscores kv.1) (py_str kv.2) attrs)
                 kwargs acc)).
Proof.
  revert acc. induction kwargs as [|[k v] kw IH]; intros acc Hnd; simpl;
    [done |].
  by apply IH, NoDup_keys_dict_set.
Qed.

Lemma fix_attrs_fold_length (kwargs : dict value) (acc : dict string) :
  length (fold_left
            (fun attrs kv =>
               dict_set (replace_underscores kv.1) (py_str kv.2) attrs)
            kwargs acc)
  <= length acc + length kwargs.
Proof.
  revert acc. induction kwargs as [|[k v] kw IH]; intros acc; simpl; [lia |].
  pose proof (IH (dict_set (replace_underscores k) (py_str v) acc)).
  pose proof (length_dict_set (replace_underscores k) (py_str v) acc). lia.
Qed.

Lemma replace_underscores_no_underscore k :
  no_underscore (replace_underscores k) = true.
Proof.
  unfold no_underscore. induction k as [|c k IH]; simpl; [done |].
  rewrite IH, andb_true_r.
  destruct (Ascii.eqb_spec c "_") as [->|Hne]; [done |].
  by destruct (Ascii.eqb_spec c "_").
Qed.

Lemma dict_set_app_fresh {V} k (v : V) d d' :
  k ∉ keys d -> dict_set k v (d ++ d') = d ++ dict_set k v d'.
Proof.
  induction d as [|[k0 v0] d IH]; simpl; [done |].
  intros Hnin. apply not_elem_of_cons in Hnin as [Hne Hnin].
  destruct (String.eqb_spec k k0) as [->|_]; [done |]. by rewrite IH.
Qed.

Lemma fix_attrs_fold_app (kwargs : dict value) (acc acc' : dict string) :
  (forall k, k ∈ keys kwargs -> replace_underscores k ∉ keys acc) ->
  fold_left
    (fun attrs kv => dict_set (replace_underscores kv.1) (py_str kv.2) attrs)
    kwargs (acc ++ acc')
  = acc ++ fold_left
             (fun attrs kv =>
                dict_set (replace_underscores kv.1) (py_str kv.2) attrs)
             kwargs acc'.
Proof.
  revert acc'. induction kwargs as [|[k v] kw IH]; intros acc' Hfresh; simpl;
    [done |].
  rewrite dict_set_app_fresh by apply Hfresh, list_elem_of_here.
  apply IH. intros k0 Hk0. by apply Hfresh, list_elem_of_further.
Qed.

Lemma fix_attrs_disjoint_app (kw1 kw2 : dict value) :
  (forall k1 k2, k1 ∈ keys kw1 -> k2 ∈ keys kw2 ->
                 replace_underscores k1 <> replace_underscores k2) ->
  _fix_attrs (kw1 ++ kw2) = _fix_attrs kw1 ++ _fix_attrs kw2.
Proof.
  intros Hdis. unfold _fix_attrs. rewrite fold_left_app.
  match goal with
  | |- fold_left _ kw2 ?attrs = _ =>
      pose proof (fix_attrs_fold_app kw2 attrs []) as Happ
  end.
  rewrite app_nil_r in Happ. apply Happ. intros k2 Hk2 Hin.
  apply fix_attrs_fold_keys in Hin as [Hin | (k1 & Hk1 & Heq)].
  - by apply elem_of_nil in Hin.
  - by apply (Hdis k1 k2).
Qed.

(** X1.  Whatever the keyword dictionary, the names [_fix_attrs] returns
    are exactly the normalised names of its keys, each once; none holds an
    underscore; and there are at most as many as there were keys. *)
Theorem fix_attrs_keys (kwargs : dict value) :
  NoDup (keys (_fix_attrs kwargs))
  /\ (forall k', k' ∈ keys (_fix_attrs kwargs)
                 <-> exists k, k ∈ keys kwargs /\ replace_underscores k = k')
  /\ Forall (fun k' => no_underscore k' = true) (keys (_fix_attrs kwargs))
  /\ length (_fix_attrs kwargs) <= length kwargs.
Proof.
  assert (forall k', k' ∈ keys (_fix_attrs kwargs)
                     <-> exists k, k ∈ keys kwargs
                                   /\ replace_underscores k = k') as Hkeys.
  { intros k'. unfold _fix_attrs. rewrite fix_attrs_fold_keys.
    split; [| by right]. intros [Hin | H]; [| done].
    by apply elem_of_nil in Hin. }
  split; [| split; [exact Hkeys | split]].
  - apply fix_attrs_fold_NoDup. constructor.
  - apply Forall_forall. intros k' (k & _ & <-)%Hkeys.
    apply replace_underscores_no_underscore.
  - apply (fix_attrs_fold_length kwargs []).
Qed.

(** X2.  When several keys have the same normalised name, the value of
    the last one is the attribute's: an entry whose normalised name no
    later entry has gives the attribute its value. *)
Theorem fix_attrs_last_wins (kw1 kw2 : dict value) (k : string) (v : value) :
  (forall k2, k2 ∈ keys kw2 ->
              replace_underscores k2 <> replace_underscores k) ->
  dict_get (replace_underscores k) (_fix_attrs (kw1 ++ (k, v) :: kw2))
  = Some (py_str v).
Proof.
  intros Hlast. unfold _fix_attrs. rewrite fold_left_app. simpl.
  rewrite fix_attrs_fold_get by done. apply dict_get_set_eq.
Qed.

(** X3.  [_fix_attrs] distributes over the concatenation of two
    dictionaries that share no normalised name: the attributes of the
    first come first, in their order, then those of the second. *)
Theorem fix_attrs_app (kw1 kw2 : dict value) :
  (forall k1 k2, k1 ∈ keys kw1 -> k2 ∈ keys kw2 ->
                 replace_underscores k1 <> replace_underscores k2) ->
  _fix_attrs (kw1 ++ kw2) = _fix_attrs kw1 ++ _fix_attrs kw2
  /\ keys (_fix_attrs (kw1 ++ kw2))
     = keys (_fix_attrs kw1) ++ keys (_fix_attrs kw2).
Proof.
  intros Hdis. rewrite fix_attrs_disjoint_app by done.
  split; [done |]. unfold keys. apply map_app.
Qed.

(** *** The exact effect of [start] and [end] without pending data *)

Lemma start_exact t attrs b :
  _data b = [] -> well_formed b -> can_open b = true ->
  TreeBuilder.start t attrs b
  = (inr (length (heap b)),
     Builder (attach (length (heap b)) (_elem b) (heap b)
                ++ [Element (Name t) attrs None None []])
       [] (length (heap b) :: _elem b) (Some (length (heap b)))
       (root_after (length (heap b)) b) false (svg b)
       (calls b ++ [CStart t attrs])).
Proof.
  intros Hd Hwf Hopen. destruct b as [h d st l r tl sv cs].
  unfold can_open in Hopen. simpl in *. subst d.
  unfold TreeBuilder.start, bind, modify, TreeBuilder._flush, log,
    TreeBuilder.open_element, root_after. simpl.
  destruct st as [|p rest]; simpl.
  - by destruct r.
  - apply Forall_cons in Hwf as [Hp _]. simpl in Hp.
    unfold update, with_heap, with_elem, with_tail. simpl.
    by rewrite alter_app_l.
Qed.

Lemma end_exact t b h e st :
  heap b = h ++ [e] -> _elem b = length h :: st ->
  _last b = Some (length h) -> _tail b = false ->
  TreeBuilder.end_ t b
  = (inr (length h),
     Builder (h ++ [match _data b with
                    | [] => e
                    | _ :: _ => add_text (join (_data b)) e
                    end])
       [] st (Some (length h)) (_root b) true (svg b)
       (calls b ++ [CEnd t])).
Proof.
  destruct b as [h0 d st0 l r tl sv cs]. simpl.
  intros -> -> -> ->.
  unfold TreeBuilder.end_, bind, modify, TreeBuilder._flush, log. simpl.
  destruct d as [|d0 ds]; simpl; [done |].
  unfold TreeBuilder.pop, update. simpl.
  rewrite alter_app_r_alt by done. by rewrite Nat.sub_diag.
Qed.

Lemma length_attach n st h : length (attach n st h) = length h.
Proof. destruct st; simpl; [done |]. apply length_alter. Qed.

Lemma start_end_exact t attrs b :
  _data b = [] -> well_formed b -> can_open b = true ->
  (_ <- TreeBuilder.start t attrs ;; _ <- TreeBuilder.end_ t ;; ret tt) b
  = (inr tt,
     Builder (attach (length (heap b)) (_elem b) (heap b)
                ++ [Element (Name t) attrs None None []])
       [] (_elem b) (Some (length (heap b)))
       (root_after (length (heap b)) b) true (svg b)
       (calls b ++ shape_calls t attrs None)).
Proof.
  intros Hd Hwf Hopen. unfold bind at 1. rewrite start_exact by done.
  unfold bind at 1.
  erewrite (end_exact t _ (attach (length (heap b)) (_elem b) (heap b))
              (Element (Name t) attrs None None []) (_elem b));
    simpl; rewrite ?length_attach; try done.
  unfold ret, shape_calls. by rewrite <- app_assoc.
Qed.

Lemma start_data_end_exact t attrs body b :
  _data b = [] -> well_formed b -> can_open b = true ->
  (_ <- TreeBuilder.start t attrs ;;
   TreeBuilder.data body ;;;
   _ <- TreeBuilder.end_ t ;; ret tt) b
  = (inr tt,
     Builder (attach (length (heap b)) (_elem b) (heap b)
                ++ [Element (Name t) attrs (Some body) None []])
       [] (_elem b) (Some (length (heap b)))
       (root_after (length (heap b)) b) true (svg b)
       (calls b ++ shape_calls t attrs (Some body))).
Proof.
  intros Hd Hwf Hopen. unfold bind at 1. rewrite start_exact by done.
  unfold bind at 1, TreeBuilder.data, modify at 1. unfold bind at 1.
  erewrite (end_exact t _ (attach (length (heap b)) (_elem b) (heap b))
              (Element (Name t) attrs None None []) (_elem b));
    simpl; rewrite ?length_attach; try done.
  unfold ret, shape_calls, add_text. simpl.
  by rewrite append_empty_r, <- !app_assoc.
Qed.

Lemma emit_exact s args b :
  _data b = [] -> well_formed b -> can_open b = true ->
  (shape_body s = None -> avoids ["self"; "tag"] args = true) ->
  emit s args b
  = (inr tt,
     Builder (attach (length (heap b)) (_elem b) (heap b)
                ++ [Element (Name (shape_tag s)) (_fix_attrs args)
                      (shape_body s) None []])
       [] (_elem b) (Some (length (heap b)))
       (root_after (length (heap b)) b) true (svg b)
       (calls b
          ++ shape_calls (shape_tag s) (_fix_attrs args) (shape_body s))).
Proof.
  intros Hd Hwf Hopen Hav.
  destruct s as [cx cy r|x1 y1 x2 y2|x y w h|body x y|cx cy r alpha theta];
    simpl in *;
    try (unfold item, bind at 1, lift at 1;
         rewrite bind_kwargs_avoids by (by apply Hav);
         by apply start_end_exact).
  by apply start_data_end_exact.
Qed.

(** *** The stages of a shape call *)

Lemma draw_staged s kw b :
  draw s kw b
  = (kwargs <- lift (bind_kwargs (parameters s) kw) ;;
     ex <- lift (explicit_keywords s) ;;
     args <- lift (call_kw ex kwargs) ;;
     emit s args) b.
Proof.
  destruct s as [cx cy r|x1 y1 x2 y2|x y w h|body x y|cx cy r alpha theta];
    simpl; try reflexivity.
  unfold circle_sector, bind, lift.
  destruct (bind_kwargs _ kw) as [e|kwargs]; [done |].
  by destruct (sector_d cx cy r alpha theta).
Qed.

Lemma bind_kwargs_inl bound kw e :
  bind_kwargs bound kw = inl e ->
  exists k, k ∈ keys kw /\ k ∈ bound /\ e = TypeError (MultipleValues k).
Proof.
  induction kw as [|[k v] kw IH]; simpl; [done |].
  case_bool_decide as Hin.
  - intros [= <-]. exists k. split; [apply list_elem_of_here | done].
  - destruct (bind_kwargs bound kw) as [e'|rest]; simpl; [| done].
    intros [= <-]. destruct (IH eq_refl) as (k' & Hk' & Hb & ->).
    exists k'. split; [by apply list_elem_of_further | done].
Qed.

Lemma bind_kwargs_inr_avoids bound kw kwargs :
  bind_kwargs bound kw = inr kwargs -> avoids bound kw = true.
Proof.
  revert kwargs. unfold avoids.
  induction kw as [|[k v] kw IH]; intros kwargs; simpl; [done |].
  case_bool_decide as Hin; [done |]. simpl.
  destruct (bind_kwargs bound kw) as [e'|rest]; simpl; [done |].
  intros _. by eapply IH.
Qed.

Lemma call_kw_inl ex star e :
  call_kw ex star = inl e ->
  exists k, k ∈ keys star /\ e = TypeError (MultipleValues k).
Proof.
  revert ex. induction star as [|[k v] star IH]; intros ex; simpl; [done |].
  destruct (has_key k ex).
  - intros [= <-]. exists k. split; [apply list_elem_of_here | done].
  - intros (k' & Hk' & ->)%IH. exists k'.
    split; [by apply list_elem_of_further | done].
Qed.

Lemma call_kw_inr_avoids ex star args :
  call_kw ex star = inr args -> avoids (keys ex) star = true.
Proof.
  revert ex. unfold avoids.
  induction star as [|[k v] star IH]; intros ex; simpl; [done |].
  destruct (has_key k ex) eqn:Hk; [done |].
  intros Hrun%IH. apply andb_true_iff. split.
  - apply negb_true_iff, bool_decide_eq_false_2. intros Hin.
    apply has_key_true in Hin. congruence.
  - eapply forallb_forall. intros k0 Hk0.
    rewrite forallb_forall in Hrun. specialize (Hrun k0 Hk0).
    apply negb_true_iff, bool_decide_eq_false in Hrun.
    apply negb_true_iff, bool_decide_eq_false_2. intros Hin.
    apply Hrun. unfold keys. rewrite map_app. apply elem_of_app. by left.
Qed.

Lemma explicit_keys s ex :
  explicit_keywords s = inr ex -> keys ex = geometry_names s.
Proof.
  destruct s as [cx cy r|x1 y1 x2 y2|x y w h|body x y|cx cy r alpha theta];
    simpl; try (by intros [= <-]).
  destruct (sector_d cx cy r alpha theta); simpl; [done |]. by intros [= <-].
Qed.

Lemma draw_returns_open s kw b b' :
  draw s kw b = (inr tt, b') -> can_open b = true.
Proof.
  intros Hrun. destruct (can_open b) eqn:Hopen; [done |].
  destruct (draw_refused s kw b Hopen) as (e & b2 & Hfail & _). congruence.
Qed.

Lemma emit_outcome s args b e b' :
  _data b = [] -> well_formed b -> can_open b = true ->
  emit s args b = (inl e, b') ->
  b' = b
  /\ exists k, k ∈ keys args /\ k ∈ ["self"; "tag"]
               /\ e = TypeError (MultipleValues k).
Proof.
  intros Hd Hwf Hopen Hrun.
  destruct (bind_kwargs ["self"; "tag"] args) as [e'|kwargs] eqn:E.
  - destruct (shape_body s) eqn:Hbody.
    + rewrite emit_exact in Hrun; [done | done | done | done |].
      by rewrite Hbody.
    + assert (emit s args b = (inl e', b)) as Hfail.
      { destruct s; simpl in *; try done;
          unfold item, bind at 1, lift at 1; by rewrite E. }
      rewrite Hfail in Hrun. injection Hrun as -> ->.
      split; [done |]. by apply bind_kwargs_inl in E.
  - apply bind_kwargs_inr_avoids in E.
    rewrite emit_exact in Hrun; done.
Qed.

Lemma geometry_names_plain s n :
  n ∈ geometry_names s ->
  (n ∉ ["self"; "tag"]) /\ no_hyphen n = true /\ replace_underscores n = n.
Proof.
  intros Hn. destruct s; simpl in Hn; split_members Hn; subst n;
    (split; [| done]); intros H; split_members H; done.
Qed.

Lemma draw_raises_untouched s kw b b' e :
  _data b = [] -> well_formed b -> can_open b = true ->
  draw s kw b = (inl e, b') ->
  b' = b
  /\ ((exists k, k ∈ keys kw /\ e = TypeError (MultipleValues k))
      \/ explicit_keywords s = inl e).
Proof.
  intros Hd Hwf Hopen. rewrite draw_staged. unfold bind at 1, lift at 1.
  destruct (bind_kwargs (parameters s) kw) as [e1|kwargs] eqn:E1.
  { intros [= <- <-]. split; [done |]. left.
    apply bind_kwargs_inl in E1 as (k & Hk & _ & ->). by exists k. }
  apply bind_kwargs_inr in E1 as ->. unfold bind at 1, lift at 1.
  destruct (explicit_keywords s) as [e2|ex] eqn:E2.
  { intros [= <- <-]. split; [done | by right]. }
  unfold bind at 1, lift at 1.
  destruct (call_kw ex kw) as [e3|args] eqn:E3.
  { intros [= <- <-]. split; [done |]. left. by apply call_kw_inl in E3. }
  apply call_kw_inr in E3 as ->.
  intros (-> & k & Hk & Hst & ->)%emit_outcome; [| done | done | done].
  split; [done |]. left. exists k. split; [| done].
  unfold keys in Hk. rewrite map_app in Hk.
  apply elem_of_app in Hk as [Hk | Hk]; [| done].
  fold (keys ex) in Hk. rewrite (explicit_keys s ex E2) in Hk.
  by destruct (geometry_names_plain s k Hk) as [Hnot _].
Qed.

(** X4.  A shape call on a builder with an element open and without
    pending data either returns or raises with the builder untouched: it
    fails only on its arguments, with a [TypeError] that names one of the
    caller's keywords or, for the sector, with the error of the path
    computation. *)
Theorem shape_failure_is_atomic (s : shape) (kw : dict value) (b : builder) :
  _data b = [] -> well_formed b -> _elem b <> [] ->
  (exists b', draw s kw b = (inr tt, b'))
  \/ (exists e,
        draw s kw b = (inl e, b)
        /\ ((exists k, k ∈ keys kw /\ e = TypeError (MultipleValues k))
            \/ explicit_keywords s = inl e)).
Proof.
  intros Hd Hwf Hopen. destruct (draw s kw b) as [[e|[]] b'] eqn:E.
  - right. exists e.
    by destruct (draw_raises_untouched s kw b b' e Hd Hwf
                   (open_can_open b Hopen) E) as [-> He].
  - left. by exists b'.
Qed.

Lemma emit_returns s args b b' :
  _data b = [] -> well_formed b -> can_open b = true ->
  emit s args b = (inr tt, b') ->
  b' = Builder (attach (length (heap b)) (_elem b) (heap b)
                  ++ [Element (Name (shape_tag s)) (_fix_attrs args)
                        (shape_body s) None []])
         [] (_elem b) (Some (length (heap b)))
         (root_after (length (heap b)) b) true (svg b)
         (calls b
            ++ shape_calls (shape_tag s) (_fix_attrs args) (shape_body s)).
Proof.
  intros Hd Hwf Hopen Hrun.
  destruct (bind_kwargs ["self"; "tag"] args) as [e'|kwargs] eqn:E.
  - destruct (shape_body s) eqn:Hbody.
    + rewrite emit_exact in Hrun; [| done | done | done | by rewrite Hbody].
      rewrite Hbody in Hrun. by injection Hrun as <-.
    + assert (emit s args b = (inl e', b)) as Hfail.
      { destruct s; simpl in *; try done;
          unfold item, bind at 1, lift at 1; by rewrite E. }
      by rewrite Hfail in Hrun.
  - apply bind_kwargs_inr_avoids in E.
    rewrite emit_exact in Hrun by done. by injection Hrun as <-.
Qed.

Lemma draw_returns_avoids s kw b b' :
  draw s kw b = (inr tt, b') ->
  exists ex, explicit_keywords s = inr ex /\ avoids (keys ex) kw = true.
Proof.
  rewrite draw_staged. unfold bind at 1, lift at 1.
  destruct (bind_kwargs (parameters s) kw) as [e1|kwargs] eqn:E1; [done |].
  apply bind_kwargs_inr in E1 as ->. unfold bind at 1, lift at 1.
  destruct (explicit_keywords s) as [e2|ex] eqn:E2; [done |].
  unfold bind at 1, lift at 1.
  destruct (call_kw ex kw) as [e3|args] eqn:E3; [done |].
  intros _. exists ex. split; [done |]. by eapply call_kw_inr_avoids.
Qed.

Lemma draw_exact s kw b b' :
  _data b = [] -> well_formed b ->
  draw s kw b = (inr tt, b') ->
  exists ex,
    explicit_keywords s = inr ex
    /\ b' = Builder (attach (length (heap b)) (_elem b) (heap b)
                       ++ [Element (Name (shape_tag s))
                             (_fix_attrs (ex ++ kw)) (shape_body s) None []])
              [] (_elem b) (Some (length (heap b)))
              (root_after (length (heap b)) b) true (svg b)
              (calls b
                 ++ shape_calls (shape_tag s) (_fix_attrs (ex ++ kw))
                      (shape_body s)).
Proof.
  intros Hd Hwf Hrun. pose proof (draw_returns_open s kw b b' Hrun) as Hopen.
  revert Hrun. rewrite draw_staged. unfold bind at 1, lift at 1.
  destruct (bind_kwargs (parameters s) kw) as [e1|kwargs] eqn:E1; [done |].
  apply bind_kwargs_inr in E1 as ->. unfold bind at 1, lift at 1.
  destruct (explicit_keywords s) as [e2|ex] eqn:E2; [done |].
  unfold bind at 1, lift at 1.
  destruct (call_kw ex kw) as [e3|args] eqn:E3; [done |].
  apply call_kw_inr in E3 as ->.
  intros Hrun%emit_returns; [| done | done | done]. by exists ex.
Qed.

Lemma NoDup_geometry_names s : NoDup (geometry_names s).
Proof.
  destruct s; simpl;
    repeat (apply NoDup_cons_2; [intros H; split_members H; done |]);
    apply NoDup_nil_2.
Qed.

Lemma dict_get_app_l {V} k (v : V) d d' :
  dict_get k d = Some v -> dict_get k (d ++ d') = Some v.
Proof.
  induction d as [|[k0 v0] d IH]; simpl; [done |].
  by destruct (String.eqb k k0).
Qed.

Lemma shape_attrs_split s ex kw :
  explicit_keywords s = inr ex -> avoids (keys ex) kw = true ->
  _fix_attrs (ex ++ kw)
  = map (fun kv => (kv.1, py_str kv.2)) ex ++ _fix_attrs kw.
Proof.
  intros Hex Hav. pose proof (explicit_keys s ex Hex) as Hkeys.
  rewrite fix_attrs_disjoint_app.
  - f_equal. rewrite fix_attrs_map.
    + apply map_ext_in. intros [k v] Hin. unfold normalise. simpl.
      f_equal. apply (geometry_names_plain s). rewrite <- Hkeys.
      apply list_elem_of_In. by apply (in_map fst) in Hin.
    + rewrite Hkeys.
      replace (map replace_underscores (geometry_names s))
        with (geometry_names s) by (by destruct s).
      apply NoDup_geometry_names.
  - intros k1 k2 Hk1 Hk2 Heq.
    rewrite Hkeys in Hk1.
    destruct (geometry_names_plain s k1 Hk1) as (_ & Hnh & Hfix).
    rewrite Hfix in Heq.
    eapply (avoided_after_normalisation (keys ex) kw k2 k1); try done.
    by rewrite Hkeys.
Qed.

(** X5.  The attributes of the element a shape call has emitted are the
    geometry attributes, under their own names, in the order of the
    method's signature and with [str] of the arguments, followed by the
    normalised extras: no extra replaces or precedes a geometry
    attribute. *)
Theorem shape_attributes (s : shape) (kw : dict value) (b b' : builder) :
  well_formed b ->
  draw s kw b = (inr tt, b') ->
  exists ex,
    explicit_keywords s = inr ex
    /\ keys ex = geometry_names s
    /\ e_attrib (deref b' (length (heap b)))
       = map (fun kv => (kv.1, py_str kv.2)) ex ++ _fix_attrs kw
    /\ forall n v, dict_get n ex = Some v ->
         dict_get n (e_attrib (deref b' (length (heap b))))
         = Some (py_str v).
Proof.
  intros Hwf Hrun.
  destruct (draw_returns s kw b b' Hrun Hwf) as (ex & Hex & Hem).
  destruct (draw_returns_avoids s kw b b' Hrun) as (ex' & Hex' & Hav).
  rewrite Hex in Hex'. injection Hex' as <-.
  pose proof (explicit_keys s ex Hex) as Hkeys.
  assert (e_attrib (deref b' (length (heap b)))
          = map (fun kv => (kv.1, py_str kv.2)) ex ++ _fix_attrs kw) as Hattr.
  { unfold deref. rewrite (list_lookup_total_correct _ _ _ (em_new _ _ _ _ _ Hem)).
    simpl. by apply (shape_attrs_split s). }
  exists ex. split; [done |]. split; [done |]. split; [done |].
  intros n v Hget. rewrite Hattr. apply dict_get_app_l.
  apply (dict_get_map (fun k => k) py_str n v ex); [| done].
  rewrite map_id, Hkeys. apply NoDup_geometry_names.
Qed.

Lemma attach_new n st h e :
  length h = n -> (attach n st h ++ [e]) !!! n = e.
Proof.
  intros <-. apply list_lookup_total_middle. by rewrite length_attach.
Qed.

Lemma attach_parent n p rest h e :
  p < length h ->
  (attach n (p :: rest) h ++ [e]) !!! p = append n (h !!! p).
Proof.
  intros Hp. simpl.
  rewrite lookup_total_app_l by (by rewrite length_alter).
  rewrite !list_lookup_total_alt, list_lookup_alter_eq.
  by destruct (lookup_lt_is_Some_2 h p Hp) as [x ->].
Qed.

Lemma attach_other n st h e i :
  i < length h -> head st <> Some i ->
  (attach n st h ++ [e]) !!! i = h !!! i.
Proof.
  intros Hi Hne.
  rewrite lookup_total_app_l by (by rewrite length_attach).
  destruct st as [|p rest]; simpl; [done |].
  rewrite !list_lookup_total_alt, list_lookup_alter_ne; [done |].
  intros ->. by apply Hne.
Qed.

(** What a returning shape call has done to the store of a builder
    without pending data. *)
Lemma draw_effect s kw b b' :
  _data b = [] -> well_formed b ->
  draw s kw b = (inr tt, b') ->
  exists ex,
    explicit_keywords s = inr ex
    /\ _elem b' = _elem b /\ _data b' = []
    /\ length (heap b') = S (length (heap b))
    /\ deref b' (length (heap b))
       = Element (Name (shape_tag s)) (_fix_attrs (ex ++ kw)) (shape_body s)
           None []
    /\ (forall p rest, _elem b = p :: rest ->
          deref b' p = append (length (heap b)) (deref b p))
    /\ (forall i, i < length (heap b) -> head (_elem b) <> Some i ->
          deref b' i = deref b i)
    /\ (forall r, _root b = Some r -> _root b' = Some r).
Proof.
  intros Hd Hwf Hrun.
  destruct (draw_exact s kw b b' Hd Hwf Hrun) as (ex & Hex & ->).
  exists ex. unfold deref. simpl.
  split; [done |]. split; [done |]. split; [done |].
  split; [by rewrite length_app, length_attach, Nat.add_comm |].
  split; [by apply attach_new |].
  split; [| split].
  - intros p rest He. unfold well_formed in Hwf. rewrite He in Hwf |- *.
    apply Forall_cons in Hwf as [Hp _]. by apply attach_parent.
  - intros i Hi Hne. by apply attach_other.
  - intros r Hr. unfold root_after. rewrite Hr. by destruct (_elem b).
Qed.

(** X6.  On a builder without pending data, a shape call that returns
    stores one new element and changes nothing else than the innermost
    open element, which gains the new element as its last child and is
    otherwise as before; with no element open, no stored element changes
    and the new element is the child of none.  The root, once set, and
    the stack are as before. *)
Theorem shape_touches_only_parent (s : shape) (kw : dict value)
    (b b' : builder) :
  _data b = [] -> well_formed b ->
  draw s kw b = (inr tt, b') ->
  length (heap b') = S (length (heap b))
  /\ (forall p rest, _elem b = p :: rest ->
        deref b' p = append (length (heap b)) (deref b p))
  /\ (forall i, i < length (heap b) -> head (_elem b) <> Some i ->
        deref b' i = deref b i)
  /\ (forall r, _root b = Some r -> _root b' = Some r)
  /\ _elem b' = _elem b /\ _data b' = [].
Proof.
  intros Hd Hwf Hrun.
  destruct (draw_effect s kw b b' Hd Hwf Hrun)
    as (ex & _ & He & Hd' & Hlen & _ & Hparent & Hother & Hroot).
  repeat split; done.
Qed.

(** *** Builders reached with the class's own methods hold no pending data *)

Lemma start_data t attrs b : _data (TreeBuilder.start t attrs b).2 = [].
Proof.
  rewrite start_run. pose proof (flushed_data (log (CStart t attrs) b)) as Hd.
  unfold TreeBuilder.open_element.
  destruct (_elem (flushed _)); [| done]. by destruct (_root (flushed _)).
Qed.

Lemma end_data t b : _data (TreeBuilder.end_ t b).2 = [].
Proof.
  rewrite end_run. pose proof (flushed_data (log (CEnd t) b)) as Hd.
  unfold TreeBuilder.pop. by destruct (_elem (flushed _)).
Qed.

Lemma start_end_data t attrs b :
  _data ((_ <- TreeBuilder.start t attrs ;;
          _ <- TreeBuilder.end_ t ;; ret tt) b).2 = [].
Proof.
  unfold bind at 1. pose proof (start_data t attrs b) as Hd.
  destruct (TreeBuilder.start t attrs b) as [[e|n] b1]; [done |].
  rewrite bind_ret_state. apply end_data.
Qed.

Lemma start_data_end_data t attrs body b :
  _data ((_ <- TreeBuilder.start t attrs ;;
          TreeBuilder.data body ;;;
          _ <- TreeBuilder.end_ t ;; ret tt) b).2 = [].
Proof.
  unfold bind at 1. pose proof (start_data t attrs b) as Hd.
  destruct (TreeBuilder.start t attrs b) as [[e|n] b1]; [done |].
  unfold bind at 1, TreeBuilder.data, modify at 1.
  rewrite bind_ret_state. apply end_data.
Qed.

Lemma emit_data s args b : _data b = [] -> _data (emit s args b).2 = [].
Proof.
  intros Hd.
  destruct s as [cx cy r|x1 y1 x2 y2|x y w h|body x y|cx cy r alpha theta];
    simpl; try apply start_data_end_data;
    unfold item; rewrite lift_bind_state;
    (destruct (bind_kwargs _ args); [done | apply start_end_data]).
Qed.

Lemma run_data op b :
  own op = true -> _data b = [] -> well_formed b -> _data (run op b).2 = [].
Proof.
  intros Hown Hd Hwf.
  destruct op as [t attrs|t|s| |t kw|s kw|kw| |x y kw|h|file enc decl];
    try done; simpl.
  - unfold item. rewrite lift_bind_state.
    destruct (bind_kwargs _ kw) as [e|kwargs]; [done |].
    apply start_end_data.
  - rewrite draw_staged. rewrite lift_bind_state.
    destruct (bind_kwargs _ kw) as [e|kwargs]; [done |].
    rewrite lift_bind_state.
    destruct (explicit_keywords s) as [e|ex]; [done |].
    rewrite lift_bind_state.
    destruct (call_kw ex kwargs) as [e|args]; [done |].
    by apply emit_data.
  - rewrite bind_ret_state. unfold g. rewrite lift_bind_state.
    destruct (bind_kwargs _ kw) as [e|kwargs]; [done |].
    rewrite (bind_ret_state _ (fun _ => _SVGGroup.__init__ "g")).
    apply start_data.
  - rewrite bind_ret_state. unfold text_group. rewrite lift_bind_state.
    destruct (bind_kwargs _ kw) as [e|kwargs]; [done |].
    rewrite lift_bind_state.
    destruct (call_kw _ kwargs) as [e|args]; [done |].
    rewrite (bind_ret_state _ (fun _ => _SVGGroup.__init__ "text")).
    apply start_data.
  - unfold _SVGGroup.__exit__. rewrite (bind_ret_state _ (fun _ => tt)).
    apply end_data.
  - rewrite bind_ret_state. unfold write, bind at 1.
    pose proof (end_data "svg" b) as Hd1.
    destruct (TreeBuilder.end_ "svg" b) as [[e|n] b1]; [done |]. simpl in *.
    unfold bind, TreeBuilder.close. simpl.
    by destruct (_root b1).
Qed.

Lemma init_data width height kw now b0 b :
  __init__ width height kw now b0 = (inr tt, b) -> _data b = [].
Proof.
  unfold __init__, bind at 1, lift at 1.
  destruct (bind_kwargs _ kw) as [e|kwargs]; [done |].
  unfold bind at 1, modify at 1. unfold bind at 1, lift at 1.
  destruct (call_kw _ kwargs) as [e|args]; [done |].
  cbv zeta. set (attrs := match height with VNone => _ | _ => _ end).
  by intros [= <-].
Qed.

Lemma reachable_own_reachable b : reachable_own b -> reachable b.
Proof.
  induction 1 as [width height kw now b0 b Hnew | op b _ _ IH].
  - by eapply reach_new.
  - by apply reach_call.
Qed.

(** X7.  A builder reached from the constructor with the class's own
    methods and the release of handles, whatever each call's outcome,
    holds no pending character data, so that the next call has nothing
    to flush, and its open elements are stored. *)
Theorem own_calls_keep_builder_ready (b : builder) :
  reachable_own b ->
  _data b = [] /\ flushable b = true /\ well_formed b.
Proof.
  intros Hreach.
  assert (well_formed b) as Hwf
    by (by apply reachable_well_formed, reachable_own_reachable).
  assert (_data b = []) as Hd.
  { clear Hwf. induction Hreach as [width height kw now b0 b Hnew | op b Hown Hreach IH].
    - by eapply init_data.
    - apply run_data; [done | done |].
      by apply reachable_well_formed, reachable_own_reachable. }
  split; [done |]. split; [| done]. unfold flushable. by rewrite Hd.
Qed.

(** *** Groups and their scopes *)

Lemma group_attrs_split gr kw :
  avoids (group_parameters gr) kw = true ->
  _fix_attrs (group_keywords gr ++ kw)
  = map (fun kv => (kv.1, py_str kv.2)) (group_keywords gr) ++ _fix_attrs kw.
Proof.
  intros Hav. destruct gr as [|x y]; [done |].
  change (_fix_attrs ([("x", x); ("y", y)] ++ kw)
          = [("x", py_str x); ("y", py_str y)] ++ _fix_attrs kw).
  rewrite (fix_attrs_disjoint_app [("x", x); ("y", y)] kw); [done |].
  intros k1 k2 Hk1 Hk2 Heq. simpl in Hk1, Hav.
  eapply (avoided_after_normalisation ["self"; "x"; "y"] kw k2
            (replace_underscores k1)); try done;
    split_members Hk1; subst k1; try done; simpl; member.
Qed.

(** X8.  [g] and [text_group], called on a builder with an element open
    with keywords that are distinct and name no parameter, return a
    handle for the element they have opened: a new element
    without text or children, innermost on the stack and last child of
    the element that was innermost, whose attributes are those for the
    arguments ([x] and [y] for [text_group]) followed by the normalised
    extras. *)
Theorem group_opens (gr : group) (kw : dict value) (b : builder) :
  _elem b <> [] -> well_formed b ->
  NoDup (keys kw) -> avoids (group_parameters gr) kw = true ->
  exists b',
    open_group gr kw b = (inr (_SVGGroup.__init__ (group_tag gr)), b')
    /\ opened b b' (group_tag gr)
         (map (fun kv => (kv.1, py_str kv.2)) (group_keywords gr)
          ++ _fix_attrs kw).
Proof.
  intros Hopen Hwf Hnd Hav. rewrite <- group_attrs_split by done.
  destruct (start_spec (group_tag gr) (_fix_attrs (group_keywords gr ++ kw))
              b Hwf (open_can_open b Hopen))
    as (b1 & Hrun & He & Hd & _ & _ & Hc & Hlen & Hnew & Hparent).
  exists b1. split; [| by constructor].
  destruct gr as [|x y]; simpl in *.
  - unfold g, bind at 1, lift at 1. rewrite bind_kwargs_avoids by done.
    unfold bind, ret. by rewrite Hrun.
  - unfold text_group, bind at 1, lift at 1.
    rewrite bind_kwargs_avoids by done. unfold bind at 1, lift at 1.
    rewrite call_kw_avoids;
      [| by (eapply avoids_weaken; [| exact Hav]) | done].
    unfold bind, ret. simpl. by rewrite Hrun.
Qed.

Lemma end_quiet_exact t b top rest :
  _data b = [] -> _elem b = top :: rest ->
  TreeBuilder.end_ t b
  = (inr top,
     Builder (heap b) [] rest (Some top) (_root b) true (svg b)
       (calls b ++ [CEnd t])).
Proof.
  destruct b as [h d st l r tl sv cs]. simpl. by intros -> ->.
Qed.

(** X9.  If the body of a [with] statement leaves the builder with an
    element open, the element of the handle's tag or any other, then
    leaving the scope closes the innermost open element and the outcome
    of the statement is the body's own, a value or an exception alike. *)
Theorem scope_closes_group {A} (h : _SVGGroup.t) (body : _SVGGroup.t -> M A)
    (b b2 : builder) (outcome : result A) (top : nat) (rest : list nat) :
  body h b = (outcome, b2) ->
  _elem b2 = top :: rest ->
  exists b3,
    with_ h body b = (outcome, b3)
    /\ _elem b3 = rest
    /\ _root b3 = _root b2
    /\ calls b3 = calls b2 ++ [CEnd (_SVGGroup.tag h)].
Proof.
  intros Hbody He.
  unfold with_, _SVGGroup.__enter__, ret. rewrite Hbody.
  pose proof (end_outcome (_SVGGroup.tag h) b2) as Hout.
  rewrite He in Hout.
  destruct Hout as (b3 & Hrun & He3 & Hc3 & Hr3 & _).
  unfold _SVGGroup.__exit__, bind, ret. rewrite Hrun. by exists b3.
Qed.

(** *** Shapes in sequence, and in a group *)

Lemma extend_nil e : extend [] e = e.
Proof. destruct e. unfold extend. simpl. by rewrite app_nil_r. Qed.

Lemma extend_append n cs e : extend cs (append n e) = extend (n :: cs) e.
Proof. unfold extend, append. simpl. by rewrite <- app_assoc. Qed.

Lemma head_stored b p : well_formed b -> head (_elem b) = Some p -> p < length (heap b).
Proof.
  unfold well_formed. destruct (_elem b) as [|q rest]; [done |].
  intros [Hq _]%Forall_cons [= <-]. done.
Qed.

Lemma draw_all_spec cs b :
  _data b = [] -> well_formed b -> _elem b <> [] -> Forall drawable cs ->
  exists b',
    draw_all cs b = (inr tt, b')
    /\ _elem b' = _elem b /\ _data b' = []
    /\ length (heap b') = length (heap b) + length cs
    /\ (forall p rest, _elem b = p :: rest ->
          deref b' p
          = extend (seq (length (heap b)) (length cs)) (deref b p))
    /\ (forall i, i < length (heap b) -> head (_elem b) <> Some i ->
          deref b' i = deref b i)
    /\ (forall r, _root b = Some r -> _root b' = Some r)
    /\ forall i s kw, cs !! i = Some (s, kw) ->
         exists ex,
           explicit_keywords s = inr ex
           /\ deref b' (length (heap b) + i)
              = Element (Name (shape_tag s)) (_fix_attrs (ex ++ kw))
                  (shape_body s) None [].
Proof.
  revert b. induction cs as [|[s kw] cs IH]; intros b Hd Hwf Hopen Hcs.
  - exists b. simpl. rewrite Nat.add_0_r.
    repeat split; try done. intros p rest _. by rewrite extend_nil.
  - apply Forall_cons in Hcs as [(Hnd & Hav & ex & Hex) Hcs]. simpl in *.
    destruct (draw_emits s kw b ex Hwf (open_can_open b Hopen) Hnd Hav Hex)
      as (b1 & Hrun1 & _).
    destruct (draw_effect s kw b b1 Hd Hwf Hrun1)
      as (ex1 & Hex1 & He1 & Hd1 & Hlen1 & Hnew1 & Hpar1 & Hoth1 & Hroot1).
    assert (well_formed b1) as Hwf1.
    { pose proof (preserves_run (OpDraw s kw) b Hwf) as H.
      simpl in H. by rewrite Hrun1 in H. }
    destruct (IH b1 Hd1 Hwf1 ltac:(by rewrite He1) Hcs)
      as (b' & Hrun & He & Hd' & Hlen & Hpar & Hoth & Hroot & Hnew).
    rewrite Hlen1, He1 in *.
    exists b'. unfold bind. rewrite Hrun1.
    split; [done |]. split; [done |]. split; [done |].
    split; [lia |]. split; [| split; [| split]].
    + intros p rest Hp. rewrite (Hpar p rest Hp), (Hpar1 p rest Hp).
      apply extend_append.
    + intros i Hi Hne. rewrite Hoth by (done || lia). by apply Hoth1.
    + intros r Hr. by apply Hroot, Hroot1.
    + intros [|i] s0 kw0 Hi; simpl in Hi.
      * injection Hi as <- <-. exists ex1. split; [done |].
        rewrite Nat.add_0_r, Hoth; [done | lia |].
        intros Hh%(head_stored b); [lia | done].
      * destruct (Hnew i s0 kw0 Hi) as (ex0 & Hex0 & Hel).
        exists ex0. split; [done |]. by rewrite Nat.add_succ_r.
Qed.

(** X10.  Well-formed shape calls made one after the other on a builder
    with an element open and without pending data all return; the stack
    is as before, and the
    shapes are stored at consecutive addresses and are, in call order,
    the last children of the innermost open element. *)
Theorem shapes_in_sequence (cs : list (shape * dict value)) (b : builder) :
  _data b = [] -> well_formed b -> _elem b <> [] -> Forall drawable cs ->
  exists b',
    draw_all cs b = (inr tt, b')
    /\ _elem b' = _elem b
    /\ length (heap b') = length (heap b) + length cs
    /\ (forall p rest, _elem b = p :: rest ->
          e_children (deref b' p)
          = e_children (deref b p) ++ seq (length (heap b)) (length cs))
    /\ forall i s kw, cs !! i = Some (s, kw) ->
         e_tag (deref b' (length (heap b) + i)) = Name (shape_tag s)
         /\ e_text (deref b' (length (heap b) + i)) = shape_body s
         /\ e_children (deref b' (length (heap b) + i)) = [].
Proof.
  intros Hd Hwf Hopen Hcs.
  destruct (draw_all_spec cs b Hd Hwf Hopen Hcs)
    as (b' & Hrun & He & _ & Hlen & Hpar & _ & _ & Hnew).
  exists b'. split; [done |]. split; [done |]. split; [done |]. split.
  - intros p rest Hp. by rewrite (Hpar p rest Hp).
  - intros i s kw Hi. destruct (Hnew i s kw Hi) as (ex & _ & ->). done.
Qed.

Lemma open_group_exact gr kw b :
  _data b = [] -> well_formed b -> can_open b = true ->
  NoDup (keys kw) -> avoids (group_parameters gr) kw = true ->
  open_group gr kw b
  = (inr (_SVGGroup.__init__ (group_tag gr)),
     Builder (attach (length (heap b)) (_elem b) (heap b)
                ++ [Element (Name (group_tag gr))
                      (_fix_attrs (group_keywords gr ++ kw)) None None []])
       [] (length (heap b) :: _elem b) (Some (length (heap b)))
       (root_after (length (heap b)) b) false (svg b)
       (calls b
          ++ [CStart (group_tag gr) (_fix_attrs (group_keywords gr ++ kw))])).
Proof.
  intros Hd Hwf Hopen Hnd Hav.
  pose proof (start_exact (group_tag gr)
                (_fix_attrs (group_keywords gr ++ kw)) b Hd Hwf Hopen) as Hrun.
  destruct gr as [|x y]; simpl in *.
  - unfold g, bind at 1, lift at 1. rewrite bind_kwargs_avoids by done.
    unfold bind, ret. by rewrite Hrun.
  - unfold text_group, bind at 1, lift at 1.
    rewrite bind_kwargs_avoids by done. unfold bind at 1, lift at 1.
    rewrite call_kw_avoids;
      [| by (eapply avoids_weaken; [| exact Hav]) | done].
    unfold bind, ret. simpl. by rewrite Hrun.
Qed.

(** X11.  Opening a group and drawing well-formed shapes in its scope, on
    a builder with an element open and without pending data, returns
    with the stack as before.
    The group is stored with the attributes of [g] or [text_group] and
    has exactly the shapes as its children, in call order; the element
    that was innermost gains the group as its last child and nothing
    else changes in the elements stored before. *)
Theorem group_of_shapes (gr : group) (kw : dict value)
    (cs : list (shape * dict value)) (b : builder) :
  _data b = [] -> well_formed b -> _elem b <> [] ->
  NoDup (keys kw) -> avoids (group_parameters gr) kw = true ->
  Forall drawable cs ->
  exists b',
    (h <- open_group gr kw ;; with_ h (fun _ => draw_all cs)) b = (inr tt, b')
    /\ _elem b' = _elem b
    /\ length (heap b') = S (length (heap b)) + length cs
    /\ deref b' (length (heap b))
       = Element (Name (group_tag gr))
           (map (fun kv => (kv.1, py_str kv.2)) (group_keywords gr)
            ++ _fix_attrs kw)
           None None (seq (S (length (heap b))) (length cs))
    /\ (forall p rest, _elem b = p :: rest ->
          deref b' p = append (length (heap b)) (deref b p))
    /\ (forall i, i < length (heap b) -> head (_elem b) <> Some i ->
          deref b' i = deref b i)
    /\ forall i s kwi, cs !! i = Some (s, kwi) ->
         e_tag (deref b' (S (length (heap b)) + i)) = Name (shape_tag s)
         /\ e_text (deref b' (S (length (heap b)) + i)) = shape_body s
         /\ e_children (deref b' (S (length (heap b)) + i)) = [].
Proof.
  intros Hd Hwf Hopen Hnd Hav Hcs. unfold bind at 1.
  rewrite open_group_exact by (done || by apply open_can_open).
  set (n := length (heap b)).
  set (attrs := _fix_attrs (group_keywords gr ++ kw)).
  set (b1 := Builder _ _ _ _ _ _ _ _).
  assert (length (heap b1) = S n) as Hlen1
    by (subst b1; simpl; rewrite length_app, length_attach; simpl; lia).
  assert (well_formed b1) as Hwf1.
  { unfold well_formed. rewrite Hlen1. subst b1. simpl.
    constructor; [lia |]. eapply Forall_impl; [exact Hwf |]. simpl.
    intros i Hi. fold n in Hi. lia. }
  assert (deref b1 n = Element (Name (group_tag gr)) attrs None None [])
    as Hnew1 by (by apply attach_new).
  destruct (draw_all_spec cs b1 eq_refl Hwf1 ltac:(done) Hcs)
    as (b2 & Hrun2 & He2 & Hd2 & Hlen2 & Hpar2 & Hoth2 & _ & Hnew2).
  rewrite Hlen1 in *.
  assert (deref b2 n
          = Element (Name (group_tag gr)) attrs None None
              (seq (S n) (length cs))) as Hgroup.
  { rewrite (Hpar2 n (_elem b)) by done. by rewrite Hnew1. }
  unfold with_, _SVGGroup.__enter__, ret. rewrite Hrun2.
  unfold _SVGGroup.__exit__, bind at 1. simpl _SVGGroup.tag.
  rewrite (end_quiet_exact (group_tag gr) b2 n (_elem b)); [| done | done].
  eexists. split; [reflexivity |]. unfold deref in *. simpl.
  split; [done |]. split; [done |]. split; [| split; [| split]].
  - rewrite Hgroup. f_equal. subst attrs. by apply group_attrs_split.
  - intros p rest Hp.
    assert (p < n) as Hlt
      by (apply (head_stored b); [done | by rewrite Hp]).
    rewrite Hoth2; [| lia | simpl; intros [= ?]; lia].
    subst b1. simpl. rewrite Hp. by apply attach_parent.
  - intros i Hi Hne.
    rewrite Hoth2; [| lia | simpl; intros [= ?]; lia].
    subst b1. simpl. by apply attach_other.
  - intros i s kwi Hi. destruct (Hnew2 i s kwi Hi) as (ex & _ & Hel).
    simpl in Hel. by rewrite Hel.
Qed.

(** *** After [write] *)

Lemma write_returns file enc decl b w b1 :
  write file enc decl b = (inr w, b1) ->
  _elem b <> [] /\ _elem b1 = tail (_elem b) /\ _data b1 = []
  /\ _root b1 = Some (tw_root w) /\ heap b1 = heap (flushed b).
Proof.
  intros Hrun. pose proof (end_outcome "svg" b) as Hout.
  pose proof (end_data "svg" b) as Hd.
  revert Hrun. unfold write, bind at 1.
  destruct (_elem b) as [|x rest].
  - by destruct Hout as (b' & -> & _).
  - destruct Hout as (b' & Hrun & He & _ & Hr & _ & Hh).
    rewrite Hrun in Hd |- *. simpl in Hd.
    unfold bind, TreeBuilder.close, ret, raise. simpl.
    destruct (_root b') as [r|] eqn:Hr'; [| done].
    intros [= <- <-]. simpl. by repeat split.
Qed.

(** X12.  Each [write] that returns closes one element, the innermost.
    After a [write] that returned and left nothing open, as it does when
    the root was the only open element, a second [write], whatever its
    arguments, raises the [IndexError] of popping from the empty stack
    and stores nothing; after one that left elements open, a second
    [write] returns as well, for the same root, and closes the next
    element. *)
Theorem write_again (file enc file' enc' : string) (decl decl' : bool)
    (b b1 : builder) (w : tree_write) :
  write file enc decl b = (inr w, b1) ->
  _elem b1 = tail (_elem b)
  /\ (_elem b1 = [] ->
      exists b2,
        write file' enc' decl' b1
        = (inl (IndexError "pop from empty stack"), b2)
        /\ heap b2 = heap b1)
  /\ (_elem b1 <> [] ->
      exists b2,
        write file' enc' decl' b1
        = (inr (TreeWrite (tw_root w) file' enc' decl'), b2)
        /\ _elem b2 = tail (_elem b1) /\ heap b2 = heap b1).
Proof.
  intros (_ & He & Hd & Hr & _)%write_returns. split; [done |].
  pose proof (end_outcome "svg" b1) as Hout.
  rewrite (flushed_idle b1 Hd) in Hout.
  split.
  - intros He1. rewrite He1 in Hout.
    destruct Hout as (b2 & Hrun & _ & _ & Hh).
    exists b2. split; [| done]. unfold write, bind at 1. by rewrite Hrun.
  - intros He1. destruct (_elem b1) as [|x rest] eqn:Hst; [done |].
    destruct (write_run file' enc' decl' b1 x rest (tw_root w) Hst Hr)
      as (b2 & Hrun & He2 & _ & _ & Hh & _).
    exists b2. by rewrite (flushed_idle b1 Hd) in Hh.
Qed.

Lemma avoids_intro names kw :
  (forall k, k ∈ keys kw -> k ∉ names) -> avoids names kw = true.
Proof.
  intros Hfree. unfold avoids. apply forallb_forall. intros k Hk.
  apply negb_true_iff, bool_decide_eq_false_2, Hfree.
  by apply list_elem_of_In.
Qed.

(** A well-formed shape call gets as far as the [TreeBuilder] calls. *)
Lemma draw_drawable s kw b ex :
  NoDup (keys kw) -> avoids (reserved_names s) kw = true ->
  explicit_keywords s = inr ex ->
  draw s kw b = emit s (ex ++ kw) b
  /\ (shape_body s = None -> avoids ["self"; "tag"] (ex ++ kw) = true).
Proof.
  intros Hnd Hav Hex. pose proof (explicit_keys s ex Hex) as Hkeys.
  assert (avoids (parameters s) kw = true) as Hpar
    by (eapply avoids_weaken; [| exact Hav]; by destruct s).
  assert (avoids (keys ex) kw = true) as Hgeo
    by (rewrite Hkeys; eapply avoids_weaken; [| exact Hav]; by destruct s).
  split.
  - rewrite draw_staged. unfold bind at 1, lift at 1.
    rewrite bind_kwargs_avoids by done. unfold bind at 1, lift at 1.
    rewrite Hex. unfold bind at 1, lift at 1.
    by rewrite call_kw_avoids.
  - intros Hbody. apply avoids_app.
    + apply avoids_intro. intros k Hk. rewrite Hkeys in Hk.
      by destruct (geometry_names_plain s k Hk).
    + eapply avoids_weaken; [| exact Hav]. by destruct s.
Qed.

Lemma emit_refused s args b :
  can_open b = false -> _data b = [] ->
  (shape_body s = None -> avoids ["self"; "tag"] args = true) ->
  emit s args b
  = (inl (ParseError "multiple elements on top level"),
     with_tail false (log (CStart (shape_tag s) (_fix_attrs args)) b)).
Proof.
  intros Hopen Hd Hav.
  assert (forall t attrs,
            TreeBuilder.start t attrs b
            = (inl (ParseError "multiple elements on top level"),
               with_tail false (log (CStart t attrs) b))) as Hstart.
  { intros t attrs. rewrite start_refused by done. by rewrite flushed_idle. }
  destruct s as [cx cy r|x1 y1 x2 y2|x y w h|body x y|cx cy r alpha theta];
    simpl in *;
    try (unfold item, bind at 1, lift at 1;
         rewrite bind_kwargs_avoids by (by apply Hav));
    unfold bind at 1; by rewrite Hstart.
Qed.

(** X13.  After a [write] that returned and left nothing open, a
    well-formed shape call raises [ParseError('multiple elements on top
    level')]: [start] refuses a second top-level element.  Nothing is
    stored, nothing is open, and the root is the one that was written. *)
Theorem shapes_after_write_are_refused (file enc : string) (decl : bool)
    (b b1 : builder) (w : tree_write) (s : shape) (kw : dict value) :
  write file enc decl b = (inr w, b1) ->
  _elem b1 = [] ->
  drawable (s, kw) ->
  exists b2,
    draw s kw b1 = (inl (ParseError "multiple elements on top level"), b2)
    /\ heap b2 = heap b1
    /\ _root b2 = Some (tw_root w)
    /\ _elem b2 = [].
Proof.
  intros (_ & _ & Hd & Hr & _)%write_returns He (Hnd & Hav & ex & Hex).
  simpl in Hnd, Hav, Hex.
  destruct (draw_drawable s kw b1 ex Hnd Hav Hex) as [-> Hitem].
  rewrite emit_refused; [| by (unfold can_open; rewrite He, Hr) | done | done].
  by eexists.
Qed.

(** *** What no call undoes *)

Lemma grows_refl b : grows b b.
Proof.
  split; [done |]. split; [done |]. split; [done |]. intros i Hi.
  split; [done |]. split; [done |]. split; [done |].
  split; intros s ->; exists ""; by rewrite append_empty_r.
Qed.

Lemma grows_trans b1 b2 b3 : grows b1 b2 -> grows b2 b3 -> grows b1 b3.
Proof.
  intros (Hl1 & Hs1 & Hr1 & He1) (Hl2 & Hs2 & Hr2 & He2).
  split; [lia |]. split; [congruence |]. split; [by intros r ?%Hr1%Hr2 |].
  intros i Hi.
  destruct (He1 i Hi) as (Ht1 & Ha1 & Hc1 & Hx1 & Hy1).
  destruct (He2 i ltac:(lia)) as (Ht2 & Ha2 & Hc2 & Hx2 & Hy2).
  split; [congruence |]. split; [congruence |].
  split; [by etrans |]. split.
  - intros s Hs. destruct (Hx1 s Hs) as [s1 H1].
    destruct (Hx2 _ H1) as [s2 H2]. exists (s1 +:+ s2).
    by rewrite H2, append_assoc.
  - intros s Hs. destruct (Hy1 s Hs) as [s1 H1].
    destruct (Hy2 _ H1) as [s2 H2]. exists (s1 +:+ s2).
    by rewrite H2, append_assoc.
Qed.

Lemma grows_same b b' :
  heap b' = heap b -> svg b' = svg b -> _root b' = _root b -> grows b b'.
Proof.
  intros Hh Hs Hr. unfold grows, deref. rewrite Hh, Hs, Hr.
  split; [done |]. split; [done |]. split; [done |]. intros i Hi.
  split; [done |]. split; [done |]. split; [done |].
  split; intros s ->; exists ""; by rewrite append_empty_r.
Qed.

Lemma grows_update l f b :
  e_tag (f (deref b l)) = e_tag (deref b l) ->
  e_attrib (f (deref b l)) = e_attrib (deref b l) ->
  e_children (deref b l) `prefix_of` e_children (f (deref b l)) ->
  (forall s, e_text (deref b l) = Some s ->
             exists s', e_text (f (deref b l)) = Some (s +:+ s')) ->
  (forall s, e_tail (deref b l) = Some s ->
             exists s', e_tail (f (deref b l)) = Some (s +:+ s')) ->
  grows b (update l f b).
Proof.
  intros Ht Ha Hc Hx Hy. unfold grows, update. simpl.
  split; [by rewrite length_alter |]. split; [done |]. split; [done |].
  intros i Hi. unfold deref in *. simpl.
  destruct (decide (l = i)) as [-> | Hne].
  - rewrite list_lookup_total_alter_eq by done. done.
  - rewrite list_lookup_total_alter_ne by done.
    split; [done |]. split; [done |]. split; [done |].
    split; intros s ->; exists ""; by rewrite append_empty_r.
Qed.

Lemma growing_ret {A} (a : A) : growing (ret a).
Proof. intros b. apply grows_refl. Qed.

Lemma growing_raise {A} (e : exn) : growing (@raise A e).
Proof. intros b. apply grows_refl. Qed.

Lemma growing_lift {A} (r : result A) : growing (lift r).
Proof. intros b. apply grows_refl. Qed.

Lemma growing_bind {A B} (m : M A) (k : A -> M B) :
  growing m -> (forall a, growing (k a)) -> growing (bind m k).
Proof.
  intros Hm Hk b. unfold bind. specialize (Hm b).
  destruct (m b) as [[e|a] b1]; [done |].
  eapply grows_trans; [exact Hm | apply Hk].
Qed.

Lemma growing_log c : growing (modify (log c)).
Proof. intros b. by apply grows_same. Qed.

Lemma growing_data s : growing (TreeBuilder.data s).
Proof.
  intros b. unfold TreeBuilder.data, modify. simpl.
  destruct (_data b); [destruct (_last b) |]; by apply grows_same.
Qed.

Lemma growing_flush : growing TreeBuilder._flush.
Proof.
  intros b. unfold TreeBuilder._flush.
  destruct (_data b) as [|d ds]; [apply grows_refl |].
  destruct (_last b) as [l|]; [| by apply grows_same].
  eapply grows_trans; [| by apply grows_same].
  destruct (_tail b); apply grows_update; simpl; try done;
    try (intros s ->; exists ""; by rewrite append_empty_r);
    intros s ->; by eexists.
Qed.

Lemma growing_open_element t attrs : growing (TreeBuilder.open_element t attrs).
Proof.
  intros b. unfold TreeBuilder.open_element.
  set (e := Element (Name t) attrs None None []).
  assert (grows b (with_heap (heap b ++ [e]) b)) as Hnew.
  { unfold grows, deref. simpl. rewrite length_app. simpl.
    split; [lia |]. split; [done |]. split; [done |].
    intros i Hi. rewrite lookup_total_app_l by done.
    split; [done |]. split; [done |]. split; [done |].
    split; intros s ->; exists ""; by rewrite append_empty_r. }
  destruct (_elem b) as [|p rest]; simpl.
  - destruct (_root b) as [r|] eqn:Er; simpl.
    + by apply grows_same.
    + destruct Hnew as (Hl & Hs & _ & He).
      split; [exact Hl |]. split; [done |].
      split; [intros r0 Hr0; congruence | exact He].
  - eapply grows_trans; [exact Hnew |].
    eapply grows_trans; [| by apply grows_same].
    apply grows_update; simpl; try done;
      [by apply prefix_app_r | |];
      intros s ->; exists ""; by rewrite append_empty_r.
Qed.

Lemma growing_start t attrs : growing (TreeBuilder.start t attrs).
Proof.
  unfold TreeBuilder.start.
  apply growing_bind; [apply growing_log |]. intros _.
  apply growing_bind; [apply growing_flush |]. intros _.
  apply growing_open_element.
Qed.

Lemma growing_pop : growing TreeBuilder.pop.
Proof.
  intros b. unfold TreeBuilder.pop.
  destruct (_elem b) as [|l rest]; [apply grows_refl |].
  by apply grows_same.
Qed.

Lemma growing_end t : growing (TreeBuilder.end_ t).
Proof.
  unfold TreeBuilder.end_.
  apply growing_bind; [apply growing_log |]. intros _.
  apply growing_bind; [apply growing_flush |]. intros _.
  apply growing_pop.
Qed.

Lemma growing_close : growing TreeBuilder.close.
Proof. intros b. by apply grows_same. Qed.

Lemma growing_run op : growing (run op).
Proof.
  destruct op as [t attrs|t|s| |t kw|s kw|kw| |x y kw|h|file enc decl];
    simpl; try destruct s;
    unfold draw, circle, line, rect, text, circle_sector, item, g, defs,
      text_group, write, _SVGGroup.__exit__,
      TreeBuilder.start_without_attrs;
    repeat first
      [ apply growing_lift | apply growing_start | apply growing_end
      | apply growing_data | apply growing_close | apply growing_ret
      | apply growing_raise
      | match goal with
        | |- growing (match ?x with _ => _ end) => destruct x
        end
      | apply growing_bind; [| intros ?; cbv beta] ].
Qed.

Lemma run_all_grows ops b : grows b (run_all ops b).
Proof.
  revert b. induction ops as [|op ops IH]; intros b; simpl.
  - apply grows_refl.
  - eapply grows_trans; [apply growing_run | apply IH].
Qed.

(** X14.  No sequence of calls, inherited methods included and whatever
    the outcome of each, removes a stored element or changes its tag or
    its attributes; children are only added, after those an element has;
    a text or a tail that is set is only added to, at its end; and the
    root, once set, and the [svg] attribute stay the same. *)
Theorem calls_only_add (ops : list operation) (b : builder) :
  length (heap b) <= length (heap (run_all ops b))
  /\ svg (run_all ops b) = svg b
  /\ (forall r, _root b = Some r -> _root (run_all ops b) = Some r)
  /\ forall i, i < length (heap b) ->
       e_tag (deref (run_all ops b) i) = e_tag (deref b i)
       /\ e_attrib (deref (run_all ops b) i) = e_attrib (deref b i)
       /\ e_children (deref b i)
            `prefix_of` e_children (deref (run_all ops b) i)
       /\ (forall s, e_text (deref b i) = Some s ->
             exists s', e_text (deref (run_all ops b) i) = Some (s +:+ s'))
       /\ (forall s, e_tail (deref b i) = Some s ->
             exists s', e_tail (deref (run_all ops b) i) = Some (s +:+ s')).
Proof.
  destruct (run_all_grows ops b) as (Hlen & Hsvg & Hroot & Helem).
  split; [done |]. split; [done |]. split; [done |].
  intros i Hi. by apply Helem.
Qed.

(** An element that is stored and is neither open nor the one the
    builder opened or closed last is out of every call's reach: no call
    changes it, and it stays so. *)
Lemma aside_deref_update c l f b :
  l <> c -> deref (update l f b) c = deref b c.
Proof.
  intros Hne. unfold deref, update. simpl.
  by rewrite list_lookup_total_alter_ne.
Qed.

Lemma sparing_ret c {A} (a : A) : sparing c (ret a).
Proof. by intros b Hb. Qed.

Lemma sparing_raise c {A} (e : exn) : sparing c (@raise A e).
Proof. by intros b Hb. Qed.

Lemma sparing_lift c {A} (r : result A) : sparing c (lift r).
Proof. by intros b Hb. Qed.

Lemma sparing_bind c {A B} (m : M A) (k : A -> M B) :
  sparing c m -> (forall a, sparing c (k a)) -> sparing c (bind m k).
Proof.
  intros Hm Hk b Hb. unfold bind. specialize (Hm b Hb).
  destruct (m b) as [[e|a] b1]; [done |]. simpl in Hm.
  destruct Hm as [Hb1 Heq]. destruct (Hk a b1 Hb1) as [Hb2 Heq2].
  split; [done | congruence].
Qed.

Lemma sparing_log c k : sparing c (modify (log k)).
Proof. by intros b Hb. Qed.

Lemma sparing_data c s : sparing c (TreeBuilder.data s).
Proof.
  intros b Hb. unfold TreeBuilder.data, modify. simpl.
  destruct (_data b); [destruct (_last b) |]; done.
Qed.

Lemma sparing_flush c : sparing c TreeBuilder._flush.
Proof.
  intros b Hb. pose proof Hb as (Hlt & Hl & He). unfold TreeBuilder._flush.
  destruct (_data b) as [|d ds]; [done |].
  destruct (_last b) as [l|] eqn:El; [| done]. simpl.
  split.
  - unfold aside. simpl. rewrite length_alter, El. done.
  - apply aside_deref_update. by intros ->.
Qed.

Lemma sparing_open_element c t attrs :
  sparing c (TreeBuilder.open_element t attrs).
Proof.
  intros b Hb. pose proof Hb as (Hlt & Hl & He). unfold TreeBuilder.open_element.
  assert (forall x, (heap b ++ [x]) !!! c = heap b !!! c) as Hold
    by (intros x; by apply lookup_total_app_l).
  destruct (_elem b) as [|p rest] eqn:Est.
  - destruct (_root b); simpl.
    + split; [| done]. unfold aside. simpl. by rewrite Est.
    + split.
      * unfold aside. simpl. rewrite length_app. simpl.
        split; [lia |]. split; [intros [= ?]; lia |].
        intros ?%list_elem_of_singleton. lia.
      * unfold deref. simpl. apply Hold.
  - simpl. split.
    + unfold aside. simpl. rewrite length_alter, length_app. simpl.
      split; [lia |]. split; [intros [= ?]; lia |].
      intros [? | ?]%elem_of_cons; [lia | done].
    + unfold deref, update. simpl.
      rewrite list_lookup_total_alter_ne; [apply Hold |].
      intros ->. apply He, list_elem_of_here.
Qed.

Lemma sparing_start c t attrs : sparing c (TreeBuilder.start t attrs).
Proof.
  unfold TreeBuilder.start.
  apply sparing_bind; [apply sparing_log |]. intros _.
  apply sparing_bind; [apply sparing_flush |]. intros _.
  apply sparing_open_element.
Qed.

Lemma sparing_pop c : sparing c TreeBuilder.pop.
Proof.
  intros b Hb. pose proof Hb as (Hlt & Hl & He). unfold TreeBuilder.pop.
  destruct (_elem b) as [|l rest] eqn:Est; [by rewrite <- Est in He |].
  simpl. split; [| done]. unfold aside. simpl.
  split; [done |]. split.
  - intros [= ->]. apply He, list_elem_of_here.
  - intros Hin. by apply He, list_elem_of_further.
Qed.

Lemma sparing_end c t : sparing c (TreeBuilder.end_ t).
Proof.
  unfold TreeBuilder.end_.
  apply sparing_bind; [apply sparing_log |]. intros _.
  apply sparing_bind; [apply sparing_flush |]. intros _.
  apply sparing_pop.
Qed.

Lemma sparing_close c : sparing c TreeBuilder.close.
Proof. by intros b Hb. Qed.

Lemma sparing_run c op : sparing c (run op).
Proof.
  destruct op as [t attrs|t|s| |t kw|s kw|kw| |x y kw|h|file enc decl];
    simpl; try destruct s;
    unfold draw, circle, line, rect, text, circle_sector, item, g, defs,
      text_group, write, _SVGGroup.__exit__,
      TreeBuilder.start_without_attrs;
    repeat first
      [ apply sparing_lift | apply sparing_start | apply sparing_end
      | apply sparing_data | apply sparing_close | apply sparing_ret
      | apply sparing_raise
      | match goal with
        | |- sparing _ (match ?x with _ => _ end) => destruct x
        end
      | apply sparing_bind; [| intros ?; cbv beta] ].
Qed.

Lemma run_all_spares c ops b :
  aside c b ->
  aside c (run_all ops b) /\ deref (run_all ops b) c = deref b c.
Proof.
  revert b. induction ops as [|op ops IH]; intros b Hb; simpl; [done |].
  destruct (sparing_run c op b Hb) as [Hb1 Heq1].
  destruct (IH _ Hb1) as [Hb2 Heq2]. split; [done | congruence].
Qed.

(** *** The constructed builder *)

Lemma fix_attrs_key_origin kw k' :
  k' ∈ keys (_fix_attrs kw) ->
  exists k, k ∈ keys kw /\ replace_underscores k = k'.
Proof.
  unfold _fix_attrs. intros [Hin | H]%fix_attrs_fold_keys; [| done].
  by apply elem_of_nil in Hin.
Qed.

Lemma fix_attrs_avoids names kw n :
  avoids names kw = true -> n ∈ names -> no_hyphen n = true ->
  n ∉ keys (_fix_attrs kw).
Proof.
  intros Hav Hn Hnh (k & Hk & Heq)%fix_attrs_key_origin.
  by apply (avoided_after_normalisation names kw k n).
Qed.

Lemma set_optional name v attrs :
  name ∉ keys attrs ->
  match v with
  | VNone => attrs
  | _ => dict_set name (py_str v) attrs
  end = attrs ++ optional_attr name v.
Proof.
  intros Hfresh. destruct v; simpl; rewrite ?app_nil_r; try done;
    by apply dict_set_fresh.
Qed.

Lemma keys_optional_attr name v k :
  k ∈ keys (optional_attr name v) -> k = name.
Proof.
  destruct v; simpl; intros Hk; split_members Hk; done.
Qed.

Lemma init_shape width height kw now b0 b :
  __init__ width height kw now b0 = (inr tt, b) ->
  exists attrs,
    b = Builder
          [Element (Name "svg") attrs None None [1];
           Element CommentTag []
             (Some ("vbl-stats svg generated at " +:+ now)) None []]
          [] [0] (Some 0) (Some 0) false (Some 0) [CStart "svg" attrs].
Proof.
  unfold __init__, bind at 1, lift at 1.
  destruct (bind_kwargs _ kw) as [e|kwargs] eqn:E1; [done |].
  unfold bind at 1, modify at 1. unfold bind at 1, lift at 1.
  destruct (call_kw _ kwargs) as [e|args] eqn:E2; [done |].
  cbv zeta. set (attrs := match height with VNone => _ | _ => _ end).
  intros [= <-]. by exists attrs.
Qed.

(** X15.  Whatever its arguments, a constructor that returns leaves the
    same builder but for the attributes and the time: two stored
    elements, the [svg] root and the comment that is its only child, the
    root alone open, no pending data.  The root's attributes are [xmlns]
    and [version], then the normalised extras, then the width and the
    height that were given, each as [str] prints it. *)
Theorem init_builder (width height : value) (kw : dict value) (now : string)
    (b0 b : builder) :
  __init__ width height kw now b0 = (inr tt, b) ->
  b = Builder
        [Element (Name "svg") (root_attributes width height kw) None None [1];
         Element CommentTag []
           (Some ("vbl-stats svg generated at " +:+ now)) None []]
        [] [0] (Some 0) (Some 0) false (Some 0)
        [CStart "svg" (root_attributes width height kw)].
Proof.
  unfold __init__, bind at 1, lift at 1.
  destruct (bind_kwargs _ kw) as [e|kwargs] eqn:E1; [done |].
  pose proof (bind_kwargs_inr_avoids _ _ _ E1) as Hav1.
  apply bind_kwargs_inr in E1 as ->.
  unfold bind at 1, modify at 1. unfold bind at 1, lift at 1.
  destruct (call_kw _ kw) as [e|args] eqn:E2; [done |].
  pose proof (call_kw_inr_avoids _ _ _ E2) as Hav2.
  apply call_kw_inr in E2 as ->.
  cbv zeta. set (attrs := match height with VNone => _ | _ => _ end).
  assert (attrs = root_attributes width height kw) as ->; [| by intros [= <-]].
  subst attrs. unfold root_attributes.
  rewrite (fix_attrs_disjoint_app
             [("xmlns", VStr "http://www.w3.org/2000/svg");
              ("version", VStr "1.1")] kw).
  2:{ intros k1 k2 Hk1 Hk2 Heq. simpl in Hk1, Hav2.
      eapply (avoided_after_normalisation ["xmlns"; "version"] kw k2
                (replace_underscores k1)); try done;
        split_members Hk1; subst k1; try done; simpl; member. }
  change (_fix_attrs [("xmlns", VStr "http://www.w3.org/2000/svg");
                      ("version", VStr "1.1")])
    with [("xmlns", "http://www.w3.org/2000/svg"); ("version", "1.1")].
  set (fixed := [("xmlns", "http://www.w3.org/2000/svg"); ("version", "1.1")]).
  rewrite (set_optional "width" width).
  2:{ unfold keys. rewrite map_app. intros [H | H]%elem_of_app.
      - subst fixed. simpl in H. split_members H; done.
      - revert H. apply (fix_attrs_avoids ["self"; "width"; "height"]);
          [done | member | done]. }
  rewrite (set_optional "height" height).
  2:{ unfold keys. rewrite !map_app.
      intros [[H | H]%elem_of_app | H]%elem_of_app.
      - subst fixed. simpl in H. split_members H; done.
      - revert H. apply (fix_attrs_avoids ["self"; "width"; "height"]);
          [done | member | done].
      - by apply keys_optional_attr in H. }
  by rewrite <- !app_assoc.
Qed.

(** X16.  Whatever a program calls on a constructed builder, inherited
    methods included and whatever the outcome of each call, the [svg]
    attribute and the root stay the element the constructor opened, with
    its tag and attributes, and its first child stays the comment the
    constructor appended, with its text. *)
Theorem root_and_comment_stay (width height : value) (kw : dict value)
    (now : string) (b0 bi : builder) (ops : list operation) :
  __init__ width height kw now b0 = (inr tt, bi) ->
  svg (run_all ops bi) = Some 0
  /\ _root (run_all ops bi) = Some 0
  /\ e_tag (deref (run_all ops bi) 0) = Name "svg"
  /\ e_attrib (deref (run_all ops bi) 0) = e_attrib (deref bi 0)
  /\ (exists rest, e_children (deref (run_all ops bi) 0) = 1 :: rest)
  /\ e_tag (deref (run_all ops bi) 1) = CommentTag
  /\ e_text (deref (run_all ops bi) 1)
     = Some ("vbl-stats svg generated at " +:+ now).
Proof.
  intros (attrs & ->)%init_shape.
  set (bi := Builder _ _ _ _ _ _ _ _).
  destruct (run_all_grows ops bi) as (_ & Hsvg & Hroot & Helem).
  destruct (Helem 0 ltac:(simpl; lia)) as (Ht0 & Ha0 & [rest Hc0] & _).
  assert (aside 1 bi) as Haside.
  { split; [simpl; lia |]. split; [done |].
    intros ?%list_elem_of_singleton. done. }
  destruct (run_all_spares 1 ops bi Haside) as [_ Hcomment].
  split; [done |]. split; [by apply Hroot |]. split; [done |].
  split; [done |]. split; [by exists rest |]. by rewrite Hcomment.
Qed.

(** *** [text] and [text_group] *)

Lemma bind_kwargs_same bound bound' kw :
  (forall k, k ∈ keys kw -> k ∈ bound <-> k ∈ bound') ->
  bind_kwargs bound kw = bind_kwargs bound' kw.
Proof.
  induction kw as [|[k v] kw IH]; intros Hsame; simpl; [done |].
  rewrite IH by (intros k0 Hk0; by apply Hsame, list_elem_of_further).
  rewrite (bool_decide_ext (k ∈ bound) (k ∈ bound'));
    [done | apply Hsame, list_elem_of_here].
Qed.

(** X17.  Unless a keyword is named [text], [text(body, x, y)] does to
    every builder what sending [body] with [data] in the scope of
    [text_group(x, y)] does, with the same keywords: the same outcome,
    the same builder, the same calls. *)
Theorem text_is_scoped_data (body : string) (x y : value) (kw : dict value)
    (b : builder) :
  "text" ∉ keys kw ->
  text body x y kw b
  = (h <- text_group x y kw ;; with_ h (fun _ => TreeBuilder.data body)) b.
Proof.
  intros Hfree.
  unfold text, text_group, with_, _SVGGroup.__enter__, _SVGGroup.__exit__,
    bind, lift, ret, TreeBuilder.data, modify.
  rewrite (bind_kwargs_same ["self"; "text"; "x"; "y"] ["self"; "x"; "y"]).
  2:{ intros k Hk. split; intros H; split_members H; subst k;
        try done; member. }
  destruct (bind_kwargs _ kw) as [e|kwargs]; [done |].
  destruct (call_kw _ kwargs) as [e|args]; [done |].
  destruct (TreeBuilder.start "text" (_fix_attrs args) b) as [[e|n] b1];
    [done |].
  simpl. by destruct (TreeBuilder.end_ "text" _) as [[e|m] b3].
Qed.

(** *** Sectors side by side *)

(** X18.  A sector that starts at the angle where another one ends,
    around the same center with the same radius, has its straight edge
    end at the very point where the other's arc ends: the two paths
    print the same coordinates for it. *)
Theorem adjacent_sectors_share_edge (cx cy r alpha theta theta' s s' : value)
    (fcx fcy fr fa fs fs' : float) :
  as_float cx = inr fcx -> as_float cy = inr fcy -> as_float r = inr fr ->
  as_float alpha = inr fa -> is_infinite fa = false ->
  py_add alpha theta = inr s -> as_float s = inr fs ->
  is_infinite fs = false ->
  py_add s theta' = inr s' -> as_float s' = inr fs' ->
  is_infinite fs' = false ->
  exists x1 y1 x2 y2 x3 y3,
    sector_d cx cy r alpha theta
    = inr (render (spec_sector_path fcx fcy fr x1 y1 x2 y2
                     (exceeds_pi theta) (is_positive theta)))
    /\ sector_d cx cy r s theta'
       = inr (render (spec_sector_path fcx fcy fr x2 y2 x3 y3
                        (exceeds_pi theta') (is_positive theta'))).
Proof.
  intros Hcx Hcy Hr Ha Hfa Hs Hfs Hfs' Hs' Hfs2 Hfs2'.
  do 6 eexists. split.
  - by apply (sector_d_spec cx cy r alpha theta fcx fcy fr fa s fs).
  - by apply (sector_d_spec cx cy r s theta' fcx fcy fr fs s' fs').
Qed.

(** *** When a shape call returns *)

Lemma emit_returns_avoids s args b b' :
  shape_body s = None ->
  emit s args b = (inr tt, b') -> avoids ["self"; "tag"] args = true.
Proof.
  intros Hbody.
  destruct s; simpl in Hbody; try done; simpl;
    unfold item, bind at 1, lift at 1;
    (destruct (bind_kwargs ["self"; "tag"] args) as [e|kwargs] eqn:E;
     [done | intros _; by eapply bind_kwargs_inr_avoids]).
Qed.

Lemma draw_returns_reserved s kw b b' :
  draw s kw b = (inr tt, b') -> avoids (reserved_names s) kw = true.
Proof.
  rewrite draw_staged. unfold bind at 1, lift at 1.
  destruct (bind_kwargs (parameters s) kw) as [e1|kwargs] eqn:E1; [done |].
  pose proof (bind_kwargs_inr_avoids _ _ _ E1) as Hav1.
  apply bind_kwargs_inr in E1 as ->. unfold bind at 1, lift at 1.
  destruct (explicit_keywords s) as [e2|ex] eqn:E2; [done |].
  unfold bind at 1, lift at 1.
  destruct (call_kw ex kw) as [e3|args] eqn:E3; [done |].
  pose proof (call_kw_inr_avoids _ _ _ E3) as Hav2.
  rewrite (explicit_keys s ex E2) in Hav2.
  apply call_kw_inr in E3 as ->. intros Hrun.
  apply avoids_intro. intros k Hk Hres.
  pose proof (avoids_not_in _ _ _ Hav1 Hk) as Hn1.
  pose proof (avoids_not_in _ _ _ Hav2 Hk) as Hn2.
  assert (shape_body s = None -> k ∉ ["self"; "tag"]) as Hn3.
  { intros Hbody. apply (avoids_not_in _ kw); [| done].
    pose proof (emit_returns_avoids s (ex ++ kw) b b' Hbody Hrun) as Hav3.
    apply avoids_intro. intros k0 Hk0.
    apply (avoids_not_in _ (ex ++ kw)); [done |].
    unfold keys. rewrite map_app. apply elem_of_app. by right. }
  destruct s; simpl in *; split_members Hres; subst k;
    first [ apply Hn1; member | apply Hn2; member
          | apply Hn3; [done | member] ].
Qed.

(** X19.  On a builder with an element open and without pending data,
    called with distinct keywords, a shape call returns exactly when no keyword is named like
    a parameter of the method, like a parameter of [item] where the
    method goes through it, or like a geometry attribute, and, for the
    sector, the path data can be computed. *)
Theorem shape_returns_iff (s : shape) (kw : dict value) (b : builder) :
  _data b = [] -> well_formed b -> _elem b <> [] -> NoDup (keys kw) ->
  (exists b', draw s kw b = (inr tt, b'))
  <-> avoids (reserved_names s) kw = true
      /\ exists ex, explicit_keywords s = inr ex.
Proof.
  intros Hd Hwf Hopen Hnd. split.
  - intros [b' Hrun]. split; [by eapply draw_returns_reserved |].
    destruct (draw_returns_avoids s kw b b' Hrun) as (ex & Hex & _).
    by exists ex.
  - intros (Hav & ex & Hex).
    destruct (draw_emits s kw b ex Hwf (open_can_open b Hopen) Hnd Hav Hex)
      as (b' & Hrun & _).
    by exists b'.
Qed.

(** *** What can be open *)

(** X20.  In a builder reached from the constructor with the class's own
    methods and the release of handles, the root is the [svg] element and
    every open element is that root, a [g] or a [text]: no shape and no
    comment is ever left open. *)
Theorem only_root_and_groups_open (b : builder) :
  reachable_own b ->
  exists r,
    _root b = Some r
    /\ e_tag (deref b r) = Name "svg"
    /\ forall i, i ∈ _elem b ->
         i < length (heap b)
         /\ (i = r \/ e_tag (deref b i) = Name "g"
             \/ e_tag (deref b i) = Name "text").
Proof.
  intros (r & Hr & _ & Htag & Hopen)%reachable_own_rooted.
  exists r. split; [done |]. split; [done |]. exact Hopen.
Qed.

End Svg.

(** ** Concrete runs

    The sample builders are what the methods produce, and each property
    above is applied to a concrete call. *)

Example sample_builder_constructed :
  __init__ sample_repr (VInt 100) (VInt 50) [] "2014-05-01T12:00:00" fresh
  = (inr tt, sample_builder).
Proof. vm_compute. reflexivity. Qed.

Example sample_open_group_reached :
  g sample_repr [] sample_builder
  = (inr (_SVGGroup.__init__ "g"), sample_open_group).
Proof. vm_compute. reflexivity. Qed.

Example sample_written_reached :
  write "out.svg" "UTF-8" true sample_builder
  = (inr (TreeWrite 0 "out.svg" "UTF-8" true), sample_written).
Proof. vm_compute. reflexivity. Qed.

Example sample_open_group_own :
  reachable_own sample_cos sample_sin sample_repr sample_open_group.
Proof.
  replace sample_open_group
    with (run sample_cos sample_sin sample_repr (OpG []) sample_builder).2
    by (vm_compute; reflexivity).
  apply reach_own_call; [reflexivity |].
  exact (reach_own_new _ _ _ _ _ _ _ _ _ sample_builder_constructed).
Qed.

(** [defs] raises before it opens anything: [start] is called without
    its [attrs] argument. *)
Example defs_raises (b : builder) :
  defs b = (inl (TypeError (MissingArgument "attrs")), b).
Proof. reflexivity. Qed.

(** C1: an infinite start angle makes [circle_sector] raise, and nothing
    is emitted. *)
Lemma circle_sector_infinite_angle :
  circle_sector sample_cos sample_sin sample_repr
    (VInt 0) (VInt 0) (VInt 1) (VFloat (S754_infinity false)) (VInt 1) []
    sample_builder
  = (inl (ValueError "math domain error"), sample_builder).
Proof. vm_compute. reflexivity. Qed.

(** The sector around the origin with radius 1 from angle 0 over a sweep
    of 4, which is more than pi: both flags are 1. *)
Lemma circle_sector_path_witness :
  (as_float (VInt 0) = inr (S754_zero false)
   /\ as_float (VInt 1) = inr (S754_finite false 4503599627370496 (-52))
   /\ py_add (VInt 0) (VInt 4) = inr (VInt 4)
   /\ as_float (VInt 4) = inr (S754_finite false 4503599627370496 (-50)))
  /\ sector_d sample_cos sample_sin (VInt 0) (VInt 0) (VInt 1) (VInt 0) (VInt 4)
     = inr ("M0.000000,0.000000 L1.000000,0.000000 "
            +:+ "A1.000000,1.000000 0 1,1 -0.653644,-0.756802 Z")
  /\ (exceeds_pi (VInt 4) = true /\ is_positive (VInt 4) = true)
  /\ exists b',
       circle_sector sample_cos sample_sin sample_repr
         (VInt 0) (VInt 0) (VInt 1) (VInt 0) (VInt 4) [] sample_builder
       = (inr tt, b')
       /\ emitted sample_builder b' "path"
            [("d", "M0.000000,0.000000 L1.000000,0.000000 "
                   +:+ "A1.000000,1.000000 0 1,1 -0.653644,-0.756802 Z")]
            None.
Proof.
  split; [repeat split |].
  destruct (circle_sector_path sample_cos sample_sin sample_repr
              (VInt 0) (VInt 0) (VInt 1) (VInt 0) (VInt 4)
              (S754_zero false) (S754_zero false)
              (S754_finite false 4503599627370496 (-52))
              (S754_zero false) (S754_finite false 4503599627370496 (-50))
              (VInt 4)
              eq_refl eq_refl eq_refl eq_refl eq_refl eq_refl)
    as (Hpath & _ & Hint & _).
  destruct (Hpath eq_refl eq_refl) as [Hd Hemit].
  split; [exact Hd |].
  split; [exact (Hint 4%Z eq_refl) |].
  destruct (Hemit [] sample_builder) as (b' & Hrun & Hem & _).
  - discriminate.
  - by repeat constructor.
  - constructor.
  - reflexivity.
  - exists b'. split; [exact Hrun | exact Hem].
Defined.

(** C2: [circle(1, 2, 3, cx=5)] raises; neither value becomes [cx]. *)
Lemma circle_duplicate_cx :
  circle sample_repr (VInt 1) (VInt 2) (VInt 3) [("cx", VInt 5)] sample_builder
  = (inl (TypeError (MultipleValues "cx")), sample_builder).
Proof. vm_compute. reflexivity. Qed.

Lemma colliding_extra_raises_witness :
  "cx" ∈ keys [("cx", VInt 5)]
  /\ replace_underscores "cx"
     ∈ geometry_names (Circle (VInt 1) (VInt 2) (VInt 3))
  /\ exists e,
       draw sample_cos sample_sin sample_repr
         (Circle (VInt 1) (VInt 2) (VInt 3)) [("cx", VInt 5)] sample_builder
       = (inl e, sample_builder).
Proof.
  split; [member |]. split; [member |].
  apply (colliding_extra_raises sample_cos sample_sin sample_repr _ _ _ "cx");
    member.
Defined.

Lemma fix_attrs_normalises_witness :
  NoDup (keys [("stroke_width", VInt 2)])
  /\ Forall (fun k => no_hyphen k = true) (keys [("stroke_width", VInt 2)])
  /\ _fix_attrs sample_repr [("stroke_width", VInt 2)] = [("stroke-width", "2")].
Proof.
  assert (NoDup (keys [("stroke_width", VInt 2)])) as Hnd.
  { constructor; [intros H; inversion H | constructor]. }
  assert (Forall (fun k => no_hyphen k = true)
                 (keys [("stroke_width", VInt 2)])) as Hall.
  { by repeat constructor. }
  split; [exact Hnd |]. split; [exact Hall |].
  exact (proj1 (fix_attrs_normalises sample_repr _ Hnd Hall)).
Defined.

(** C4: on the builder of [SVGBuilder(100, 50)], where the [svg] root is
    innermost, [end('g')] returns and closes the root; releasing a [g]
    handle twice returns both times, the second release closing the
    root; and [end] on a builder with nothing open raises an error that
    names no tag. *)
Lemma double_release_is_silent :
  (TreeBuilder.end_ "g" sample_builder).1 = inr 0
  /\ e_tag (deref sample_builder 0) = Name "svg"
  /\ _elem (TreeBuilder.end_ "g" sample_builder).2 = []
  /\ ((h <- g sample_repr [] ;;
       _SVGGroup.__exit__ h ;;;
       _SVGGroup.__exit__ h) sample_builder).1 = inr tt
  /\ (TreeBuilder.end_ "g" sample_written).1
     = inl (IndexError "pop from empty stack").
Proof. repeat split; vm_compute; reflexivity. Qed.

(** [end('svg')] with the group innermost closes the group. *)
Lemma end_ignores_tag_witness :
  exists b',
    TreeBuilder.end_ "svg" sample_open_group = (inr 2, b')
    /\ _elem b' = [0] /\ _last b' = Some 2
    /\ _root b' = _root sample_open_group
    /\ heap b' = heap (flushed sample_open_group)
    /\ calls b' = calls sample_open_group ++ [CEnd "svg"].
Proof.
  exact (proj1 (proj2 (end_ignores_tag "svg" sample_open_group))
           2 [0] eq_refl).
Defined.

(** C5: [write] with a group open returns, and the root stays open. *)
Lemma write_with_group_open_returns :
  (write "out.svg" "UTF-8" true sample_open_group).1
  = inr (TreeWrite 0 "out.svg" "UTF-8" true)
  /\ _elem sample_open_group = [2; 0]
  /\ _elem (write "out.svg" "UTF-8" true sample_open_group).2 = [0].
Proof. repeat split; vm_compute; reflexivity. Qed.

Lemma write_ends_innermost_witness :
  (exists b',
     write "out.svg" "UTF-8" true sample_builder
     = (inr (TreeWrite 0 "out.svg" "UTF-8" true), b')
     /\ _elem b' = [] /\ _root b' = Some 0
     /\ heap b' = heap (flushed sample_builder)
     /\ calls b' = calls sample_builder ++ [CEnd "svg"; CClose])
  /\ (exists b',
        write "out.svg" "UTF-8" true sample_written
        = (inl (IndexError "pop from empty stack"), b')
        /\ calls b' = calls sample_written ++ [CEnd "svg"])
  /\ exists r,
       _root sample_open_group = Some r
       /\ e_tag (deref sample_open_group r) = Name "svg"
       /\ ((write "out.svg" "UTF-8" true sample_open_group).1
           = inr (TreeWrite r "out.svg" "UTF-8" true)
           <-> _elem sample_open_group <> []).
Proof.
  split; [| split].
  - exact (proj1 (write_ends_innermost sample_cos sample_sin sample_repr
                    "out.svg" "UTF-8" true sample_builder)
             0 [] 0 eq_refl eq_refl).
  - exact (proj1 (proj2 (write_ends_innermost sample_cos sample_sin
                           sample_repr "out.svg" "UTF-8" true
                           sample_written)) eq_refl).
  - exact (proj2 (proj2 (write_ends_innermost sample_cos sample_sin
                           sample_repr "out.svg" "UTF-8" true
                           sample_open_group)) sample_open_group_own).
Defined.

(** [circle(1, 2, 3, stroke_width=2)] inside the open group, and
    [circle(1, 2, 3)] after [write]. *)
Lemma shape_opens_then_closes_witness :
  (exists b',
     draw sample_cos sample_sin sample_repr
       (Circle (VInt 1) (VInt 2) (VInt 3)) [("stroke_width", VInt 2)]
       sample_open_group = (inr tt, b')
     /\ _elem b' = [2; 0])
  /\ exists e b',
       draw sample_cos sample_sin sample_repr
         (Circle (VInt 1) (VInt 2) (VInt 3)) [] sample_written = (inl e, b')
       /\ length (heap b') = length (heap sample_written).
Proof.
  split.
  - pose proof (shape_opens_then_closes sample_cos sample_sin sample_repr
                  (Circle (VInt 1) (VInt 2) (VInt 3))
                  [("stroke_width", VInt 2)] sample_open_group)
      as (Hstack & _ & Hruns & _).
    destruct (Hruns [("cx", VInt 1); ("cy", VInt 2); ("r", VInt 3)])
      as [b' Hrun]; try reflexivity.
    + discriminate.
    + by repeat constructor.
    + constructor; [intros H; inversion H | constructor].
    + exists b'. split; [exact Hrun |]. rewrite Hrun in Hstack. exact Hstack.
  - exact (proj2 (proj2 (proj2
             (shape_opens_then_closes sample_cos sample_sin sample_repr
                (Circle (VInt 1) (VInt 2) (VInt 3)) [] sample_written)))
             0 eq_refl eq_refl).
Defined.

(** A circle drawn in the scope of the handle of the open group. *)
Lemma scope_exit_ends_once_witness :
  _elem (with_ (_SVGGroup.__init__ "g")
           (fun _ => circle sample_repr (VInt 1) (VInt 2) (VInt 3) [])
           sample_open_group).2 = [0]
  /\ calls (with_ (_SVGGroup.__init__ "g")
              (fun _ => circle sample_repr (VInt 1) (VInt 2) (VInt 3) [])
              sample_open_group).2
     = calls (circle sample_repr (VInt 1) (VInt 2) (VInt 3) []
                sample_open_group).2 ++ [CEnd "g"]
  /\ (with_ (_SVGGroup.__init__ "g")
        (fun _ => circle sample_repr (VInt 1) (VInt 2) (VInt 3) [])
        sample_open_group).1
     = (circle sample_repr (VInt 1) (VInt 2) (VInt 3) [] sample_open_group).1.
Proof.
  destruct (proj2 (proj2 (proj2 (proj2 (proj2
              (scope_exit_ends_once sample_repr)))))
              unit (_SVGGroup.__init__ "g")
              (fun _ => circle sample_repr (VInt 1) (VInt 2) (VInt 3) [])
              sample_open_group) as (_ & He & Hc & Hout & _).
  split; [exact He |]. split; [exact Hc |].
  apply Hout. vm_compute. discriminate.
Defined.

(** C9: a NaN coordinate is written as [nan]. *)
Lemma nan_is_not_fixed_point :
  sector_d sample_cos sample_sin
    (VFloat S754_nan) (VInt 0) (VInt 1) (VInt 0) (VInt 0)
  = inr ("Mnan,0.000000 Lnan,0.000000 "
         +:+ "A1.000000,1.000000 0 0,0 nan,0.000000 Z")
  /\ ~ fixed_point6 "nan".
Proof.
  split; [vm_compute; reflexivity |].
  intros (sign & int & frac & Heq & Hsign & Hint & Hdig & _).
  destruct Hsign as [-> | ->]; [| discriminate].
  destruct int as [|c int]; [done |].
  injection Heq as <- _. discriminate.
Qed.

Lemma init_fixed_and_explicit_attributes_witness :
  (exists k b',
     __init__ sample_repr (VInt 100) (VInt 50) [("version", VStr "2.0")]
       "2014-05-01T12:00:00" fresh
     = (inl (TypeError (MultipleValues k)), b'))
  /\ exists b' root,
       __init__ sample_repr (VInt 100) VNone [("stroke_width", VInt 2)]
         "2014-05-01T12:00:00" fresh = (inr tt, b')
       /\ svg b' = Some root
       /\ dict_get "width" (e_attrib (deref b' root)) = Some "100".
Proof.
  split.
  - apply (proj1 (init_fixed_and_explicit_attributes
                    sample_repr (VInt 100) (VInt 50) [("version", VStr "2.0")]
                    "2014-05-01T12:00:00" fresh)).
    left. member.
  - destruct (proj2 (init_fixed_and_explicit_attributes
                       sample_repr (VInt 100) VNone [("stroke_width", VInt 2)]
                       "2014-05-01T12:00:00" fresh))
      as (b' & root & Hrun & Hsvg & _ & _ & _ & _ & _ & Hw & _).
    + constructor; [intros H; inversion H | constructor].
    + reflexivity.
    + exists b', root. split; [exact Hrun |]. split; [exact Hsvg |].
      by apply Hw.
Defined.

(** *** The further properties, each at a concrete call *)

(** Two keys with the same normalised name: the later value is the
    attribute's. *)
Lemma fix_attrs_last_wins_witness :
  dict_get "stroke-width"
    (_fix_attrs sample_repr
       [("stroke_width", VInt 1); ("stroke-width", VInt 2);
        ("fill", VStr "red")])
  = Some "2".
Proof.
  apply (fix_attrs_last_wins sample_repr [("stroke_width", VInt 1)]
           [("fill", VStr "red")] "stroke-width" (VInt 2)).
  intros k2 Hk2. simpl in Hk2. split_members Hk2. by subst k2.
Defined.

Lemma fix_attrs_app_witness :
  _fix_attrs sample_repr ([("stroke_width", VInt 2)] ++ [("fill", VStr "red")])
  = _fix_attrs sample_repr [("stroke_width", VInt 2)]
    ++ _fix_attrs sample_repr [("fill", VStr "red")].
Proof.
  apply (fix_attrs_app sample_repr [("stroke_width", VInt 2)]
           [("fill", VStr "red")]).
  intros k1 k2 Hk1 Hk2. simpl in Hk1, Hk2.
  split_members Hk1. split_members Hk2. by subst k1 k2.
Defined.

(** [circle(1, 2, 3, cx=5)] on the sample builder: the call raises and
    the builder is as it was. *)
Lemma shape_failure_is_atomic_witness :
  (exists b',
     draw sample_cos sample_sin sample_repr
       (Circle (VInt 1) (VInt 2) (VInt 3)) [("cx", VInt 5)] sample_builder
     = (inr tt, b'))
  \/ (exists e,
        draw sample_cos sample_sin sample_repr
          (Circle (VInt 1) (VInt 2) (VInt 3)) [("cx", VInt 5)] sample_builder
        = (inl e, sample_builder)
        /\ ((exists k, k ∈ keys [("cx", VInt 5)]
                       /\ e = TypeError (MultipleValues k))
            \/ explicit_keywords sample_cos sample_sin
                 (Circle (VInt 1) (VInt 2) (VInt 3)) = inl e)).
Proof.
  apply (shape_failure_is_atomic sample_cos sample_sin sample_repr
           (Circle (VInt 1) (VInt 2) (VInt 3)) [("cx", VInt 5)]
           sample_builder).
  - reflexivity.
  - by repeat constructor.
  - discriminate.
Defined.

(** [rect(1, 2, 30, 40, stroke_width=2)] inside the open group. *)
Lemma shape_attributes_witness :
  e_attrib
    (deref
       (draw sample_cos sample_sin sample_repr
          (Rect (VInt 1) (VInt 2) (VInt 30) (VInt 40))
          [("stroke_width", VInt 2)] sample_open_group).2 3)
  = [("x", "1"); ("y", "2"); ("width", "30"); ("height", "40");
     ("stroke-width", "2")].
Proof.
  destruct (shape_attributes sample_cos sample_sin sample_repr
              (Rect (VInt 1) (VInt 2) (VInt 30) (VInt 40))
              [("stroke_width", VInt 2)] sample_open_group
              (draw sample_cos sample_sin sample_repr
                 (Rect (VInt 1) (VInt 2) (VInt 30) (VInt 40))
                 [("stroke_width", VInt 2)] sample_open_group).2)
    as (ex & Hex & _ & Hattr & _).
  - by repeat constructor.
  - vm_compute. reflexivity.
  - injection Hex as <-. exact Hattr.
Defined.

Lemma shape_touches_only_parent_witness :
  deref (draw sample_cos sample_sin sample_repr
           (Circle (VInt 1) (VInt 2) (VInt 3)) [] sample_open_group).2 2
  = append 3 (deref sample_open_group 2)
  /\ deref (draw sample_cos sample_sin sample_repr
              (Circle (VInt 1) (VInt 2) (VInt 3)) [] sample_open_group).2 0
     = deref sample_open_group 0.
Proof.
  destruct (shape_touches_only_parent sample_cos sample_sin sample_repr
              (Circle (VInt 1) (VInt 2) (VInt 3)) [] sample_open_group
              (draw sample_cos sample_sin sample_repr
                 (Circle (VInt 1) (VInt 2) (VInt 3)) []
                 sample_open_group).2)
    as (_ & Hparent & Hother & _).
  - reflexivity.
  - by repeat constructor.
  - vm_compute. reflexivity.
  - split; [exact (Hparent 2 [0] eq_refl) |].
    apply Hother; [simpl; lia | discriminate].
Defined.

Lemma own_calls_keep_builder_ready_witness :
  _data sample_open_group = []
  /\ flushable sample_open_group = true
  /\ well_formed sample_open_group.
Proof.
  exact (own_calls_keep_builder_ready sample_cos sample_sin sample_repr
           sample_open_group sample_open_group_own).
Defined.

(** [text_group(1, 2, font_size=12)] on the sample builder. *)
Lemma group_opens_witness :
  exists b',
    open_group sample_repr (TextGroup (VInt 1) (VInt 2))
      [("font_size", VInt 12)] sample_builder
    = (inr (_SVGGroup.__init__ "text"), b')
    /\ opened sample_builder b' "text"
         [("x", "1"); ("y", "2"); ("font-size", "12")].
Proof.
  apply (group_opens sample_repr (TextGroup (VInt 1) (VInt 2))
           [("font_size", VInt 12)] sample_builder).
  - discriminate.
  - by repeat constructor.
  - constructor; [intros H; inversion H | constructor].
  - reflexivity.
Defined.

(** A body that raises in the scope of the open group: the exception is
    the outcome of the statement, and the group is closed. *)
Lemma scope_closes_group_witness :
  exists b3,
    with_ (_SVGGroup.__init__ "g")
      (fun _ => circle sample_repr (VInt 1) (VInt 2) (VInt 3) [("cx", VInt 5)])
      sample_open_group
    = (inl (TypeError (MultipleValues "cx")), b3)
    /\ _elem b3 = [0]
    /\ _root b3 = _root sample_open_group
    /\ calls b3 = calls sample_open_group ++ [CEnd "g"].
Proof.
  apply (scope_closes_group (_SVGGroup.__init__ "g")
           (fun _ => circle sample_repr (VInt 1) (VInt 2) (VInt 3)
                       [("cx", VInt 5)])
           sample_open_group sample_open_group
           (inl (TypeError (MultipleValues "cx"))) 2 [0]);
    reflexivity.
Defined.

Lemma shapes_in_sequence_witness :
  exists b',
    draw_all sample_cos sample_sin sample_repr
      [(Circle (VInt 1) (VInt 2) (VInt 3), []);
       (Text "label" (VInt 1) (VInt 2), [("font_size", VInt 12)])]
      sample_builder = (inr tt, b')
    /\ _elem b' = [0]
    /\ e_children (deref b' 0) = [1; 2; 3].
Proof.
  destruct (shapes_in_sequence sample_cos sample_sin sample_repr
              [(Circle (VInt 1) (VInt 2) (VInt 3), []);
               (Text "label" (VInt 1) (VInt 2), [("font_size", VInt 12)])]
              sample_builder)
    as (b' & Hrun & He & _ & Hpar & _).
  - reflexivity.
  - by repeat constructor.
  - discriminate.
  - repeat constructor; simpl;
      try (by intros H; inversion H); by eexists.
  - exists b'. split; [exact Hrun |]. split; [exact He |].
    exact (Hpar 0 [] eq_refl).
Defined.

Lemma group_of_shapes_witness :
  exists b',
    (h <- open_group sample_repr Group [("fill", VStr "red")] ;;
     with_ h (fun _ =>
       draw_all sample_cos sample_sin sample_repr
         [(Circle (VInt 1) (VInt 2) (VInt 3), []);
          (Rect (VInt 1) (VInt 2) (VInt 30) (VInt 40), [])]))
      sample_builder = (inr tt, b')
    /\ _elem b' = [0]
    /\ deref b' 2 = Element (Name "g") [("fill", "red")] None None [3; 4]
    /\ e_children (deref b' 0) = [1; 2].
Proof.
  destruct (group_of_shapes sample_cos sample_sin sample_repr Group
              [("fill", VStr "red")]
              [(Circle (VInt 1) (VInt 2) (VInt 3), []);
               (Rect (VInt 1) (VInt 2) (VInt 30) (VInt 40), [])]
              sample_builder)
    as (b' & Hrun & He & _ & Hgroup & Hpar & _).
  - reflexivity.
  - by repeat constructor.
  - discriminate.
  - constructor; [intros H; inversion H | constructor].
  - reflexivity.
  - repeat constructor; simpl; by eexists.
  - exists b'. split; [exact Hrun |]. split; [exact He |].
    split; [exact Hgroup |]. by rewrite (Hpar 0 [] eq_refl).
Defined.

(** [write] twice on the builder of [SVGBuilder(100, 50)]. *)
Lemma write_again_witness :
  _elem sample_written = tail (_elem sample_builder)
  /\ exists b2,
       write "again.svg" "UTF-8" false sample_written
       = (inl (IndexError "pop from empty stack"), b2)
       /\ heap b2 = heap sample_written.
Proof.
  destruct (write_again "out.svg" "UTF-8" "again.svg" "UTF-8" true false
              sample_builder sample_written
              (TreeWrite 0 "out.svg" "UTF-8" true) sample_written_reached)
    as (Hstack & Hraises & _).
  split; [exact Hstack | exact (Hraises eq_refl)].
Defined.

(** [circle(1, 2, 3)] after [write]. *)
Lemma shapes_after_write_are_refused_witness :
  exists b2,
    draw sample_cos sample_sin sample_repr
      (Circle (VInt 1) (VInt 2) (VInt 3)) [] sample_written
    = (inl (ParseError "multiple elements on top level"), b2)
    /\ heap b2 = heap sample_written
    /\ _root b2 = Some 0
    /\ _elem b2 = [].
Proof.
  apply (shapes_after_write_are_refused sample_cos sample_sin sample_repr
           "out.svg" "UTF-8" true sample_builder sample_written
           (TreeWrite 0 "out.svg" "UTF-8" true)
           (Circle (VInt 1) (VInt 2) (VInt 3)) []).
  - exact sample_written_reached.
  - reflexivity.
  - repeat split; simpl; [constructor | by eexists].
Defined.

Lemma init_builder_witness :
  sample_builder
  = Builder
      [Element (Name "svg")
         [("xmlns", "http://www.w3.org/2000/svg"); ("version", "1.1");
          ("width", "100"); ("height", "50")] None None [1];
       Element CommentTag []
         (Some "vbl-stats svg generated at 2014-05-01T12:00:00") None []]
      [] [0] (Some 0) (Some 0) false (Some 0)
      [CStart "svg"
         [("xmlns", "http://www.w3.org/2000/svg"); ("version", "1.1");
          ("width", "100"); ("height", "50")]].
Proof.
  exact (init_builder sample_repr (VInt 100) (VInt 50) []
           "2014-05-01T12:00:00" fresh sample_builder
           sample_builder_constructed).
Defined.

(** After a group was opened, the root closed by the inherited [end] and
    data sent, the root and its comment are where they were. *)
Lemma root_and_comment_stay_witness :
  _root (run_all sample_cos sample_sin sample_repr
           [OpG []; OpEnd "svg"; OpData "x"; OpStart "svg" []]
           sample_builder) = Some 0
  /\ e_tag (deref (run_all sample_cos sample_sin sample_repr
                     [OpG []; OpEnd "svg"; OpData "x"; OpStart "svg" []]
                     sample_builder) 1) = CommentTag.
Proof.
  destruct (root_and_comment_stay sample_cos sample_sin sample_repr
              (VInt 100) (VInt 50) [] "2014-05-01T12:00:00" fresh
              sample_builder
              [OpG []; OpEnd "svg"; OpData "x"; OpStart "svg" []]
              sample_builder_constructed)
    as (_ & Hroot & _ & _ & _ & Hcomment & _).
  split; [exact Hroot | exact Hcomment].
Defined.

Lemma text_is_scoped_data_witness :
  text sample_repr "label" (VInt 1) (VInt 2) [("font_size", VInt 12)]
    sample_builder
  = (h <- text_group sample_repr (VInt 1) (VInt 2) [("font_size", VInt 12)] ;;
     with_ h (fun _ => TreeBuilder.data "label")) sample_builder.
Proof.
  apply (text_is_scoped_data sample_repr "label" (VInt 1) (VInt 2)
           [("font_size", VInt 12)] sample_builder).
  intros H. simpl in H. split_members H. done.
Defined.

(** Two sectors at angle zero, where the stand-in cosine and sine are
    given. *)
Lemma adjacent_sectors_share_edge_witness :
  exists x1 y1 x2 y2 x3 y3,
    sector_d sample_cos sample_sin (VInt 0) (VInt 0) (VInt 1) (VInt 0) (VInt 0)
    = inr (render (spec_sector_path (S754_zero false) (S754_zero false)
                     (S754_finite false 4503599627370496 (-52))
                     x1 y1 x2 y2 false false))
    /\ sector_d sample_cos sample_sin (VInt 0) (VInt 0) (VInt 1) (VInt 0)
         (VInt 0)
       = inr (render (spec_sector_path (S754_zero false) (S754_zero false)
                        (S754_finite false 4503599627370496 (-52))
                        x2 y2 x3 y3 false false)).
Proof.
  exact (adjacent_sectors_share_edge sample_cos sample_sin
           (VInt 0) (VInt 0) (VInt 1) (VInt 0) (VInt 0) (VInt 0)
           (VInt 0) (VInt 0)
           (S754_zero false) (S754_zero false)
           (S754_finite false 4503599627370496 (-52))
           (S754_zero false) (S754_zero false) (S754_zero false)
           eq_refl eq_refl eq_refl eq_refl eq_refl eq_refl eq_refl eq_refl
           eq_refl eq_refl eq_refl).
Defined.

Lemma shape_returns_iff_witness :
  (exists b',
     draw sample_cos sample_sin sample_repr
       (Line (VInt 0) (VInt 0) (VInt 10) (VInt 10)) [("stroke", VStr "black")]
       sample_builder = (inr tt, b'))
  <-> avoids (reserved_names (Line (VInt 0) (VInt 0) (VInt 10) (VInt 10)))
        [("stroke", VStr "black")] = true
      /\ exists ex,
           explicit_keywords sample_cos sample_sin
             (Line (VInt 0) (VInt 0) (VInt 10) (VInt 10)) = inr ex.
Proof.
  apply (shape_returns_iff sample_cos sample_sin sample_repr
           (Line (VInt 0) (VInt 0) (VInt 10) (VInt 10))
           [("stroke", VStr "black")] sample_builder).
  - reflexivity.
  - by repeat constructor.
  - discriminate.
  - constructor; [intros H; inversion H | constructor].
Defined.

Lemma only_root_and_groups_open_witness :
  exists r,
    _root sample_open_group = Some r
    /\ e_tag (deref sample_open_group r) = Name "svg"
    /\ forall i, i ∈ _elem sample_open_group ->
         i < length (heap sample_open_group)
         /\ (i = r \/ e_tag (deref sample_open_group i) = Name "g"
             \/ e_tag (deref sample_open_group i) = Name "text").
Proof.
  exact (only_root_and_groups_open sample_cos sample_sin sample_repr
           sample_open_group sample_open_group_own).
Defined.
